(** * Variant: a tagged union over a fixed list of alternative types

    Shallow embedding of [variant.hpp].  Template parameters become ordinary
    arguments: the pack [Ts...] is a [list ty], a type argument is a [ty], an
    index argument is a number.  An instantiation the compiler rejects
    ([static_assert], no viable overload) evaluates to [Err IllFormed]; a run
    that leaves the language's defined behaviour (reading a union member that
    holds no object, indexing a table out of range, using an object that does
    not exist) evaluates to [Err Undefined].

    [int64_t] and [size_t] are 64 bits wide, as on LP64 targets. *)

From Stdlib Require Import ZArith Lia String.
From stdpp Require Import base decidable option list gmap.

Set Default Proof Using "Type".

(** ** Outcomes *)

Inductive error :=
| IllFormed   (* rejected when the template is instantiated *)
| Undefined.  (* undefined behaviour at run time *)

Inductive result (A : Type) :=
| Ok (a : A)
| Err (e : error).
Arguments Ok {A} a.
Arguments Err {A} e.

Definition result_bind {A B} (r : result A) (k : A → result B) : result B :=
  match r with
  | Ok a => k a
  | Err e => Err e
  end.

Definition result_map {A B} (f : A → B) (r : result A) : result B :=
  result_bind r (λ a, Ok (f a)).

Global Instance result_ret : MRet result := @Ok.
Global Instance result_mbind : MBind result := λ A B k r, result_bind r k.

(** ** What the container consumes from its alternative types

    [ty] names the types, [obj] is the universe of their values.  Every
    alternative supplies a copy constructor, a move constructor (which also
    says what is left in the moved-from object) and a destructor; it may
    supply [operator==]. *)

Class AltTypes (ty obj : Type) := {
  is_same :: EqDecision ty;                      (* std::is_same_v *)
  copy_construct : ty → obj → obj;               (* T(const T&) *)
  move_construct : ty → obj → obj * obj;         (* T(T&&): new object, source afterwards *)
  equal_to : ty → option (obj → obj → bool);     (* operator==, when declared *)
  is_trivially_destructible : ty → bool          (* std::is_trivially_destructible_v *)
}.

(** [T]'s copy and move constructors reproduce the value [v] in the new
    object. *)
Definition reproduces {ty obj} `{AltTypes ty obj} (T : ty) (v : obj) : Prop :=
  copy_construct T v = v ∧ (move_construct T v).1 = v.

(** A forwarding reference [T&&] binds either to an lvalue or to an rvalue.
    [rvalue] is a non-const rvalue, which the constructor moves from and for
    which [T] is deduced as the type itself; for every other argument [T]
    carries a reference or a [const] and the constructor copies. *)
Inductive value_category := lvalue | rvalue.

(** [U(std::forward<T>(val))] *)
Definition forward_construct {ty obj} `{AltTypes ty obj}
    (U : ty) (c : value_category) (val : obj) : obj :=
  match c with
  | lvalue => copy_construct U val
  | rvalue => (move_construct U val).1
  end.

(** What the reference [val] of a call names: an object that is no part of
    a [Variant] (a temporary, a variable), given by its value, or the object
    in the slot of the argument's type of the very storage the call
    constructs into, as in [v = v.get<T>()]. *)
Inductive referent (obj : Type) :=
| outside (val : obj)
| own_value.
Arguments outside {obj} val.
Arguments own_value {obj}.

(** Object identities: every completed construction creates a new object. *)
Definition oid := nat.
Definition addr := nat.

Definition uint64_max : Z := 2 ^ 64 - 1.

(** Conversion of an [int64_t] to [size_t] (usual arithmetic conversions). *)
Definition to_size_t (z : Z) : Z := z mod 2 ^ 64.

Module trait.
Definition is_equality_comparable_v {ty obj} `{AltTypes ty obj} (T : ty) : bool :=
  match equal_to T with
  | Some _ => true
  | None => false
  end.
End trait.

Module variant_utils.
Section utils.
Context {ty obj : Type} `{AltTypes ty obj}.

Fixpoint is_all_trivially_destructible_v (Ts : list ty) : bool :=
  match Ts with
  | [] => true
  | T :: Ts => is_trivially_destructible T && is_all_trivially_destructible_v Ts
  end.

(** [Position<id, U, Ts...>::pos] *)
Fixpoint Position (id : Z) (U : ty) (Ts : list ty) : Z :=
  match Ts with
  | [] => -1
  | T :: Ts => if decide (U = T) then id else Position (id + 1) U Ts
  end.

Definition find_idx_by_type (FindT : ty) (Ts : list ty) : Z :=
  Position 0 FindT Ts.

(** [find_type_by_idx_t<id, Ts...>]; the [static_assert] and the missing
    primary template reject every [id] outside the list. *)
Fixpoint find_type_by_idx (id : nat) (Ts : list ty) : result ty :=
  match Ts with
  | [] => Err IllFormed
  | Head :: Ts =>
      match id with
      | O => Ok Head
      | S id' => find_type_by_idx id' Ts
      end
  end.

(** [Storage<Head, Ts...>] is a union of [value] and [next]: at most one of
    the two members holds something. *)
Inductive Storage :=
| Raw                          (* no member holds an object *)
| Value (o : oid) (v : obj)    (* [value] holds the object [o] with value [v] *)
| Next (next : Storage).       (* [next] is the member in use *)

(** The member reached by [id] steps along [next], then [value]. *)
Fixpoint storage_read (id : nat) (storage : Storage) : result (oid * obj) :=
  match id, storage with
  | O, Value o v => Ok (o, v)
  | S id', Next next => storage_read id' next
  | _, _ => Err Undefined
  end.

(** [get_storage_value<id>(storage)], read as a value. *)
Definition get_storage_value (id : nat) (Ts : list ty) (storage : Storage)
    : result (oid * obj) :=
  if decide (id < length Ts)%nat then storage_read id storage
  else Err IllFormed.

(** Placement new at the address of [get_storage_value<id>(storage)]. *)
Fixpoint storage_emplace (id : nat) (o : oid) (v : obj) : Storage :=
  match id with
  | O => Value o v
  | S id' => Next (storage_emplace id' o v)
  end.

(** [*new (&storage.value) U(std::forward<T>(val))]: the new object [o] and
    the value the constructor leaves in it.  When [val] names the object of
    this very slot, the constructor reads an object whose destructor has run
    or whose storage the new object has taken: undefined behaviour. *)
Definition placement_new (U : ty) (c : value_category) (o : oid)
    (val : referent obj) : result Storage :=
  match val with
  | outside v => Ok (Value o (forward_construct U c v))
  | own_value => Err Undefined
  end.

(** The overload of lines 152-160 of [construct_variant_value].  Its
    recursive call names the template arguments,
    [construct_variant_value<T, Ts...>(storage.next, ...)]: the overload of
    lines 146-151 has one template parameter and cannot take them, and that
    of lines 144-145 needs both [Storage<T>] for the rest of the list and
    [find_idx_by_type<T, Ts...> == -1], which exclude each other.  So the
    call resolves to this overload again, and past the end of the list to
    the declaration of lines 142-143, which has no definition. *)
Fixpoint construct_variant_value_rec (U : ty) (c : value_category) (Ts : list ty)
    (o : oid) (val : referent obj) : result Storage :=
  match Ts with
  | [] => Err IllFormed
  | Head :: Ts =>
      if decide (U = Head) then placement_new U c o val
      else result_map Next (construct_variant_value_rec U c Ts o val)
  end.

(** A call that leaves the template arguments to deduction, on
    [Storage<Head>] with a non-const rvalue of type [Head]: the overloads of
    lines 144-145 (whose [enable_if] sees an empty pack [Ts...], so that
    [find_idx_by_type<Head> == -1] holds) and of lines 146-151 are both
    viable with the same parameter list [(Storage<Head> &, Head &&)];
    neither is more specialised than the other. *)
Definition ambiguous_overloads (U : ty) (c : value_category) (Ts : list ty) : bool :=
  match Ts, c with
  | [Head], rvalue => bool_decide (U = Head)
  | _, _ => false
  end.

(** [construct_variant_value(storage, std::forward<T>(val))] for an
    argument of type [U] and category [c]: an ambiguous call is ill-formed;
    every other call resolves to the overload of lines 152-160. *)
Definition construct_variant_value (U : ty) (c : value_category) (Ts : list ty)
    (o : oid) (val : referent obj) : result Storage :=
  if ambiguous_overloads U c Ts then Err IllFormed
  else construct_variant_value_rec U c Ts o val.

(** [destroy_variant_value<id>(storage)]: the storage afterwards and the
    object whose destructor ran. *)
Fixpoint storage_destroy (id : nat) (storage : Storage) : result (Storage * oid) :=
  match id, storage with
  | O, Value o _ => Ok (Raw, o)
  | S id', Next next =>
      result_map (λ r, (Next r.1, r.2)) (storage_destroy id' next)
  | _, _ => Err Undefined
  end.

Definition destroy_variant_value (id : nat) (Ts : list ty) (storage : Storage)
    : result (Storage * oid) :=
  if decide (id < length Ts)%nat then storage_destroy id storage
  else Err IllFormed.

(** The object a storage cell holds, whatever the member. *)
Fixpoint storage_object (storage : Storage) : option oid :=
  match storage with
  | Raw => None
  | Value o _ => Some o
  | Next next => storage_object next
  end.
End utils.
Arguments Storage obj : clear implicits.
End variant_utils.
Import variant_utils.

(** ** Objects of class [Variant] and the memory they live in *)

Definition null_type : Z := -1.

Section memory.
Context {obj : Type}.

Record Variant := mkVariant {
  type_idx : Z;
  m_storage : Storage obj
}.

(** Lifetime events and writes to the discriminant, in program order. *)
Inductive event :=
| EvConstruct (self : addr) (o : oid)   (* a constructor call has completed *)
| EvDestroy (self : addr) (o : oid)     (* a destructor call has completed *)
| EvSetIdx (self : addr) (k : Z).       (* [type_idx] has been written *)

(** The log pairs every event with the objects as they are right after it. *)
Record world := World {
  heap : gmap addr Variant;
  next_oid : oid;
  log : list (event * gmap addr Variant)
}.

Definition M (A : Type) : Type := world → result (A * world).

Definition ret {A} (a : A) : M A := λ w, Ok (a, w).

Definition bind {A B} (m : M A) (k : A → M B) : M B :=
  λ w, match m w with
       | Ok (a, w') => k a w'
       | Err e => Err e
       end.

Global Instance M_ret : MRet M := @ret.
Global Instance M_mbind : MBind M := λ A B k m, bind m k.

Definition fail {A} (e : error) : M A := λ _, Err e.

Definition lift {A} (r : result A) : M A :=
  λ w, match r with
       | Ok a => Ok (a, w)
       | Err e => Err e
       end.

Definition load (p : addr) : M Variant :=
  λ w, match heap w !! p with
       | Some V => Ok (V, w)
       | None => Err Undefined
       end.

Definition set_heap (h : gmap addr Variant) (w : world) : world :=
  World h (next_oid w) (log w).

Definition logged (e : event) (w : world) : world :=
  World (heap w) (next_oid w) (log w ++ [(e, heap w)]).

Definition store (p : addr) (V : Variant) : M unit :=
  λ w, Ok (tt, set_heap (<[p := V]> (heap w)) w).

Definition emit (e : event) : M unit :=
  λ w, Ok (tt, logged e w).

Definition new_object : M oid :=
  λ w, Ok (next_oid w, World (heap w) (S (next_oid w)) (log w)).

(** Storage for a new [Variant] at [p]; the default member initialiser sets
    [type_idx{null_type}], the union starts without an object. *)
Definition alloc (p : addr) : M unit :=
  λ w, match heap w !! p with
       | Some _ => Err Undefined
       | None => Ok (tt, set_heap (<[p := mkVariant null_type Raw]> (heap w)) w)
       end.

(** The object at [p] ceases to exist. *)
Definition free (p : addr) : M unit :=
  λ w, Ok (tt, set_heap (delete p (heap w)) w).

(** [self->type_idx = k] *)
Definition write_type_idx (self : addr) (k : Z) : M unit :=
  V ← load self;
  store self (mkVariant k (m_storage V));;
  emit (EvSetIdx self k).

(** The bytes of [self->m_storage] are overwritten. *)
Definition write_storage (self : addr) (s : Storage obj) : M unit :=
  V ← load self;
  store self (mkVariant (type_idx V) s).
End memory.
Arguments Variant obj : clear implicits.
Arguments world obj : clear implicits.
Arguments M obj A : clear implicits.

(** A constant used as a [size_t] template argument must not be negative. *)
Definition as_index (z : Z) : result nat :=
  if decide (0 ≤ z)%Z then Ok (Z.to_nat z) else Err IllFormed.

(** [table[k]] for a built-in array or [std::array] and an [int64_t] index. *)
Definition table_at {A} (table : list A) (k : Z) : result A :=
  if decide (0 ≤ k)%Z then
    match table !! Z.to_nat k with
    | Some f => Ok f
    | None => Err Undefined
    end
  else Err Undefined.

(** ** [template <typename... Ts> class Variant] *)

Section Variant_class.
Context {ty obj : Type} `{AltTypes ty obj}.
Variable Ts : list ty.

Definition is_all_trivially_destructible : bool :=
  is_all_trivially_destructible_v Ts.
Definition m_size : nat := length Ts.

(** *** Observers *)

(** [get<idx>()], read as a value *)
Definition get (idx : nat) (V : Variant obj) : result obj :=
  r ← get_storage_value idx Ts (m_storage V);
  Ok r.2.

(** [get<T>()] *)
Definition get_type (T : ty) (V : Variant obj) : result obj :=
  let id := find_idx_by_type T Ts in
  if decide (id = -1)%Z then Err IllFormed   (* static_assert(id != -1) *)
  else idx ← as_index id; get idx V.

(** [holds_alternative<id>()] with [size_t id]: [id == type_idx] compares a
    [size_t] with an [int64_t], so [type_idx] is converted to [size_t]. *)
Definition holds_alternative_idx (id : Z) (V : Variant obj) : result bool :=
  if decide (0 ≤ id ≤ uint64_max)%Z
  then Ok (bool_decide (id = to_size_t (type_idx V)))
  else Err IllFormed.

(** [holds_alternative<T>()] *)
Definition holds_alternative (T : ty) (V : Variant obj) : bool :=
  let target_idx := find_idx_by_type T Ts in
  if decide (target_idx = -1)%Z then false
  else bool_decide (type_idx V = target_idx).

Definition index (V : Variant obj) : Z := type_idx V.

(** *** Destruction *)

Definition destroy_value_func_constructor (T : ty) (ptr : addr) : M obj unit :=
  V ← load ptr;
  id ← lift (as_index (find_idx_by_type T Ts));
  r ← lift (destroy_variant_value id Ts (m_storage V));
  write_storage ptr r.1;;
  emit (EvDestroy ptr r.2).

Definition destroy_func : list (addr → M obj unit) :=
  map destroy_value_func_constructor Ts.

Definition destroy (self : addr) : M obj unit :=
  V ← load self;
  if decide (type_idx V ≠ null_type) then
    f ← lift (table_at destroy_func (type_idx V));
    f self
  else mret tt.

(** *** Construction from another [Variant] *)

Definition construct_from_impl (id : nat) (self other : addr) : M obj unit :=
  type ← lift (find_type_by_idx id Ts);
  O ← load other;
  place ← lift (get_storage_value id Ts (m_storage O));
  o ← new_object;
  write_storage self (storage_emplace id o (copy_construct type place.2));;
  emit (EvConstruct self o).

Definition construct_from_impl_move (id : nat) (self other : addr) : M obj unit :=
  type ← lift (find_type_by_idx id Ts);
  _ ← load self;
  O ← load other;
  src ← lift (get_storage_value id Ts (m_storage O));
  o ← new_object;
  write_storage other (storage_emplace id src.1 (move_construct type src.2).2);;
  write_storage self (storage_emplace id o (move_construct type src.2).1);;
  emit (EvConstruct self o).

Definition make_constructor_table : list (addr → addr → M obj unit) :=
  map construct_from_impl (seq 0 m_size).

Definition make_move_constructor_table : list (addr → addr → M obj unit) :=
  map construct_from_impl_move (seq 0 m_size).

(** [construct_from(const Variant &other)] *)
Definition construct_from (self other : addr) : M obj unit :=
  write_type_idx self null_type;;
  O ← load other;
  if decide (type_idx O = null_type) then mret tt
  else
    f ← lift (table_at make_constructor_table (type_idx O));
    f self other;;
    O ← load other;
    write_type_idx self (type_idx O).

(** [construct_from(Variant &&other)] *)
Definition construct_from_move (self other : addr) : M obj unit :=
  write_type_idx self null_type;;
  O ← load other;
  if decide (type_idx O = null_type) then mret tt
  else
    f ← lift (table_at make_move_constructor_table (type_idx O));
    f self other;;
    O ← load other;
    write_type_idx self (type_idx O).

(** *** Constructors and destructor *)

(** [Variant() {}] *)
Definition Variant_default (self : addr) : M obj unit := alloc self.

(** [variant_utils::construct_variant_value(m_storage, std::forward<T>(val))] *)
Definition construct_value (self : addr) (U : ty) (c : value_category)
    (val : referent obj) : M obj unit :=
  o ← new_object;
  s ← lift (construct_variant_value U c Ts o val);
  write_storage self s;;
  emit (EvConstruct self o).

(** [Variant(T &&val)]; the overload exists only for [T] in [Ts...]. *)
Definition Variant_value (self : addr) (T : ty) (c : value_category)
    (val : referent obj) : M obj unit :=
  if decide (find_idx_by_type T Ts = -1)%Z then fail IllFormed
  else
    alloc self;;
    let idx := find_idx_by_type T Ts in
    construct_value self T c val;;
    write_type_idx self idx.

(** [Variant(const Variant &other)] *)
Definition Variant_copy (self other : addr) : M obj unit :=
  alloc self;;
  construct_from self other.

(** [Variant(Variant &&other)] *)
Definition Variant_move (self other : addr) : M obj unit :=
  alloc self;;
  construct_from_move self other;;
  write_type_idx other null_type.

(** [~Variant()]; afterwards there is no object at [self]. *)
Definition Variant_dtor (self : addr) : M obj unit :=
  (if negb is_all_trivially_destructible then destroy self
   else _ ← load self; mret tt);;
  free self.

(** *** Assignment *)

(** [operator=(T &&val)] *)
Definition assign_value (self : addr) (T : ty) (c : value_category)
    (val : referent obj) : M obj unit :=
  if decide (find_idx_by_type T Ts = -1)%Z then fail IllFormed
  else
    destroy self;;
    write_type_idx self null_type;;
    let idx := find_idx_by_type T Ts in
    construct_value self T c val;;
    write_type_idx self idx.

(** [operator=(const Variant &other)] *)
Definition assign_copy (self other : addr) : M obj unit :=
  if decide (self = other) then mret tt
  else
    destroy self;;
    construct_from self other.

(** [operator=(Variant &&other)] *)
Definition assign_move (self other : addr) : M obj unit :=
  if decide (self = other) then mret tt
  else
    destroy self;;
    construct_from_move self other;;
    write_type_idx other null_type.

(** *** Equality *)

Definition compare_value_func_constructor (I : nat)
    (self_storage other_storage : Storage obj) : result bool :=
  type ← find_type_by_idx I Ts;
  match equal_to type with
  | Some eq =>
      a ← get_storage_value I Ts self_storage;
      b ← get_storage_value I Ts other_storage;
      Ok (eq a.2 b.2)
  | None => Ok false
  end.

Definition compare_func_table : list (Storage obj → Storage obj → result bool) :=
  map compare_value_func_constructor (seq 0 m_size).

(** [operator==(const Variant &other)] *)
Definition eq_variant (V other : Variant obj) : result bool :=
  if forallb trait.is_equality_comparable_v Ts then
    if decide (type_idx V ≠ type_idx other) then Ok false
    else if decide (type_idx V = null_type) then Ok true
    else
      f ← table_at compare_func_table (type_idx V);
      f (m_storage V) (m_storage other)
  else Err IllFormed.

(** [operator==(const T &other)] *)
Definition eq_value (V : Variant obj) (T : ty) (other : obj) : result bool :=
  match equal_to T with
  | None => Err IllFormed
  | Some eq =>
      idx ← as_index (find_idx_by_type T Ts);
      type_in_variant ← find_type_by_idx idx Ts;
      if trait.is_equality_comparable_v type_in_variant then
        if negb (holds_alternative T V) then Ok false
        else held ← get_type T V; Ok (eq held other)
      else Err IllFormed
  end.

(** *** The public mutating interface as a datatype *)

Inductive op :=
| OpDefault (self : addr)
| OpValue (self : addr) (T : ty) (c : value_category) (val : referent obj)
| OpCopy (self other : addr)
| OpMove (self other : addr)
| OpDtor (self : addr)
| OpAssignValue (self : addr) (T : ty) (c : value_category) (val : referent obj)
| OpAssignCopy (self other : addr)
| OpAssignMove (self other : addr).

Definition exec (o : op) : M obj unit :=
  match o with
  | OpDefault self => Variant_default self
  | OpValue self T c val => Variant_value self T c val
  | OpCopy self other => Variant_copy self other
  | OpMove self other => Variant_move self other
  | OpDtor self => Variant_dtor self
  | OpAssignValue self T c val => assign_value self T c val
  | OpAssignCopy self other => assign_copy self other
  | OpAssignMove self other => assign_move self other
  end.

Fixpoint exec_all (os : list op) : M obj unit :=
  match os with
  | [] => mret tt
  | o :: os => exec o;; exec_all os
  end.
End Variant_class.
Arguments op : clear implicits.

(** ** The alternative types of [main.cpp]: [int], [std::string], [Logger] *)

Module demo.
Inductive ty := Int | String | Logger.
Inductive obj := int (z : Z) | str (s : string) | logger (id : Z).

Global Instance ty_eq_dec : EqDecision ty.
Proof. solve_decision. Defined.

Definition int_eq (a b : obj) : bool :=
  match a, b with
  | int x, int y => bool_decide (x = y)
  | _, _ => false
  end.

Definition string_eq (a b : obj) : bool :=
  match a, b with
  | str x, str y => String.eqb x y
  | _, _ => false
  end.

(** [Logger]'s move constructor sets [other.id = -1]; a moved-from
    [std::string] is taken to be empty; [Logger] declares no [operator==]. *)
Global Instance types : AltTypes ty obj := {|
  copy_construct _ v := v;
  move_construct T v :=
    match T with
    | Int => (v, v)
    | String => (v, str "")
    | Logger => (v, logger (-1))
    end;
  equal_to T :=
    match T with
    | Int => Some int_eq
    | String => Some string_eq
    | Logger => None
    end;
  is_trivially_destructible T :=
    match T with
    | Int => true
    | _ => false
    end
|}.

Definition Ts3 : list ty := [Int; String; Logger].
Definition Ts2 : list ty := [Int; Logger].
Definition Ts_comparable : list ty := [Int; String].

Definition empty_world : world obj := World ∅ 0%nat [].

(** The world a program leaves when run from the empty world (the empty
    world itself if the program does not run to its end). *)
Definition world_after (Ts : list ty) (os : list (op ty obj)) : world obj :=
  match exec_all Ts os empty_world with
  | Ok (_, w) => w
  | Err _ => empty_world
  end.

(** [Variant<int, Logger> v(100);] at address 0 *)
Definition w_int : world obj :=
  world_after Ts2 [OpValue 0%nat Int rvalue (outside (int 100))].

(** [Variant<int, std::string, Logger> v3(Logger(3));] at address 3 *)
Definition w_logger : world obj :=
  world_after Ts3 [OpValue 3%nat Logger rvalue (outside (logger 3))].

(** [... v5 = std::move(v3);] at address 5 *)
Definition w_moved : world obj :=
  world_after Ts3 [OpValue 3%nat Logger rvalue (outside (logger 3));
                   OpMove 5%nat 3%nat].

(** afterwards [v3 = 7;], then [v3] and [v5] go out of scope *)
Definition later : list (op ty obj) :=
  [OpAssignValue 3%nat Int rvalue (outside (int 7)); OpDtor 3%nat; OpDtor 5%nat].

Definition w_end : world obj :=
  world_after Ts3
    ([OpValue 3%nat Logger rvalue (outside (logger 3)); OpMove 5%nat 3%nat]
     ++ later).

(** [Variant<int, std::string, Logger> v3(Logger(3)), v1((std::string) "hi");]
    at the addresses 3 and 1, and the two instances *)
Definition w_pair : world obj :=
  world_after Ts3 [OpValue 3%nat Logger rvalue (outside (logger 3));
                   OpValue 1%nat String rvalue (outside (str "hi"))].

Definition v_logger : Variant obj :=
  mkVariant 2 (Next (Next (Value 0%nat (logger 3)))).

Definition v_string : Variant obj :=
  mkVariant 1 (Next (Value 1%nat (str "hi"))).
End demo.

(** ** Vocabulary of the specification *)

Section vocabulary.
Context {ty obj : Type} `{AltTypes ty obj}.
Variable Ts : list ty.

(** The two kinds of state of an instance. *)
Definition Empty (V : Variant obj) : Prop := type_idx V = null_type.

(** [V] holds alternative [T]: the discriminant is [T]'s index and the
    storage holds the live object [o], of value [v], in that slot. *)
Definition Holding (V : Variant obj) (T : ty) (o : oid) (v : obj) : Prop :=
  T ∈ Ts ∧
  type_idx V = find_idx_by_type T Ts ∧
  storage_read (Z.to_nat (type_idx V)) (m_storage V) = Ok (o, v).

Inductive state :=
| StEmpty
| StHolding (T : ty) (o : oid) (v : obj).

Definition in_state (V : Variant obj) (st : state) : Prop :=
  match st with
  | StEmpty => Empty V
  | StHolding T o v => Holding V T o v
  end.

Definition consistent (V : Variant obj) : Prop :=
  ∃ st, in_state V st.

(** The state with the same alternative and value in another object. *)
Definition reborn (o' : oid) (st : state) : state :=
  match st with
  | StEmpty => StEmpty
  | StHolding T _ v => StHolding T o' v
  end.

(** The constructors of the held alternative reproduce the held value. *)
Definition reproducible (st : state) : Prop :=
  match st with
  | StEmpty => True
  | StHolding T _ v => reproduces T v
  end.

Definition all_consistent (h : gmap addr (Variant obj)) : Prop :=
  ∀ p V, h !! p = Some V → consistent V.

(** Every object in memory was created before now. *)
Definition objects_known (w : world obj) : Prop :=
  ∀ p V o, heap w !! p = Some V → storage_object (m_storage V) = Some o →
           (o < next_oid w)%nat.

(** Partial correctness of a run from [w]. *)
Definition wlp {A} (m : M obj A) (Q : A → world obj → Prop) (w : world obj) : Prop :=
  match m w with
  | Ok (a, w') => Q a w'
  | Err _ => True
  end.

(** The log entries a run from [w] to [w'] has added. *)
Definition entries_since (w w' : world obj) : list (event * gmap addr (Variant obj)) :=
  drop (length (log w)) (log w').

(** Properties of one log entry: an event with the memory right after it. *)

(** A discriminant other than the sentinel is written only when the slot it
    names already holds a constructed value. *)
Definition set_after_construct (entry : event * gmap addr (Variant obj)) : Prop :=
  match entry.1 with
  | EvSetIdx p k =>
      k = null_type ∨
      ∃ V o v, entry.2 !! p = Some V ∧ type_idx V = k ∧
               storage_read (Z.to_nat k) (m_storage V) = Ok (o, v)
  | _ => True
  end.

(** A value is constructed while the discriminant is the sentinel. *)
Definition construct_while_empty (entry : event * gmap addr (Variant obj)) : Prop :=
  match entry.1 with
  | EvConstruct p o =>
      ∃ V, entry.2 !! p = Some V ∧ type_idx V = null_type ∧
           storage_object (m_storage V) = Some o
  | _ => True
  end.

(** The discriminant is already the sentinel when a destructor has run. *)
Definition reset_before_destroy (entry : event * gmap addr (Variant obj)) : Prop :=
  match entry.1 with
  | EvDestroy p o => ∃ V, entry.2 !! p = Some V ∧ type_idx V = null_type
  | _ => True
  end.

(** The discriminant still names an alternative when its destructor has
    run: the value is gone, the reset is yet to come. *)
Definition destroy_before_reset (entry : event * gmap addr (Variant obj)) : Prop :=
  match entry.1 with
  | EvDestroy p o =>
      ∃ V, entry.2 !! p = Some V ∧ type_idx V ≠ null_type ∧
           storage_object (m_storage V) = None
  | _ => True
  end.

(** No instance in the snapshot has a discriminant that names a value which
    is not there. *)
Definition no_stale_discriminant (entry : event * gmap addr (Variant obj)) : Prop :=
  all_consistent entry.2.

(** The discipline of the data model as the specification words it. *)
Definition discipline_as_specified (entries : list (event * gmap addr (Variant obj))) : Prop :=
  Forall (λ entry, set_after_construct entry ∧ reset_before_destroy entry ∧
                   no_stale_discriminant entry) entries.

(** The discipline the operations follow. *)
Definition discipline_followed (entries : list (event * gmap addr (Variant obj))) : Prop :=
  Forall (λ entry, set_after_construct entry ∧ construct_while_empty entry ∧
                   destroy_before_reset entry) entries.

(** The destructor of object [o] is not run through the instance at [p]. *)
Definition never_destroyed_by (p : addr) (o : oid)
    (entries : list (event * gmap addr (Variant obj))) : Prop :=
  ∀ h, (EvDestroy p o, h) ∉ entries.
End vocabulary.
Arguments state : clear implicits.

(** ** The state machine of the specification

    Every operation is a sequence of the transitions below.  Destruction
    comes paired with the reset that follows it (or with the end of the
    instance), construction with the write of the index that follows it. *)

Section machine.
Context {ty obj : Type} `{AltTypes ty obj}.
Variable Ts : list ty.
Implicit Types (w : world obj) (V O : Variant obj) (T U : ty) (v val : obj).
Implicit Types (A : addr → Prop).

Definition after_set_idx (p : addr) (k : Z) (V : Variant obj) (w : world obj) : world obj :=
  logged (EvSetIdx p k) (set_heap (<[p := mkVariant k (m_storage V)]> (heap w)) w).

Definition after_destroy (p : addr) (V : Variant obj) (s' : Storage obj) (o : oid)
    (w : world obj) : world obj :=
  logged (EvDestroy p o) (set_heap (<[p := mkVariant (type_idx V) s']> (heap w)) w).

Definition after_construct (p : addr) (V : Variant obj) (new : Storage obj)
    (w : world obj) : world obj :=
  logged (EvConstruct p (next_oid w))
    (World (<[p := mkVariant (type_idx V) new]> (heap w)) (S (next_oid w)) (log w)).

Inductive transition (p : addr) : world obj → world obj → Prop :=
| tr_alloc w :
    heap w !! p = None →
    transition p w (set_heap (<[p := mkVariant null_type Raw]> (heap w)) w)
| tr_free w V :
    heap w !! p = Some V →
    transition p w (set_heap (delete p (heap w)) w)
| tr_set_empty w V :
    heap w !! p = Some V →
    transition p w (after_set_idx p null_type V w)
| tr_destroy_set_empty w V id s' o :
    heap w !! p = Some V → type_idx V ≠ null_type →
    storage_destroy id (m_storage V) = Ok (s', o) →
    transition p w
      (after_set_idx p null_type (mkVariant (type_idx V) s') (after_destroy p V s' o w))
| tr_destroy_free w V id s' o :
    heap w !! p = Some V → type_idx V ≠ null_type →
    storage_destroy id (m_storage V) = Ok (s', o) →
    transition p w
      (set_heap (delete p (heap (after_destroy p V s' o w))) (after_destroy p V s' o w))
| tr_moved_from w V o v v' :
    heap w !! p = Some V →
    storage_read (Z.to_nat (type_idx V)) (m_storage V) = Ok (o, v) →
    transition p w
      (set_heap (<[p := mkVariant (type_idx V)
                          (storage_emplace (Z.to_nat (type_idx V)) o v')]> (heap w)) w)
| tr_construct_set_index w V T v :
    heap w !! p = Some V → type_idx V = null_type → T ∈ Ts →
    transition p w
      (after_set_idx p (find_idx_by_type T Ts)
         (mkVariant null_type
            (storage_emplace (Z.to_nat (find_idx_by_type T Ts)) (next_oid w) v))
         (after_construct p V
            (storage_emplace (Z.to_nat (find_idx_by_type T Ts)) (next_oid w) v) w)).

(** Transitions of the instances in [A]. *)
Definition transition_on (A : addr → Prop) (w w' : world obj) : Prop :=
  ∃ p, A p ∧ transition p w w'.

(** The object [o] rests in the instance at [p] without being its live
    value. *)
Definition dormant (p : addr) (o : oid) (w : world obj) : Prop :=
  (o < next_oid w)%nat ∧
  ∀ V, heap w !! p = Some V → storage_object (m_storage V) = Some o →
       type_idx V = null_type.

(** The three log entries a construction from a live source adds. *)
Definition construction_entries (self : addr) (o : oid) (k : Z)
    (h1 h2 h3 : gmap addr (Variant obj)) : list (event * gmap addr (Variant obj)) :=
  [(EvSetIdx self null_type, h1); (EvConstruct self o, h2); (EvSetIdx self k, h3)].

(** The instances an operation may change. *)
Definition subjects (o : op ty obj) (p : addr) : Prop :=
  match o with
  | OpDefault self | OpValue self _ _ _ | OpCopy self _ | OpDtor self
  | OpAssignValue self _ _ _ | OpAssignCopy self _ => p = self
  | OpMove self other | OpAssignMove self other => p = self ∨ p = other
  end.

Definition steps (A : addr → Prop) : world obj → world obj → Prop :=
  rtc (transition_on A).

(** No operation of the program has [p] as the instance it changes. *)
Definition leaves_alone (os : list (op ty obj)) (p : addr) : Prop :=
  Forall (λ o, ¬ subjects o p) os.

(** What a move leaves behind in its source. *)
Definition moved_out (other : addr) (o : oid) (w w' : world obj) : Prop :=
  (∃ S', heap w' !! other = Some S' ∧ index S' = null_type) ∧
  dormant other o w' ∧
  ∃ new, log w' = log w ++ new ∧ never_destroyed_by other o new.
End machine.

(** ** Vocabulary for whole operations *)

Section operations_vocabulary.
Context {ty obj : Type} `{AltTypes ty obj}.
Variable Ts : list ty.

(** The destructor call [destroy()] makes on an instance in state [st]. *)
Definition destroy_events (self : addr) (st : state ty obj) : list event :=
  match st with
  | StEmpty => []
  | StHolding _ o _ => [EvDestroy self o]
  end.

(** What [construct_from] logs for a source in state [st]: the reset, and for
    a live source the construction of [o'] and the write of the index. *)
Definition construct_from_events (self : addr) (o' : oid) (st : state ty obj)
    : list event :=
  EvSetIdx self null_type ::
  match st with
  | StEmpty => []
  | StHolding T _ _ => [EvConstruct self o'; EvSetIdx self (find_idx_by_type T Ts)]
  end.

(** The number of objects a construction from a source in state [st] creates. *)
Definition objects_created (st : state ty obj) : nat :=
  match st with
  | StEmpty => 0
  | StHolding _ _ _ => 1
  end.

(** An argument that construction and assignment from a value handle: its
    type is in the list, the call of [construct_variant_value] resolves, and
    the reference names an object outside the instance. *)
Definition usable_argument (T : ty) (c : value_category) (val : referent obj) : Prop :=
  T ∈ Ts ∧ ambiguous_overloads T c Ts = false ∧ ∃ v, val = outside v.

(** What the operation needs of memory and of its arguments to be
    well-formed and free of undefined behaviour. *)
Definition ready (o : op ty obj) (w : world obj) : Prop :=
  match o with
  | OpDefault self => heap w !! self = None
  | OpValue self T c val => heap w !! self = None ∧ usable_argument T c val
  | OpCopy self other | OpMove self other =>
      heap w !! self = None ∧ is_Some (heap w !! other)
  | OpDtor self => is_Some (heap w !! self)
  | OpAssignValue self T c val =>
      is_Some (heap w !! self) ∧ usable_argument T c val
  | OpAssignCopy self other | OpAssignMove self other =>
      is_Some (heap w !! self) ∧ is_Some (heap w !! other)
  end.

(** The objects whose destructor the log records, in order. *)
Definition destroyed (l : list (event * gmap addr (Variant obj))) : list oid :=
  omap (λ entry, match entry.1 with
                 | EvDestroy _ o => Some o
                 | _ => None
                 end) l.

(** The objects whose constructor the log records, in order. *)
Definition constructed (l : list (event * gmap addr (Variant obj))) : list oid :=
  omap (λ entry, match entry.1 with
                 | EvConstruct _ o => Some o
                 | _ => None
                 end) l.

(** The instance at [p] holds the object [o] in its storage. *)
Definition owner (w : world obj) (o : oid) (p : addr) : Prop :=
  ∃ V, heap w !! p = Some V ∧ storage_object (m_storage V) = Some o.

(** No object lives in two instances; every object in memory has been
    constructed and not destroyed; only constructed objects have been
    destroyed, and none of them twice. *)
Definition lifetimes_sound (w : world obj) : Prop :=
  (∀ p q o, owner w o p → owner w o q → p = q) ∧
  (∀ p o, owner w o p → o ∈ constructed (log w) ∧ o ∉ destroyed (log w)) ∧
  (∀ o, o ∈ constructed (log w) → (o < next_oid w)%nat) ∧
  (∀ o, o ∈ destroyed (log w) → o ∈ constructed (log w)) ∧
  NoDup (destroyed (log w)).
End operations_vocabulary.

(** * Properties *)

(** ** The index resolver and the storage cell *)

Section utils_facts.
Context {ty obj : Type} `{AltTypes ty obj}.
Implicit Types (Ts : list ty) (U T : ty) (s : Storage obj) (v : obj).

Lemma Position_range id U Ts :
  Position id U Ts = (-1)%Z ∨
  (id ≤ Position id U Ts < id + Z.of_nat (length Ts))%Z.
Proof.
  revert id. induction Ts as [|T Ts IH]; intros id; simpl; [by left|].
  destruct (decide (U = T)); [right; lia|].
  destruct (IH (id + 1)%Z) as [->|?]; [by left | right; lia].
Qed.

Lemma Position_elem id U Ts :
  (0 ≤ id)%Z → Position id U Ts ≠ (-1)%Z ↔ U ∈ Ts.
Proof.
  revert id. induction Ts as [|T Ts IH]; intros id Hid; simpl.
  - split; [done | by intros ?%elem_of_nil].
  - destruct (decide (U = T)) as [->|Hne].
    + split; [intros _; left | lia].
    + rewrite IH by lia. rewrite elem_of_cons.
      split; [by right | by intros [?|?]].
Qed.

Lemma Position_lookup id U Ts :
  (0 ≤ id)%Z → Position id U Ts ≠ (-1)%Z →
  Ts !! Z.to_nat (Position id U Ts - id) = Some U.
Proof.
  revert id. induction Ts as [|T Ts IH]; intros id Hid; simpl; [done|].
  destruct (decide (U = T)) as [->|Hne]; intros Hpos.
  - by rewrite Z.sub_diag.
  - destruct (Position_range (id + 1) U Ts) as [?|?]; [done|].
    replace (Z.to_nat (Position (id + 1) U Ts - id))
      with (S (Z.to_nat (Position (id + 1) U Ts - (id + 1)))) by lia.
    simpl. apply IH; [lia | done].
Qed.

Lemma find_idx_by_type_elem U Ts :
  find_idx_by_type U Ts ≠ (-1)%Z ↔ U ∈ Ts.
Proof. by apply Position_elem. Qed.

Lemma find_idx_by_type_range U Ts :
  U ∈ Ts → (0 ≤ find_idx_by_type U Ts < Z.of_nat (length Ts))%Z.
Proof.
  intros Hin%find_idx_by_type_elem.
  destruct (Position_range 0 U Ts) as [?|?]; [done | unfold find_idx_by_type; lia].
Qed.

Lemma find_idx_by_type_lookup U Ts :
  U ∈ Ts → Ts !! Z.to_nat (find_idx_by_type U Ts) = Some U.
Proof.
  intros Hin%find_idx_by_type_elem.
  pose proof (Position_lookup 0 U Ts) as Hl.
  rewrite Z.sub_0_r in Hl. by apply Hl.
Qed.

Lemma find_type_by_idx_lookup id Ts :
  find_type_by_idx id Ts =
    match Ts !! id with
    | Some T => Ok T
    | None => Err IllFormed
    end.
Proof.
  revert id. induction Ts as [|T Ts IH]; intros [|id]; simpl; auto.
Qed.

(** The resolver and the recursive placement agree on the slot. *)
Lemma construct_variant_value_rec_Position id U c Ts o v :
  (0 ≤ id)%Z → Position id U Ts ≠ (-1)%Z →
  construct_variant_value_rec U c Ts o (outside v) =
    Ok (storage_emplace (Z.to_nat (Position id U Ts - id)) o (forward_construct U c v)).
Proof.
  revert id. induction Ts as [|T Ts IH]; intros id Hid; simpl; [done|].
  destruct (decide (U = T)) as [->|Hne]; intros Hpos.
  - by rewrite Z.sub_diag.
  - destruct (Position_range (id + 1) U Ts) as [?|?]; [done|].
    rewrite (IH (id + 1)%Z) by (lia || done).
    replace (Z.to_nat (Position (id + 1) U Ts - id))
      with (S (Z.to_nat (Position (id + 1) U Ts - (id + 1)))) by lia.
    reflexivity.
Qed.

Lemma construct_variant_value_rec_find_idx U c Ts o v :
  U ∈ Ts →
  construct_variant_value_rec U c Ts o (outside v) =
    Ok (storage_emplace (Z.to_nat (find_idx_by_type U Ts)) o (forward_construct U c v)).
Proof.
  intros Hin%find_idx_by_type_elem.
  pose proof (construct_variant_value_rec_Position 0 U c Ts o v) as Hc.
  rewrite Z.sub_0_r in Hc. by apply Hc.
Qed.

Lemma construct_variant_value_rec_own U c Ts o :
  U ∈ Ts → construct_variant_value_rec U c Ts o own_value = Err Undefined.
Proof.
  induction Ts as [|T Ts IH]; simpl; [by intros ?%elem_of_nil|].
  destruct (decide (U = T)) as [->|Hne]; [done|].
  intros [?|Hin]%elem_of_cons; [done|]. by rewrite IH.
Qed.

Lemma construct_variant_value_rec_elem U c Ts o val s :
  construct_variant_value_rec U c Ts o val = Ok s → U ∈ Ts.
Proof.
  revert s. induction Ts as [|T Ts IH]; simpl; intros s; [done|].
  destruct (decide (U = T)) as [->|Hne]; [intros _; left|].
  destruct (construct_variant_value_rec U c Ts o val) eqn:E; [|done].
  intros _. right. by eapply IH.
Qed.

Lemma ambiguous_overloads_true U c Ts :
  ambiguous_overloads U c Ts = true ↔ Ts = [U] ∧ c = rvalue.
Proof.
  unfold ambiguous_overloads.
  destruct Ts as [|Head [|T Ts]], c; try (split; [done | by intros [[=] ?]]);
    try (split; [done | by intros [_ [=]]]).
  rewrite bool_decide_eq_true. split; [by intros -> | by intros [[= ->] _]].
Qed.

Lemma ambiguous_overloads_longer U c Ts :
  (2 ≤ length Ts)%nat → ambiguous_overloads U c Ts = false.
Proof. destruct Ts as [|Head [|T Ts]], c; simpl; (done || lia). Qed.

Lemma construct_variant_value_ambiguous U c Ts o val :
  ambiguous_overloads U c Ts = true →
  construct_variant_value U c Ts o val = Err IllFormed.
Proof. intros Ha. unfold construct_variant_value. by rewrite Ha. Qed.

Lemma construct_variant_value_find_idx U c Ts o v :
  U ∈ Ts → ambiguous_overloads U c Ts = false →
  construct_variant_value U c Ts o (outside v) =
    Ok (storage_emplace (Z.to_nat (find_idx_by_type U Ts)) o (forward_construct U c v)).
Proof.
  intros Hin Ha. unfold construct_variant_value. rewrite Ha.
  by apply construct_variant_value_rec_find_idx.
Qed.

Lemma construct_variant_value_own U c Ts o :
  U ∈ Ts → ambiguous_overloads U c Ts = false →
  construct_variant_value U c Ts o own_value = Err Undefined.
Proof.
  intros Hin Ha. unfold construct_variant_value. rewrite Ha.
  by apply construct_variant_value_rec_own.
Qed.

Lemma construct_variant_value_inv U c Ts o val s :
  construct_variant_value U c Ts o val = Ok s →
  U ∈ Ts ∧ ambiguous_overloads U c Ts = false ∧
  ∃ v, val = outside v ∧
       s = storage_emplace (Z.to_nat (find_idx_by_type U Ts)) o (forward_construct U c v).
Proof.
  unfold construct_variant_value.
  destruct (ambiguous_overloads U c Ts) eqn:Ha; [done|].
  intros Hc. pose proof (construct_variant_value_rec_elem _ _ _ _ _ _ Hc) as Hin.
  split_and!; [done..|]. destruct val as [v|].
  - exists v. split; [done|].
    rewrite construct_variant_value_rec_find_idx in Hc by done. congruence.
  - by rewrite construct_variant_value_rec_own in Hc.
Qed.

Lemma storage_read_emplace id o v :
  storage_read id (storage_emplace id o v) = Ok (o, v).
Proof. induction id; simpl; auto. Qed.

Lemma storage_object_emplace id o v :
  storage_object (storage_emplace id o v) = Some o.
Proof. induction id; simpl; auto. Qed.

Lemma storage_read_object id s o v :
  storage_read id s = Ok (o, v) → storage_object s = Some o.
Proof.
  revert s. induction id as [|id IH]; intros [| |next]; simpl; try done.
  - congruence.
  - apply IH.
Qed.

Lemma storage_destroy_object id s s' o :
  storage_destroy id s = Ok (s', o) →
  storage_object s = Some o ∧ storage_object s' = None.
Proof.
  revert s s'. induction id as [|id IH]; intros [| |next] s'; simpl; try done.
  - intros [= <- <-]. done.
  - destruct (storage_destroy id next) as [[r o']|] eqn:E; simpl; [|done].
    intros [= <- <-]. simpl. by apply IH.
Qed.

Lemma storage_destroy_read id s o v :
  storage_read id s = Ok (o, v) →
  ∃ s', storage_destroy id s = Ok (s', o).
Proof.
  revert s. induction id as [|id IH]; intros [| |next]; simpl; try done.
  - intros [= <- <-]. eauto.
  - intros [s' ->]%IH. simpl. eauto.
Qed.

Lemma table_at_map {A B} (f : A → B) (l : list A) k g :
  table_at (f <$> l) k = Ok g →
  (0 ≤ k)%Z ∧ ∃ a, l !! Z.to_nat k = Some a ∧ g = f a.
Proof.
  unfold table_at. destruct (decide (0 ≤ k)%Z); [|done].
  rewrite list_lookup_fmap.
  destruct (l !! Z.to_nat k) eqn:E; simpl; [|done].
  intros [= <-]. eauto.
Qed.

Lemma table_at_map_Some {A B} (f : A → B) (l : list A) k a :
  (0 ≤ k)%Z → l !! Z.to_nat k = Some a → table_at (f <$> l) k = Ok (f a).
Proof.
  intros Hk Hl. unfold table_at. rewrite decide_True by done.
  by rewrite list_lookup_fmap, Hl.
Qed.
End utils_facts.

(** ** Running monadic code *)

Section running.
Context {obj : Type}.
Implicit Types (w : world obj) (V : Variant obj).

Lemma bind_Ok {A B} (m : M obj A) (k : A → M obj B) w a w1 :
  m w = Ok (a, w1) → (m ≫= k) w = k a w1.
Proof. intros Hm. unfold mbind, M_mbind, bind. by rewrite Hm. Qed.

Lemma bind_Err {A B} (m : M obj A) (k : A → M obj B) w e :
  m w = Err e → (m ≫= k) w = Err e.
Proof. intros Hm. unfold mbind, M_mbind, bind. by rewrite Hm. Qed.

Lemma bind_inv {A B} (m : M obj A) (k : A → M obj B) w b w' :
  (m ≫= k) w = Ok (b, w') → ∃ a w1, m w = Ok (a, w1) ∧ k a w1 = Ok (b, w').
Proof.
  unfold mbind, M_mbind, bind. destruct (m w) as [[a w1]|]; [eauto | done].
Qed.

Lemma load_Ok p w V : heap w !! p = Some V → load p w = Ok (V, w).
Proof. intros Hp. unfold load. by rewrite Hp. Qed.

Lemma lift_Ok {A} (r : result A) (a : A) w : r = Ok a → lift r w = Ok (a, w).
Proof. by intros ->. Qed.

Lemma write_type_idx_Ok self k w V :
  heap w !! self = Some V →
  write_type_idx self k w =
    Ok (tt, logged (EvSetIdx self k)
              (set_heap (<[self := mkVariant k (m_storage V)]> (heap w)) w)).
Proof.
  intros Hp. unfold write_type_idx.
  rewrite (bind_Ok _ _ _ _ _ (load_Ok _ _ _ Hp)). reflexivity.
Qed.

Lemma write_storage_Ok self s w V :
  heap w !! self = Some V →
  write_storage self s w =
    Ok (tt, set_heap (<[self := mkVariant (type_idx V) s]> (heap w)) w).
Proof.
  intros Hp. unfold write_storage.
  rewrite (bind_Ok _ _ _ _ _ (load_Ok _ _ _ Hp)). reflexivity.
Qed.

(** *** Rules for [wlp] *)

Lemma wlp_elim {A} (m : M obj A) Q w a w' :
  wlp m Q w → m w = Ok (a, w') → Q a w'.
Proof. unfold wlp. intros Hw Hm. by rewrite Hm in Hw. Qed.

Lemma wlp_mono {A} (m : M obj A) (Q Q' : A → world obj → Prop) w :
  wlp m Q w → (∀ a w', Q a w' → Q' a w') → wlp m Q' w.
Proof. unfold wlp. destruct (m w) as [[a w']|]; auto. Qed.

Lemma wlp_ret {A} (a : A) (Q : A → world obj → Prop) w :
  Q a w → wlp (mret a) Q w.
Proof. done. Qed.

Lemma wlp_bind {A B} (m : M obj A) (k : A → M obj B) (Q : B → world obj → Prop) w :
  wlp m (λ a w1, wlp (k a) Q w1) w → wlp (m ≫= k) Q w.
Proof.
  unfold wlp, mbind, M_mbind, bind. by destruct (m w) as [[a w1]|].
Qed.

Lemma wlp_fail {A} e (Q : A → world obj → Prop) w : wlp (fail e) Q w.
Proof. done. Qed.

Lemma wlp_lift {A} (r : result A) (Q : A → world obj → Prop) w :
  (∀ a, r = Ok a → Q a w) → wlp (lift r) Q w.
Proof. unfold wlp, lift. destruct r; auto. Qed.

Lemma wlp_load p (Q : Variant obj → world obj → Prop) w :
  (∀ V, heap w !! p = Some V → Q V w) → wlp (load p) Q w.
Proof. unfold wlp, load. destruct (heap w !! p); auto. Qed.

Lemma wlp_store p V (Q : unit → world obj → Prop) w :
  Q tt (set_heap (<[p := V]> (heap w)) w) → wlp (store p V) Q w.
Proof. done. Qed.

Lemma wlp_emit e (Q : unit → world obj → Prop) w :
  Q tt (logged e w) → wlp (emit e) Q w.
Proof. done. Qed.

Lemma wlp_new_object (Q : oid → world obj → Prop) w :
  Q (next_oid w) (World (heap w) (S (next_oid w)) (log w)) → wlp new_object Q w.
Proof. done. Qed.

Lemma wlp_alloc p (Q : unit → world obj → Prop) w :
  (heap w !! p = None →
   Q tt (set_heap (<[p := mkVariant null_type Raw]> (heap w)) w)) →
  wlp (alloc p) Q w.
Proof. unfold wlp, alloc. destruct (heap w !! p); auto. Qed.

Lemma wlp_free p (Q : unit → world obj → Prop) w :
  Q tt (set_heap (delete p (heap w)) w) → wlp (free p) Q w.
Proof. done. Qed.

Lemma wlp_write_type_idx self k (Q : unit → world obj → Prop) w :
  (∀ V, heap w !! self = Some V →
        Q tt (logged (EvSetIdx self k)
                (set_heap (<[self := mkVariant k (m_storage V)]> (heap w)) w))) →
  wlp (write_type_idx self k) Q w.
Proof.
  intros HQ. apply wlp_bind, wlp_load. intros V HV.
  apply wlp_bind, wlp_store, wlp_emit. by apply HQ.
Qed.

Lemma wlp_write_storage self s (Q : unit → world obj → Prop) w :
  (∀ V, heap w !! self = Some V →
        Q tt (set_heap (<[self := mkVariant (type_idx V) s]> (heap w)) w)) →
  wlp (write_storage self s) Q w.
Proof.
  intros HQ. apply wlp_bind, wlp_load. intros V HV.
  apply wlp_store. by apply HQ.
Qed.
End running.

(** ** What the building blocks do on consistent instances *)

Section blocks.
Context {ty obj : Type} `{AltTypes ty obj}.
Variable Ts : list ty.
Implicit Types (w : world obj) (V O : Variant obj) (T : ty) (v : obj).

Lemma Holding_not_null V T o v : Holding Ts V T o v → type_idx V ≠ null_type.
Proof.
  intros (Hin & Hidx & _). pose proof (find_idx_by_type_range _ _ Hin).
  unfold null_type. lia.
Qed.

Lemma Holding_range V T o v :
  Holding Ts V T o v → (0 ≤ type_idx V)%Z ∧ (Z.to_nat (type_idx V) < length Ts)%nat.
Proof.
  intros (Hin & Hidx & _). pose proof (find_idx_by_type_range _ _ Hin). lia.
Qed.

Lemma Holding_type V T o v :
  Holding Ts V T o v → Ts !! Z.to_nat (type_idx V) = Some T.
Proof. intros (Hin & -> & _). by apply find_idx_by_type_lookup. Qed.

Lemma Holding_get V T o v :
  Holding Ts V T o v → get Ts (Z.to_nat (type_idx V)) V = Ok v.
Proof.
  intros Hh. destruct (Holding_range _ _ _ _ Hh) as [_ Hlt].
  destruct Hh as (_ & _ & Hread).
  unfold get, get_storage_value. rewrite decide_True by done.
  by rewrite Hread.
Qed.

Lemma as_index_find_idx T :
  T ∈ Ts → as_index (find_idx_by_type T Ts) = Ok (Z.to_nat (find_idx_by_type T Ts)).
Proof.
  intros Hin. pose proof (find_idx_by_type_range _ _ Hin).
  unfold as_index. rewrite decide_True by lia. done.
Qed.

Lemma destroy_empty_Ok self w V :
  heap w !! self = Some V → Empty V → destroy Ts self w = Ok (tt, w).
Proof.
  intros Hp He. unfold destroy.
  rewrite (bind_Ok _ _ _ _ _ (load_Ok _ _ _ Hp)).
  rewrite decide_False; [done | by intros []].
Qed.

Lemma destroy_live_Ok self w V T o v :
  heap w !! self = Some V → Holding Ts V T o v →
  ∃ s',
    storage_object s' = None ∧
    destroy Ts self w =
      Ok (tt, logged (EvDestroy self o)
                (set_heap (<[self := mkVariant (type_idx V) s']> (heap w)) w)).
Proof.
  intros Hp Hh.
  pose proof (Holding_not_null _ _ _ _ Hh) as Hnn.
  destruct (Holding_range _ _ _ _ Hh) as [H0 Hlt].
  pose proof (Holding_type _ _ _ _ Hh) as HT.
  destruct Hh as (Hin & Hidx & Hread).
  destruct (storage_destroy_read _ _ _ _ Hread) as [s' Hd].
  exists s'. split; [by eapply storage_destroy_object|].
  unfold destroy.
  rewrite (bind_Ok _ _ _ _ _ (load_Ok _ _ _ Hp)).
  rewrite decide_True by done.
  erewrite bind_Ok; last first.
  { apply lift_Ok. unfold destroy_func. by apply table_at_map_Some. }
  unfold destroy_value_func_constructor.
  rewrite (bind_Ok _ _ _ _ _ (load_Ok _ _ _ Hp)).
  erewrite bind_Ok; last by apply lift_Ok, as_index_find_idx.
  erewrite bind_Ok; last first.
  { apply lift_Ok. unfold destroy_variant_value.
    rewrite <- Hidx. rewrite decide_True by done. exact Hd. }
  erewrite bind_Ok; last by apply write_storage_Ok.
  reflexivity.
Qed.

Lemma construct_value_Ok self w V T c val :
  heap w !! self = Some V → T ∈ Ts → ambiguous_overloads T c Ts = false →
  construct_value Ts self T c (outside val) w =
    Ok (tt, logged (EvConstruct self (next_oid w))
              (World (<[self := mkVariant (type_idx V)
                                  (storage_emplace (Z.to_nat (find_idx_by_type T Ts))
                                     (next_oid w) (forward_construct T c val))]> (heap w))
                     (S (next_oid w)) (log w))).
Proof.
  intros Hp Hin Ha. unfold construct_value.
  erewrite bind_Ok; last reflexivity.
  erewrite bind_Ok; last by apply lift_Ok, construct_variant_value_find_idx.
  erewrite bind_Ok; last by apply write_storage_Ok.
  reflexivity.
Qed.

Lemma construct_value_ambiguous self w T c (val : referent obj) :
  ambiguous_overloads T c Ts = true →
  construct_value Ts self T c val w = Err IllFormed.
Proof.
  intros Ha. unfold construct_value.
  erewrite bind_Ok; last reflexivity.
  apply bind_Err. unfold lift.
  by rewrite construct_variant_value_ambiguous.
Qed.

Lemma construct_value_own self w T c :
  T ∈ Ts → ambiguous_overloads T c Ts = false →
  construct_value Ts self T c own_value w = Err Undefined.
Proof.
  intros Hin Ha. unfold construct_value.
  erewrite bind_Ok; last reflexivity.
  apply bind_Err. unfold lift.
  by rewrite construct_variant_value_own.
Qed.

Lemma seq_table_at {B} (f : nat → B) n k :
  (0 ≤ k)%Z → (Z.to_nat k < n)%nat →
  table_at (f <$> seq 0 n) k = Ok (f (Z.to_nat k)).
Proof.
  intros Hk Hlt. apply table_at_map_Some; [done|].
  by rewrite lookup_seq_lt.
Qed.

Lemma find_type_by_idx_Holding V T o v :
  Holding Ts V T o v → find_type_by_idx (Z.to_nat (type_idx V)) Ts = Ok T.
Proof.
  intros Hh. rewrite find_type_by_idx_lookup.
  by rewrite (Holding_type _ _ _ _ Hh).
Qed.

Lemma get_storage_value_Holding V T o v :
  Holding Ts V T o v →
  get_storage_value (Z.to_nat (type_idx V)) Ts (m_storage V) = Ok (o, v).
Proof.
  intros Hh. destruct (Holding_range _ _ _ _ Hh) as [_ Hlt].
  destruct Hh as (_ & _ & Hread).
  unfold get_storage_value. by rewrite decide_True.
Qed.

(** [construct_from(const Variant &)] from an empty and from a live source *)
Lemma construct_from_empty_Ok self other w V O :
  heap w !! self = Some V → heap w !! other = Some O → self ≠ other → Empty O →
  construct_from Ts self other w =
    Ok (tt, logged (EvSetIdx self null_type)
              (set_heap (<[self := mkVariant null_type (m_storage V)]> (heap w)) w)).
Proof.
  intros Hs Ho Hne He. unfold construct_from.
  erewrite bind_Ok; last by apply write_type_idx_Ok.
  erewrite bind_Ok; last first.
  { apply load_Ok. cbn. by rewrite lookup_insert_ne. }
  by rewrite decide_True.
Qed.

Lemma construct_from_live_Ok self other w V O T o v :
  heap w !! self = Some V → heap w !! other = Some O → self ≠ other →
  Holding Ts O T o v →
  ∃ w',
    construct_from Ts self other w = Ok (tt, w') ∧
    heap w' = <[self := mkVariant (type_idx O)
                          (storage_emplace (Z.to_nat (type_idx O)) (next_oid w)
                             (copy_construct T v))]> (heap w) ∧
    next_oid w' = S (next_oid w) ∧
    (log w').*1 = (log w).*1 ++
      [EvSetIdx self null_type; EvConstruct self (next_oid w);
       EvSetIdx self (type_idx O)].
Proof.
  intros Hs Ho Hne Hh.
  pose proof (Holding_not_null _ _ _ _ Hh) as Hnn.
  destruct (Holding_range _ _ _ _ Hh) as [H0 Hlt].
  eexists. split.
  - unfold construct_from.
    erewrite bind_Ok; last by apply write_type_idx_Ok.
    erewrite bind_Ok; last first.
    { apply load_Ok. cbn. by rewrite lookup_insert_ne. }
    rewrite decide_False by done.
    erewrite bind_Ok; last first.
    { apply lift_Ok. unfold make_constructor_table. by apply seq_table_at. }
    erewrite bind_Ok; last first.
    { unfold construct_from_impl.
      erewrite bind_Ok; last by eapply lift_Ok, find_type_by_idx_Holding.
      erewrite bind_Ok; last first.
      { apply load_Ok. cbn. by rewrite lookup_insert_ne. }
      erewrite bind_Ok; last by eapply lift_Ok, get_storage_value_Holding.
      erewrite bind_Ok; last reflexivity.
      erewrite bind_Ok; last first.
      { apply write_storage_Ok. cbn. apply lookup_insert_eq. }
      reflexivity. }
    erewrite bind_Ok; last first.
    { apply load_Ok. cbn. rewrite !lookup_insert_ne by done. exact Ho. }
    apply write_type_idx_Ok. cbn. apply lookup_insert_eq.
  - cbn. rewrite !insert_insert_eq. split_and!; [done..|].
    rewrite !fmap_app, <- !app_assoc. reflexivity.
Qed.

(** [construct_from(Variant &&)] from an empty and from a live source *)
Lemma construct_from_move_empty_Ok self other w V O :
  heap w !! self = Some V → heap w !! other = Some O → self ≠ other → Empty O →
  construct_from_move Ts self other w =
    Ok (tt, logged (EvSetIdx self null_type)
              (set_heap (<[self := mkVariant null_type (m_storage V)]> (heap w)) w)).
Proof.
  intros Hs Ho Hne He. unfold construct_from_move.
  erewrite bind_Ok; last by apply write_type_idx_Ok.
  erewrite bind_Ok; last first.
  { apply load_Ok. cbn. by rewrite lookup_insert_ne. }
  by rewrite decide_True.
Qed.

Lemma construct_from_move_live_Ok self other w V O T o v :
  heap w !! self = Some V → heap w !! other = Some O → self ≠ other →
  Holding Ts O T o v →
  ∃ w',
    construct_from_move Ts self other w = Ok (tt, w') ∧
    heap w' =
      <[self := mkVariant (type_idx O)
                  (storage_emplace (Z.to_nat (type_idx O)) (next_oid w)
                     (move_construct T v).1)]>
        (<[other := mkVariant (type_idx O)
                      (storage_emplace (Z.to_nat (type_idx O)) o
                         (move_construct T v).2)]> (heap w)) ∧
    next_oid w' = S (next_oid w) ∧
    (log w').*1 = (log w).*1 ++
      [EvSetIdx self null_type; EvConstruct self (next_oid w);
       EvSetIdx self (type_idx O)].
Proof.
  intros Hs Ho Hne Hh.
  pose proof (Holding_not_null _ _ _ _ Hh) as Hnn.
  destruct (Holding_range _ _ _ _ Hh) as [H0 Hlt].
  eexists. split.
  - unfold construct_from_move.
    erewrite bind_Ok; last by apply write_type_idx_Ok.
    erewrite bind_Ok; last first.
    { apply load_Ok. cbn. by rewrite lookup_insert_ne. }
    rewrite decide_False by done.
    erewrite bind_Ok; last first.
    { apply lift_Ok. unfold make_move_constructor_table. by apply seq_table_at. }
    erewrite bind_Ok; last first.
    { unfold construct_from_impl_move.
      erewrite bind_Ok; last by eapply lift_Ok, find_type_by_idx_Holding.
      erewrite bind_Ok; last first.
      { apply load_Ok. cbn. apply lookup_insert_eq. }
      erewrite bind_Ok; last first.
      { apply load_Ok. cbn. by rewrite lookup_insert_ne. }
      erewrite bind_Ok; last by eapply lift_Ok, get_storage_value_Holding.
      erewrite bind_Ok; last reflexivity.
      erewrite bind_Ok; last first.
      { apply write_storage_Ok. cbn. by rewrite lookup_insert_ne. }
      erewrite bind_Ok; last first.
      { apply write_storage_Ok. cbn.
        rewrite lookup_insert_ne by done. apply lookup_insert_eq. }
      reflexivity. }
    erewrite bind_Ok; last first.
    { apply load_Ok. cbn. rewrite lookup_insert_ne by done. apply lookup_insert_eq. }
    apply write_type_idx_Ok. cbn. apply lookup_insert_eq.
  - cbn. split_and!; [|done|].
    + rewrite insert_insert_eq.
      rewrite (insert_insert_ne _ other self) by done.
      by rewrite insert_insert_eq.
    + rewrite !fmap_app, <- !app_assoc. reflexivity.
Qed.
End blocks.

(** ** Construction, assignment, copy and move *)

Section lifecycle.
Context {ty obj : Type} `{AltTypes ty obj}.
Variable Ts : list ty.
Implicit Types (w : world obj) (V S : Variant obj) (T : ty) (v val : obj).

Lemma forward_construct_reproduces T c val :
  reproduces T val → forward_construct T c val = val.
Proof. intros [Hc Hm]. by destruct c. Qed.

Lemma Holding_emplace T o v :
  T ∈ Ts →
  Holding Ts (mkVariant (find_idx_by_type T Ts)
                (storage_emplace (Z.to_nat (find_idx_by_type T Ts)) o v)) T o v.
Proof.
  intros Hin. split_and!; [done..|]. cbn. apply storage_read_emplace.
Qed.

(** C2 (what the code does): for a one-type list and a non-const rvalue,
    [Variant<T> v(T(...))], the call of [construct_variant_value] in
    [Variant(T&&)] is ambiguous and the constructor is ill-formed, whatever
    the value.  For every other argument of an alternative type [T] (a list
    of two or more types, or an lvalue) whose constructors reproduce the
    value [val], the constructor succeeds, and the new instance has
    [index() == index_of(T)] and [get<index_of(T)>() == val] (also through
    [get<T>()]). *)
Theorem value_constructor_index_and_get self T c val w :
  T ∈ Ts → reproduces T val → heap w !! self = None →
  if ambiguous_overloads T c Ts
  then Ts = [T] ∧ c = rvalue ∧
       Variant_value Ts self T c (outside val) w = Err IllFormed
  else ∃ w' V,
    Variant_value Ts self T c (outside val) w = Ok (tt, w') ∧
    heap w' !! self = Some V ∧
    index V = find_idx_by_type T Ts ∧
    get Ts (Z.to_nat (find_idx_by_type T Ts)) V = Ok val ∧
    get_type Ts T V = Ok val.
Proof.
  intros Hin Hrep Hfresh.
  pose proof (proj2 (find_idx_by_type_elem T Ts) Hin) as Hfound.
  pose proof (Holding_emplace T (next_oid w) val Hin) as Hh.
  assert (alloc self w =
            Ok (tt, set_heap (<[self := mkVariant null_type Raw]> (heap w)) w))
    as Halloc by (unfold alloc; by rewrite Hfresh).
  destruct (ambiguous_overloads T c Ts) eqn:Ha.
  - destruct (proj1 (ambiguous_overloads_true T c Ts) Ha) as [HTs Hc].
    split_and!; [done..|].
    unfold Variant_value. rewrite decide_False by done.
    rewrite (bind_Ok _ _ _ _ _ Halloc).
    by apply bind_Err, construct_value_ambiguous.
  - eexists _, _. split_and!.
    + unfold Variant_value. rewrite decide_False by done.
      rewrite (bind_Ok _ _ _ _ _ Halloc).
      erewrite bind_Ok; last first.
      { apply construct_value_Ok; [|done..]. cbn. apply lookup_insert_eq. }
      apply write_type_idx_Ok. cbn. apply lookup_insert_eq.
    + cbn. rewrite !insert_insert_eq. apply lookup_insert_eq.
    + reflexivity.
    + cbn [m_storage]. rewrite forward_construct_reproduces by done.
      apply (Holding_get Ts _ _ _ _ Hh).
    + cbn [m_storage]. rewrite forward_construct_reproduces by done.
      unfold get_type. rewrite decide_False by done.
      rewrite as_index_find_idx by done. cbn.
      apply (Holding_get Ts _ _ _ _ Hh).
Qed.

Lemma in_state_reborn_emplace S st o' :
  in_state Ts S st →
  in_state Ts
    (mkVariant (type_idx S)
       (match st with
        | StEmpty => m_storage S
        | StHolding _ _ v => storage_emplace (Z.to_nat (type_idx S)) o' v
        end))
    (reborn o' st).
Proof.
  destruct st as [|T o v]; cbn; [done|].
  intros (Hin & Hidx & _). rewrite Hidx. by apply Holding_emplace.
Qed.

(** C3: move-constructing from a source in state [st] succeeds; the target
    is in the same state (same discriminant, same alternative, same value,
    in an object of its own) and the source is left empty.  From an empty
    source the target is empty. *)
Theorem move_constructor_transfers self other w S st :
  heap w !! self = None → heap w !! other = Some S →
  in_state Ts S st → reproducible st →
  ∃ w' V S',
    Variant_move Ts self other w = Ok (tt, w') ∧
    heap w' !! self = Some V ∧
    index V = index S ∧
    in_state Ts V (reborn (next_oid w) st) ∧
    (∀ T o v, st = StHolding T o v → get Ts (Z.to_nat (index S)) V = Ok v) ∧
    heap w' !! other = Some S' ∧
    index S' = null_type.
Proof.
  intros Hfresh Ho Hst Hrep.
  assert (self ≠ other) as Hne by congruence.
  assert (alloc self w =
            Ok (tt, set_heap (<[self := mkVariant null_type Raw]> (heap w)) w))
    as Halloc by (unfold alloc; by rewrite Hfresh).
  unfold Variant_move. rewrite (bind_Ok _ _ _ _ _ Halloc).
  destruct st as [|T o v]; cbn in Hst, Hrep.
  - erewrite bind_Ok; last first.
    { eapply construct_from_move_empty_Ok; cbn; [apply lookup_insert_eq| |done..].
      by rewrite lookup_insert_ne. }
    erewrite write_type_idx_Ok; last first.
    { cbn. rewrite !lookup_insert_ne by done. exact Ho. }
    eexists _, _, _. split_and!; [reflexivity| | | | | |].
    + cbn. rewrite lookup_insert_ne by done. apply lookup_insert_eq.
    + cbn. by rewrite Hst.
    + done.
    + done.
    + cbn. apply lookup_insert_eq.
    + done.
  - edestruct (construct_from_move_live_Ok Ts self other
                 (set_heap (<[self := mkVariant null_type Raw]> (heap w)) w))
      as (w1 & Hrun & Hheap & Hnext & Hlog); [| |done..|].
    { cbn. apply lookup_insert_eq. }
    { cbn. by rewrite lookup_insert_ne. }
    rewrite (bind_Ok _ _ _ _ _ Hrun).
    erewrite write_type_idx_Ok; last first.
    { rewrite Hheap. rewrite lookup_insert_ne by done. apply lookup_insert_eq. }
    destruct Hrep as [_ Hmove].
    pose proof (in_state_reborn_emplace S (StHolding T o v) (next_oid w) Hst) as Hnew.
    eexists _, _, _. split_and!; [reflexivity| | | | | |].
    + cbn. rewrite lookup_insert_ne by done. rewrite Hheap. apply lookup_insert_eq.
    + done.
    + cbn [m_storage]. rewrite Hmove. exact Hnew.
    + intros T' o' v' [= <- <- <-]. cbn [m_storage]. rewrite Hmove.
      apply (Holding_get Ts _ _ _ _ Hnew).
    + cbn. apply lookup_insert_eq.
    + done.
Qed.

(** C4 (what the code does): [operator=(T&&)] runs [destroy()] before it
    reads its argument.  On an instance that holds a live value [o0] and for
    an alternative type [T]:
    - when the argument names the instance's own value, [v = v.get<T>()],
      the new object is constructed from an object that is no longer there:
      undefined behaviour;
    - for a one-type list and a non-const rvalue the call of
      [construct_variant_value] is ambiguous: the assignment is ill-formed;
    - for every other argument, a value [val] outside the instance (which
      [T]'s constructors reproduce), the assignment succeeds; the events it
      adds are, in this order, the destruction of [o0] (once), the reset of
      the discriminant, the construction of the new object and the write of
      [index_of(T)]; afterwards the instance holds [T] with value [val]
      ([T] equal to the held alternative included). *)
Theorem assign_value_destroys_once_then_constructs self T c w V T0 o0 v0 :
  heap w !! self = Some V → Holding Ts V T0 o0 v0 → T ∈ Ts →
  (ambiguous_overloads T c Ts = false →
   assign_value Ts self T c own_value w = Err Undefined) ∧
  (ambiguous_overloads T c Ts = true →
   ∀ val : referent obj, assign_value Ts self T c val w = Err IllFormed) ∧
  (ambiguous_overloads T c Ts = false →
   ∀ val : obj, reproduces T val →
   ∃ w' V',
     assign_value Ts self T c (outside val) w = Ok (tt, w') ∧
     (log w').*1 = (log w).*1 ++
       [EvDestroy self o0; EvSetIdx self null_type;
        EvConstruct self (next_oid w);
        EvSetIdx self (find_idx_by_type T Ts)] ∧
     heap w' !! self = Some V' ∧
     index V' = find_idx_by_type T Ts ∧
     Holding Ts V' T (next_oid w) val ∧
     get_type Ts T V' = Ok val).
Proof.
  intros Hself Hlive Hin.
  pose proof (proj2 (find_idx_by_type_elem T Ts) Hin) as Hfound.
  destruct (destroy_live_Ok Ts self w V T0 o0 v0 Hself Hlive) as (s' & _ & Hd).
  assert (∀ (val : referent obj) e,
            (∀ w1, construct_value Ts self T c val w1 = Err e) →
            assign_value Ts self T c val w = Err e) as Hfails.
  { intros val e Hc. unfold assign_value. rewrite decide_False by done.
    rewrite (bind_Ok _ _ _ _ _ Hd).
    erewrite bind_Ok; last first.
    { apply write_type_idx_Ok. cbn. apply lookup_insert_eq. }
    apply bind_Err, Hc. }
  split_and!.
  - intros Ha. apply Hfails. intros w1. by apply construct_value_own.
  - intros Ha val. apply Hfails. intros w1. by apply construct_value_ambiguous.
  - intros Ha val Hrep.
    pose proof (Holding_emplace T (next_oid w) val Hin) as Hh.
    eexists _, _. split_and!.
    + unfold assign_value. rewrite decide_False by done.
      rewrite (bind_Ok _ _ _ _ _ Hd).
      erewrite bind_Ok; last first.
      { apply write_type_idx_Ok. cbn. apply lookup_insert_eq. }
      erewrite bind_Ok; last first.
      { apply construct_value_Ok; [|done..]. cbn. apply lookup_insert_eq. }
      apply write_type_idx_Ok. cbn. apply lookup_insert_eq.
    + cbn. rewrite !fmap_app, <- !app_assoc. reflexivity.
    + cbn. apply lookup_insert_eq.
    + reflexivity.
    + cbn [m_storage]. by rewrite forward_construct_reproduces.
    + cbn [m_storage]. rewrite forward_construct_reproduces by done.
      unfold get_type. rewrite decide_False by done.
      rewrite as_index_find_idx by done. cbn.
      apply (Holding_get Ts _ _ _ _ Hh).
Qed.

(** C7: self copy-assignment and self move-assignment return at the
    identity guard: memory, the objects and the log are exactly as before,
    so the discriminant and the held value are unchanged and no destructor
    has run. *)
Theorem self_assignment_is_noop self w :
  assign_copy Ts self self w = Ok (tt, w) ∧
  assign_move Ts self self w = Ok (tt, w).
Proof.
  unfold assign_copy, assign_move.
  destruct (decide (self = self)); [done | congruence].
Qed.
End lifecycle.

(** ** Every run of the building blocks, whatever the state of memory *)

Section partial.
Context {ty obj : Type} `{AltTypes ty obj}.
Variable Ts : list ty.
Implicit Types (w : world obj) (V O : Variant obj) (T U : ty) (v val : obj).
Implicit Types (Q : unit → world obj → Prop).

Local Ltac wsimpl :=
  unfold logged, set_heap; cbn [heap next_oid log type_idx m_storage fst snd].
Local Tactic Notation "wsimpl" "in" hyp(H) :=
  unfold logged, set_heap in H; cbn [heap next_oid log type_idx m_storage fst snd] in H.

Lemma wlp_destroy self Q w :
  (∀ V, heap w !! self = Some V → type_idx V = null_type → Q tt w) →
  (∀ V id s' o,
      heap w !! self = Some V → type_idx V ≠ null_type →
      storage_destroy id (m_storage V) = Ok (s', o) →
      Q tt (logged (EvDestroy self o)
              (set_heap (<[self := mkVariant (type_idx V) s']> (heap w)) w))) →
  wlp (destroy Ts self) Q w.
Proof.
  intros Hempty Hlive. unfold destroy.
  apply wlp_bind, wlp_load. intros V HV.
  destruct (decide (type_idx V ≠ null_type)) as [Hnn|Hn].
  - apply wlp_bind, wlp_lift. intros f (_ & T & _ & ->)%table_at_map.
    unfold destroy_value_func_constructor.
    apply wlp_bind, wlp_load. intros V' HV'.
    assert (V' = V) as -> by congruence.
    apply wlp_bind, wlp_lift. intros id _.
    apply wlp_bind, wlp_lift. intros [s' o] Hd.
    unfold destroy_variant_value in Hd.
    destruct (decide (id < length Ts)%nat); [|done].
    apply wlp_bind, wlp_write_storage. intros V' HV''.
    assert (V' = V) as -> by congruence.
    apply wlp_emit. by eapply Hlive.
  - apply wlp_ret. apply (Hempty V HV).
    by destruct (decide (type_idx V = null_type)).
Qed.

Lemma wlp_construct_value self U c (val : referent obj) Q w :
  (∀ V v, heap w !! self = Some V → U ∈ Ts → val = outside v →
          Q tt (logged (EvConstruct self (next_oid w))
                  (World (<[self := mkVariant (type_idx V)
                                      (storage_emplace (Z.to_nat (find_idx_by_type U Ts))
                                         (next_oid w) (forward_construct U c v))]> (heap w))
                         (S (next_oid w)) (log w)))) →
  wlp (construct_value Ts self U c val) Q w.
Proof.
  intros HQ. unfold construct_value.
  apply wlp_bind, wlp_new_object.
  apply wlp_bind, wlp_lift.
  intros s (Hin & _ & v & Hval & ->)%construct_variant_value_inv.
  apply wlp_bind, wlp_write_storage. wsimpl. intros V HV.
  apply wlp_emit. by apply HQ.
Qed.

Lemma wlp_construct_from self other Q w :
  (∀ V, heap w !! self = Some V →
        (∀ O, heap w !! other = Some O → other ≠ self → type_idx O = null_type) →
        Q tt (logged (EvSetIdx self null_type)
                (set_heap (<[self := mkVariant null_type (m_storage V)]> (heap w)) w))) →
  (∀ V O T o v,
      heap w !! self = Some V → heap w !! other = Some O → self ≠ other →
      (0 ≤ type_idx O)%Z → Ts !! Z.to_nat (type_idx O) = Some T →
      storage_read (Z.to_nat (type_idx O)) (m_storage O) = Ok (o, v) →
      let new := storage_emplace (Z.to_nat (type_idx O)) (next_oid w)
                   (copy_construct T v) in
      Q tt (World (<[self := mkVariant (type_idx O) new]> (heap w))
              (S (next_oid w))
              (log w ++ construction_entries self (next_oid w) (type_idx O)
                 (<[self := mkVariant null_type (m_storage V)]> (heap w))
                 (<[self := mkVariant null_type new]> (heap w))
                 (<[self := mkVariant (type_idx O) new]> (heap w))))) →
  wlp (construct_from Ts self other) Q w.
Proof.
  intros Hempty Hlive. unfold construct_from.
  apply wlp_bind, wlp_write_type_idx. intros V HV.
  apply wlp_bind, wlp_load. wsimpl. intros O HO.
  destruct (decide (type_idx O = null_type)) as [Hn|Hnn].
  { apply wlp_ret. apply Hempty; [done|].
    intros O' HO' Hne. rewrite lookup_insert_ne in HO by done. congruence. }
  assert (self ≠ other) as Hne.
  { intros <-. rewrite lookup_insert_eq in HO. by injection HO as <-. }
  rewrite lookup_insert_ne in HO by done.
  apply wlp_bind, wlp_lift.
  intros f (H0 & id & Hid & ->)%table_at_map.
  apply lookup_seq in Hid as [Hid Hlt]. cbn in Hid. subst id.
  unfold construct_from_impl.
  apply wlp_bind, wlp_bind, wlp_lift. intros T HT.
  rewrite find_type_by_idx_lookup in HT.
  destruct (Ts !! Z.to_nat (type_idx O)) as [T'|] eqn:HTs; [|done].
  injection HT as ->.
  apply wlp_bind, wlp_load. wsimpl. rewrite lookup_insert_ne by done.
  intros O' HO'. assert (O' = O) as -> by congruence.
  apply wlp_bind, wlp_lift. intros [o v] Hget.
  unfold get_storage_value in Hget.
  destruct (decide (Z.to_nat (type_idx O) < length Ts)%nat); [|done].
  apply wlp_bind, wlp_new_object.
  apply wlp_bind, wlp_write_storage. wsimpl. rewrite lookup_insert_eq.
  intros ? [= <-]. wsimpl.
  apply wlp_emit. wsimpl.
  apply wlp_bind, wlp_load. wsimpl. rewrite !lookup_insert_ne by done.
  intros O' HO''. assert (O' = O) as -> by congruence.
  apply wlp_write_type_idx. wsimpl. rewrite lookup_insert_eq.
  intros ? [= <-]. wsimpl.
  specialize (Hlive V O T o v HV HO Hne H0 HTs Hget). wsimpl in Hlive.
  rewrite !insert_insert_eq. rewrite <- !app_assoc. exact Hlive.
Qed.

Lemma wlp_construct_from_move self other Q w :
  (∀ V, heap w !! self = Some V →
        (∀ O, heap w !! other = Some O → other ≠ self → type_idx O = null_type) →
        Q tt (logged (EvSetIdx self null_type)
                (set_heap (<[self := mkVariant null_type (m_storage V)]> (heap w)) w))) →
  (∀ V O T o v,
      heap w !! self = Some V → heap w !! other = Some O → self ≠ other →
      (0 ≤ type_idx O)%Z → Ts !! Z.to_nat (type_idx O) = Some T →
      storage_read (Z.to_nat (type_idx O)) (m_storage O) = Ok (o, v) →
      let new := storage_emplace (Z.to_nat (type_idx O)) (next_oid w)
                   (move_construct T v).1 in
      let left := mkVariant (type_idx O)
                    (storage_emplace (Z.to_nat (type_idx O)) o
                       (move_construct T v).2) in
      Q tt (World (<[self := mkVariant (type_idx O) new]> (<[other := left]> (heap w)))
              (S (next_oid w))
              (log w ++ construction_entries self (next_oid w) (type_idx O)
                 (<[self := mkVariant null_type (m_storage V)]> (heap w))
                 (<[self := mkVariant null_type new]> (<[other := left]> (heap w)))
                 (<[self := mkVariant (type_idx O) new]> (<[other := left]> (heap w)))))) →
  wlp (construct_from_move Ts self other) Q w.
Proof.
  intros Hempty Hlive. unfold construct_from_move.
  apply wlp_bind, wlp_write_type_idx. intros V HV.
  apply wlp_bind, wlp_load. wsimpl. intros O HO.
  destruct (decide (type_idx O = null_type)) as [Hn|Hnn].
  { apply wlp_ret. apply Hempty; [done|].
    intros O' HO' Hne. rewrite lookup_insert_ne in HO by done. congruence. }
  assert (self ≠ other) as Hne.
  { intros <-. rewrite lookup_insert_eq in HO. by injection HO as <-. }
  rewrite lookup_insert_ne in HO by done.
  apply wlp_bind, wlp_lift.
  intros f (H0 & id & Hid & ->)%table_at_map.
  apply lookup_seq in Hid as [Hid Hlt]. cbn in Hid. subst id.
  unfold construct_from_impl_move.
  apply wlp_bind, wlp_bind, wlp_lift. intros T HT.
  rewrite find_type_by_idx_lookup in HT.
  destruct (Ts !! Z.to_nat (type_idx O)) as [T'|] eqn:HTs; [|done].
  injection HT as ->.
  apply wlp_bind, wlp_load. intros _ _.
  apply wlp_bind, wlp_load. wsimpl. rewrite lookup_insert_ne by done.
  intros O' HO'. assert (O' = O) as -> by congruence.
  apply wlp_bind, wlp_lift. intros [o v] Hget.
  unfold get_storage_value in Hget.
  destruct (decide (Z.to_nat (type_idx O) < length Ts)%nat); [|done].
  apply wlp_bind, wlp_new_object.
  apply wlp_bind, wlp_write_storage. wsimpl. rewrite lookup_insert_ne by done.
  intros O' HO''. assert (O' = O) as -> by congruence. wsimpl.
  apply wlp_bind, wlp_write_storage. wsimpl.
  rewrite lookup_insert_ne by done. rewrite lookup_insert_eq.
  intros ? [= <-]. wsimpl.
  apply wlp_emit. wsimpl.
  apply wlp_bind, wlp_load. wsimpl.
  rewrite lookup_insert_ne by done. rewrite lookup_insert_eq.
  intros ? [= <-]. wsimpl.
  apply wlp_write_type_idx. wsimpl. rewrite lookup_insert_eq.
  intros ? [= <-]. wsimpl.
  specialize (Hlive V O T o v HV HO Hne H0 HTs Hget). wsimpl in Hlive.
  rewrite !insert_insert_eq.
  rewrite (insert_insert_ne _ other self) by done.
  rewrite !insert_insert_eq. rewrite <- !app_assoc. exact Hlive.
Qed.
End partial.

(** ** What a single transition preserves *)

Section machine_facts.
Context {ty obj : Type} `{AltTypes ty obj}.
Variable Ts : list ty.
Implicit Types (w : world obj) (V O : Variant obj) (T U : ty) (v val : obj).
Implicit Types (h : gmap addr (Variant obj)).

Local Ltac wsimpl :=
  unfold after_set_idx, after_destroy, after_construct, logged, set_heap;
  cbn [heap next_oid log type_idx m_storage fst snd].

Lemma all_consistent_insert h p V :
  all_consistent Ts h → consistent Ts V → all_consistent Ts (<[p := V]> h).
Proof.
  intros Hall HV q V'. rewrite lookup_insert.
  destruct (decide (p = q)); [by intros [= <-] | apply Hall].
Qed.

Lemma all_consistent_delete h p :
  all_consistent Ts h → all_consistent Ts (delete p h).
Proof.
  intros Hall q V'. rewrite lookup_delete.
  destruct (decide (p = q)); [done | apply Hall].
Qed.

Lemma consistent_Empty V : Empty V → consistent Ts V.
Proof. intros He. by exists StEmpty. Qed.

Lemma consistent_Holding V T o v : Holding Ts V T o v → consistent Ts V.
Proof. intros Hh. by exists (StHolding T o v). Qed.

Lemma transition_consistent p w w' :
  transition Ts p w w' → all_consistent Ts (heap w) → all_consistent Ts (heap w').
Proof.
  intros Htr Hall.
  destruct Htr as [w Hp|w V Hp|w V Hp|w V id s' o Hp Hnn Hd|w V id s' o Hp Hnn Hd
                  |w V o v v' Hp Hread|w V T v Hp Hn Hin]; wsimpl.
  - by apply all_consistent_insert, consistent_Empty.
  - by apply all_consistent_delete.
  - by apply all_consistent_insert, consistent_Empty.
  - rewrite insert_insert_eq. by apply all_consistent_insert, consistent_Empty.
  - rewrite delete_insert_eq. by apply all_consistent_delete.
  - apply all_consistent_insert; [done|].
    destruct (Hall p V Hp) as [[|T o0 v0] Hst]; cbn in Hst.
    + by apply consistent_Empty.
    + destruct Hst as (Hin & Hidx & _).
      apply (consistent_Holding _ T o v'). split_and!; [done..|].
      cbn. apply storage_read_emplace.
  - rewrite insert_insert_eq. apply all_consistent_insert; [done|].
    apply (consistent_Holding _ T (next_oid w) v).
    split_and!; [done..|]. cbn. apply storage_read_emplace.
Qed.

Lemma objects_known_insert w p V n l :
  objects_known w → (next_oid w ≤ n)%nat →
  (∀ o, storage_object (m_storage V) = Some o → (o < n)%nat) →
  objects_known (World (<[p := V]> (heap w)) n l).
Proof.
  intros Hk Hn HV q V' o. cbn. rewrite lookup_insert.
  destruct (decide (p = q)).
  - intros [= <-]. apply HV.
  - intros Hq Ho. specialize (Hk q V' o Hq Ho). lia.
Qed.

Lemma transition_known p w w' :
  transition Ts p w w' → objects_known w →
  objects_known w' ∧ (next_oid w ≤ next_oid w')%nat.
Proof.
  intros Htr Hk.
  destruct Htr as [w Hp|w V Hp|w V Hp|w V id s' o Hp Hnn Hd|w V id s' o Hp Hnn Hd
                  |w V o v v' Hp Hread|w V T v Hp Hn Hin]; wsimpl.
  - split; [|done]. by apply objects_known_insert.
  - split; [|done]. intros q V' o. cbn. rewrite lookup_delete.
    destruct (decide (p = q)); [done | apply Hk].
  - split; [|done]. apply objects_known_insert; [done..|]. cbn.
    intros o. by apply (Hk p V).
  - split; [|done]. rewrite insert_insert_eq.
    apply objects_known_insert; [done..|]. cbn.
    apply storage_destroy_object in Hd as [_ ->]. done.
  - split; [|done]. rewrite delete_insert_eq.
    intros q V' o'. cbn. rewrite lookup_delete.
    destruct (decide (p = q)); [done | apply Hk].
  - split; [|done]. apply objects_known_insert; [done..|]. cbn.
    rewrite storage_object_emplace. intros ? [= <-].
    apply (Hk p V o Hp). by eapply storage_read_object.
  - split; [|lia]. rewrite insert_insert_eq.
    apply objects_known_insert; [done | lia |]. cbn.
    rewrite storage_object_emplace. intros ? [= <-]. lia.
Qed.

Lemma entries_since_app w w' new :
  log w' = log w ++ new → entries_since w w' = new.
Proof. intros Hl. unfold entries_since. rewrite Hl. apply drop_app_length. Qed.

Lemma transition_log p w w' :
  transition Ts p w w' →
  ∃ new, log w' = log w ++ new ∧ discipline_followed new ∧
         ∀ q o, dormant q o w → never_destroyed_by q o new.
Proof.
  intros Htr.
  destruct Htr as [w Hp|w V Hp|w V Hp|w V id s' o Hp Hnn Hd|w V id s' o Hp Hnn Hd
                  |w V o v v' Hp Hread|w V T v Hp Hn Hin]; wsimpl.
  - exists []. rewrite app_nil_r. split_and!; [done | apply List.Forall_nil |].
    intros q o _ h' ?%elem_of_nil. done.
  - exists []. rewrite app_nil_r. split_and!; [done | apply List.Forall_nil |].
    intros q o _ h' ?%elem_of_nil. done.
  - eexists [_]. split_and!; [reflexivity | |].
    + apply List.Forall_cons; [|apply List.Forall_nil].
      split_and!; cbn; [by left | done..].
    + intros q o _ h' Hel%list_elem_of_singleton. done.
  - eexists [_; _]. split_and!; [by rewrite <- app_assoc | |].
    + apply List.Forall_cons; [|apply List.Forall_cons; [|apply List.Forall_nil]].
      * split_and!; cbn; [done..|].
        eexists. rewrite lookup_insert_eq. split_and!; [done..|].
        cbn. by apply storage_destroy_object in Hd as [_ ->].
      * split_and!; cbn; [by left | done..].
    + intros q o' [_ Hdor] h' Hel.
      apply elem_of_cons in Hel as [[= -> -> _]|Hel%list_elem_of_singleton]; [|done].
      apply storage_destroy_object in Hd as [Hobj _].
      by specialize (Hdor V Hp Hobj).
  - eexists [_]. split_and!; [reflexivity | |].
    + apply List.Forall_cons; [|apply List.Forall_nil].
      split_and!; cbn; [done..|].
      eexists. rewrite lookup_insert_eq. split_and!; [done..|].
      cbn. by apply storage_destroy_object in Hd as [_ ->].
    + intros q o' [_ Hdor] h' Hel%list_elem_of_singleton.
      injection Hel as -> -> _.
      apply storage_destroy_object in Hd as [Hobj _].
      by specialize (Hdor V Hp Hobj).
  - exists []. rewrite app_nil_r. split_and!; [done | apply List.Forall_nil |].
    intros q o' _ h' ?%elem_of_nil. done.
  - eexists [_; _]. split_and!; [by rewrite <- app_assoc | |].
    + apply List.Forall_cons; [|apply List.Forall_cons; [|apply List.Forall_nil]].
      * split_and!; cbn; [done| |done].
        eexists. rewrite lookup_insert_eq. split_and!; [done..|].
        cbn. apply storage_object_emplace.
      * split_and!; cbn; [|done..].
        right. eexists _, _, _. rewrite insert_insert_eq, lookup_insert_eq.
        split_and!; [done..|]. cbn. apply storage_read_emplace.
    + intros q o' _ h' Hel.
      apply elem_of_cons in Hel as [[=]|Hel%list_elem_of_singleton]; done.
Qed.

Lemma transition_dormant p w w' q o :
  transition Ts p w w' → dormant q o w → dormant q o w'.
Proof.
  intros Htr [Hlt Hdor].
  destruct Htr as [w Hp|w V Hp|w V Hp|w V id s' o' Hp Hnn Hd|w V id s' o' Hp Hnn Hd
                  |w V o' v v' Hp Hread|w V T v Hp Hn Hin]; wsimpl;
    (split; [cbn; lia|]); cbn; intros V'.
  - rewrite lookup_insert. destruct (decide (p = q)); [by intros [= <-] | apply Hdor].
  - rewrite lookup_delete. destruct (decide (p = q)); [done | apply Hdor].
  - rewrite lookup_insert. destruct (decide (p = q)); [by intros [= <-] | apply Hdor].
  - rewrite insert_insert_eq, lookup_insert.
    destruct (decide (p = q)); [by intros [= <-] | apply Hdor].
  - rewrite delete_insert_eq, lookup_delete.
    destruct (decide (p = q)); [done | apply Hdor].
  - rewrite lookup_insert. destruct (decide (p = q)) as [->|]; [|apply Hdor].
    intros [= <-]. cbn. rewrite storage_object_emplace. intros [= ->].
    apply (Hdor V Hp). by eapply storage_read_object.
  - rewrite insert_insert_eq, lookup_insert.
    destruct (decide (p = q)) as [->|]; [|apply Hdor].
    intros [= <-]. cbn. rewrite storage_object_emplace. intros [= Heq]. lia.
Qed.

Lemma transition_frame p w w' q :
  transition Ts p w w' → q ≠ p → heap w' !! q = heap w !! q.
Proof.
  intros Htr Hne.
  destruct Htr; wsimpl;
    rewrite ?lookup_delete_ne, ?lookup_insert_ne by done; done.
Qed.
End machine_facts.

(** ** What runs of the state machine preserve *)

Section runs.
Context {ty obj : Type} `{AltTypes ty obj}.
Variable Ts : list ty.
Implicit Types (w : world obj) (V O : Variant obj) (T U : ty) (v val : obj).
Implicit Types (A : addr → Prop).

Lemma steps_mono A B w w' :
  (∀ p, A p → B p) → steps Ts A w w' → steps Ts B w w'.
Proof.
  intros HAB. apply rtc_subrel. intros w1 w2 (p & Hp & Htr).
  exists p. auto.
Qed.

Lemma steps_consistent A w w' :
  steps Ts A w w' → all_consistent Ts (heap w) → all_consistent Ts (heap w').
Proof.
  induction 1 as [|w w1 w2 (p & _ & Htr) _ IH]; [done|].
  intros Hall. by eapply IH, transition_consistent.
Qed.

Lemma steps_known A w w' :
  steps Ts A w w' → objects_known w → objects_known w'.
Proof.
  induction 1 as [|w w1 w2 (p & _ & Htr) _ IH]; [done|].
  intros Hk. by eapply IH, transition_known.
Qed.

Lemma steps_frame A w w' q :
  steps Ts A w w' → ¬ A q → heap w' !! q = heap w !! q.
Proof.
  induction 1 as [|w w1 w2 (p & Hp & Htr) _ IH]; [done|].
  intros Hq. rewrite IH by done.
  eapply transition_frame; [done|]. by intros ->.
Qed.

Lemma never_destroyed_by_app q o (l1 l2 : list (event * gmap addr (Variant obj))) :
  never_destroyed_by q o l1 → never_destroyed_by q o l2 →
  never_destroyed_by q o (l1 ++ l2).
Proof.
  intros H1 H2 h' [?|?]%elem_of_app; [by eapply H1 | by eapply H2].
Qed.

Lemma steps_log A w w' :
  steps Ts A w w' →
  ∃ new, log w' = log w ++ new ∧ discipline_followed new ∧
         ∀ q o, dormant q o w → never_destroyed_by q o new.
Proof.
  induction 1 as [w|w w1 w2 (p & _ & Htr) _ (new2 & Hl2 & Hd2 & Hn2)].
  - exists []. rewrite app_nil_r. split_and!; [done | apply List.Forall_nil |].
    intros q o _ h' ?%elem_of_nil. done.
  - destruct (transition_log Ts p w w1 Htr) as (new1 & Hl1 & Hd1 & Hn1).
    exists (new1 ++ new2). split_and!.
    + by rewrite Hl2, Hl1, app_assoc.
    + by apply Forall_app.
    + intros q o Hdor. apply never_destroyed_by_app; [by apply Hn1|].
      apply Hn2. by eapply transition_dormant.
Qed.

Lemma steps_entries_since A w w' :
  steps Ts A w w' →
  log w' = log w ++ entries_since w w' ∧
  discipline_followed (entries_since w w') ∧
  ∀ q o, dormant q o w → never_destroyed_by q o (entries_since w w').
Proof.
  intros (new & Hl & Hd & Hn)%steps_log.
  by rewrite (entries_since_app _ _ _ Hl).
Qed.
End runs.

(** ** Every operation is a run of the state machine *)

Section decomposition.
Context {ty obj : Type} `{AltTypes ty obj}.
Variable Ts : list ty.
Implicit Types (w : world obj) (V O : Variant obj) (T U : ty) (v val : obj).
Implicit Types (Q : unit → world obj → Prop) (A : addr → Prop).

Local Ltac wsimpl :=
  unfold after_set_idx, after_destroy, after_construct, construction_entries,
    logged, set_heap;
  cbn [heap next_oid log type_idx m_storage fst snd].

Lemma consistent_live_type O T :
  consistent Ts O → (0 ≤ type_idx O)%Z → Ts !! Z.to_nat (type_idx O) = Some T →
  T ∈ Ts ∧ find_idx_by_type T Ts = type_idx O.
Proof.
  intros [[|T' o v] Hst] H0 HT; cbn in Hst.
  - unfold Empty, null_type in Hst. lia.
  - pose proof (Holding_type Ts _ _ _ _ Hst) as HT'.
    assert (T' = T) as -> by congruence.
    by destruct Hst as (? & -> & _).
Qed.

Lemma wlp_construct_set_index self T c (val : referent obj) Q w :
  (∀ V, heap w !! self = Some V → type_idx V = null_type) →
  (∀ w', transition Ts self w w' → Q tt w') →
  wlp (construct_value Ts self T c val ≫= λ _,
       write_type_idx self (find_idx_by_type T Ts)) Q w.
Proof.
  intros Hnull HQ.
  apply wlp_bind, wlp_construct_value. intros V v HV Hin _.
  apply wlp_write_type_idx. wsimpl. rewrite lookup_insert_eq.
  intros ? [= <-]. apply HQ.
  exact (tr_construct_set_index Ts self w V T (forward_construct T c v)
           HV (Hnull V HV) Hin).
Qed.

Lemma wlp_construct_from_steps self other Q w :
  (∀ O, heap w !! other = Some O → other ≠ self → consistent Ts O) →
  (∀ V w', heap w !! self = Some V →
           steps Ts (λ p, p = self) (after_set_idx self null_type V w) w' → Q tt w') →
  wlp (construct_from Ts self other) Q w.
Proof.
  intros Hcons HQ. apply wlp_construct_from.
  - intros V HV _. apply (HQ V); [done | apply rtc_refl].
  - intros V O T o v HV HO Hne H0 HT Hread new.
    destruct (consistent_live_type O T) as [Hin Hidx]; [eauto..|].
    apply (HQ V); [done|]. apply rtc_once. exists self. split; [done|].
    pose proof (tr_construct_set_index Ts self (after_set_idx self null_type V w)
                  (mkVariant null_type (m_storage V)) T (copy_construct T v)) as Htr.
    rewrite Hidx in Htr. revert Htr. wsimpl.
    rewrite !insert_insert_eq, lookup_insert_eq, <- !app_assoc.
    intros Htr. by apply Htr.
Qed.

Lemma wlp_construct_from_move_steps self other Q w :
  (∀ O, heap w !! other = Some O → other ≠ self → consistent Ts O) →
  (∀ V w', heap w !! self = Some V →
           steps Ts (λ p, p = self ∨ p = other)
             (after_set_idx self null_type V w) w' → Q tt w') →
  wlp (construct_from_move Ts self other) Q w.
Proof.
  intros Hcons HQ. apply wlp_construct_from_move.
  - intros V HV _. apply (HQ V); [done | apply rtc_refl].
  - intros V O T o v HV HO Hne H0 HT Hread new left.
    destruct (consistent_live_type O T) as [Hin Hidx]; [eauto..|].
    apply (HQ V); [done|].
    eapply rtc_l.
    { exists other. split; [by right|].
      apply (tr_moved_from Ts other _ O o v (move_construct T v).2); [|done].
      wsimpl. by rewrite lookup_insert_ne. }
    apply rtc_once. exists self. split; [by left|].
    pose proof (tr_construct_set_index Ts self
                  (set_heap (<[other := left]> (heap (after_set_idx self null_type V w)))
                     (after_set_idx self null_type V w))
                  (mkVariant null_type (m_storage V)) T (move_construct T v).1) as Htr.
    rewrite Hidx in Htr.
    assert (<[other := left]> (heap (after_set_idx self null_type V w)) !! self
            = Some (mkVariant null_type (m_storage V))) as Hlook.
    { wsimpl. rewrite lookup_insert_ne by done. apply lookup_insert_eq. }
    specialize (Htr Hlook eq_refl Hin). revert Htr. wsimpl.
    rewrite !(insert_insert_ne _ other self) by done.
    rewrite !insert_insert_eq, <- !app_assoc.
    intros Htr. exact Htr.
Qed.

Local Ltac step_on p Htr :=
  eapply rtc_l; [exists p; split; [cbn; auto | exact Htr] |].

Lemma wlp_destroy_frame self Q w :
  (∀ w1, (∀ q, q ≠ self → heap w1 !! q = heap w !! q) →
         (∀ V1, heap w1 !! self = Some V1 →
                transition Ts self w (after_set_idx self null_type V1 w1)) →
         Q tt w1) →
  wlp (destroy Ts self) Q w.
Proof.
  intros HQ. apply wlp_destroy.
  - intros V HV Hn. apply HQ; [done|].
    intros V' HV'. assert (V' = V) as -> by congruence. by apply tr_set_empty.
  - intros V id s' o HV Hnn Hd. apply HQ.
    + intros q Hq. wsimpl. by rewrite lookup_insert_ne.
    + intros V'. wsimpl. rewrite lookup_insert_eq. intros [= <-].
      exact (tr_destroy_set_empty Ts self w V id s' o HV Hnn Hd).
Qed.

Theorem exec_steps o w w' :
  all_consistent Ts (heap w) → exec Ts o w = Ok (tt, w') →
  steps Ts (subjects o) w w'.
Proof.
  intros Hall Hrun.
  apply (wlp_elim _ (λ _ w', steps Ts (subjects o) w w') _ _ _) in Hrun; [done|].
  clear Hrun w'.
  destruct o as [self|self T c val|self other|self other|self
                |self T c val|self other|self other]; cbn [exec subjects].
  - (* Variant() *)
    apply wlp_alloc. intros Hfresh. apply rtc_once. exists self.
    split; [done | by apply tr_alloc].
  - (* Variant(T&&) *)
    unfold Variant_value. destruct (decide _); [apply wlp_fail|].
    apply wlp_bind, wlp_alloc. intros Hfresh.
    apply wlp_construct_set_index.
    + intros V. wsimpl. rewrite lookup_insert_eq. by intros [= <-].
    + intros w' Htr. step_on self (tr_alloc Ts self w Hfresh).
      apply rtc_once. by exists self.
  - (* Variant(const Variant&) *)
    unfold Variant_copy. apply wlp_bind, wlp_alloc. intros Hfresh.
    apply wlp_construct_from_steps.
    + intros O. wsimpl. intros HO Hne. rewrite lookup_insert_ne in HO by done.
      by eapply Hall.
    + intros V w' HV Hsteps. cbn in HV. rewrite lookup_insert_eq in HV.
      injection HV as <-.
      step_on self (tr_alloc Ts self w Hfresh).
      eapply rtc_l; [|exact Hsteps].
      exists self. split; [done|]. apply tr_set_empty. cbn.
      apply lookup_insert_eq.
  - (* Variant(Variant&&) *)
    unfold Variant_move. apply wlp_bind, wlp_alloc. intros Hfresh.
    apply wlp_bind, wlp_construct_from_move_steps.
    + intros O. wsimpl. intros HO Hne. rewrite lookup_insert_ne in HO by done.
      by eapply Hall.
    + intros V w' HV Hsteps. cbn in HV. rewrite lookup_insert_eq in HV.
      injection HV as <-.
      apply wlp_write_type_idx. intros O HO.
      step_on self (tr_alloc Ts self w Hfresh).
      eapply rtc_l.
      { exists self. split; [by left|]. apply tr_set_empty. cbn.
        apply lookup_insert_eq. }
      eapply rtc_trans; [exact Hsteps|].
      apply rtc_once. exists other. split; [by right|]. by apply tr_set_empty.
  - (* ~Variant() *)
    unfold Variant_dtor. apply wlp_bind.
    destruct (is_all_trivially_destructible Ts); cbn [negb].
    + apply wlp_bind, wlp_load. intros V HV. apply wlp_ret, wlp_free.
      apply rtc_once. exists self. split; [done | by eapply tr_free].
    + apply wlp_destroy.
      * intros V HV _. apply wlp_free.
        apply rtc_once. exists self. split; [done | by eapply tr_free].
      * intros V id s' o HV Hnn Hd. apply wlp_free.
        apply rtc_once. exists self. split; [done|].
        exact (tr_destroy_free Ts self w V id s' o HV Hnn Hd).
  - (* operator=(T&&) *)
    unfold assign_value. destruct (decide _); [apply wlp_fail|].
    apply wlp_bind, wlp_destroy_frame. intros w1 _ Htr.
    apply wlp_bind, wlp_write_type_idx. intros V1 HV1.
    apply wlp_construct_set_index.
    + intros V. wsimpl. rewrite lookup_insert_eq. by intros [= <-].
    + intros w' Htr'. step_on self (Htr V1 HV1).
      apply rtc_once. by exists self.
  - (* operator=(const Variant&) *)
    unfold assign_copy. destruct (decide _); [apply wlp_ret, rtc_refl|].
    apply wlp_bind, wlp_destroy_frame. intros w1 Hframe Htr.
    apply wlp_construct_from_steps.
    + intros O HO Hne. rewrite Hframe in HO by done. by eapply Hall.
    + intros V1 w' HV1 Hsteps. step_on self (Htr V1 HV1). exact Hsteps.
  - (* operator=(Variant&&) *)
    unfold assign_move. destruct (decide _); [apply wlp_ret, rtc_refl|].
    apply wlp_bind, wlp_destroy_frame. intros w1 Hframe Htr.
    apply wlp_bind, wlp_construct_from_move_steps.
    + intros O HO Hne. rewrite Hframe in HO by done. by eapply Hall.
    + intros V1 w' HV1 Hsteps.
      apply wlp_write_type_idx. intros O HO.
      step_on self (Htr V1 HV1).
      eapply rtc_trans; [exact Hsteps|].
      apply rtc_once. exists other. split; [by right|]. by apply tr_set_empty.
Qed.
End decomposition.

(** ** Consequences for whole programs *)

Section programs.
Context {ty obj : Type} `{AltTypes ty obj}.
Variable Ts : list ty.
Implicit Types (w : world obj) (V O S : Variant obj) (T U : ty) (v val : obj).
Implicit Types (os : list (op ty obj)).

Lemma exec_all_steps os w w' :
  all_consistent Ts (heap w) → exec_all Ts os w = Ok (tt, w') →
  steps Ts (λ p, Exists (λ o, subjects o p) os) w w'.
Proof.
  revert w. induction os as [|o os IH]; intros w Hall; cbn [exec_all].
  - intros [= <-]. apply rtc_refl.
  - intros ([] & w1 & Ho & Hos)%bind_inv.
    pose proof (exec_steps Ts o w w1 Hall Ho) as Hs1.
    eapply rtc_trans.
    + eapply steps_mono; [|exact Hs1]. intros p Hp. by left.
    + eapply steps_mono; [|apply IH; [by eapply steps_consistent | done]].
      intros p Hp. by right.
Qed.

Lemma exec_all_consistent os w w' :
  all_consistent Ts (heap w) → exec_all Ts os w = Ok (tt, w') →
  all_consistent Ts (heap w').
Proof.
  intros Hall Hrun. eapply steps_consistent; [|done]. by eapply exec_all_steps.
Qed.

Lemma exec_all_known os w w' :
  all_consistent Ts (heap w) → objects_known w →
  exec_all Ts os w = Ok (tt, w') → objects_known w'.
Proof.
  intros Hall Hk Hrun. eapply steps_known; [|done]. by eapply exec_all_steps.
Qed.

Lemma exec_all_frame os w w' p :
  all_consistent Ts (heap w) → leaves_alone os p →
  exec_all Ts os w = Ok (tt, w') → heap w' !! p = heap w !! p.
Proof.
  intros Hall Hla Hrun. eapply steps_frame; [by eapply exec_all_steps|].
  intros Hex. apply Exists_exists in Hex as (o & Ho & Hp).
  unfold leaves_alone in Hla. rewrite Forall_forall in Hla.
  by eapply Hla.
Qed.

(** Whatever program has run from the empty world, every instance is
    consistent and every object in memory is known. *)
Lemma reachable_invariants os w :
  exec_all Ts os (World ∅ 0%nat []) = Ok (tt, w) →
  all_consistent Ts (heap w) ∧ objects_known w.
Proof.
  intros Hrun.
  assert (all_consistent Ts (heap (World (∅ : gmap addr (Variant obj)) 0%nat []))) as Hall.
  { intros p V Hp. cbn [heap] in Hp. by rewrite lookup_empty in Hp. }
  assert (objects_known (World (∅ : gmap addr (Variant obj)) 0%nat [])) as Hk.
  { intros p V o Hp. cbn [heap] in Hp. by rewrite lookup_empty in Hp. }
  split; [by eapply exec_all_consistent | by eapply exec_all_known].
Qed.

(** C1 (as the code has it): every operation on consistent instances is a
    run of the state machine, in which a destruction is immediately followed
    by the reset of the discriminant (or by the end of the instance) and a
    construction by the write of the index.  Each log entry the operation
    adds satisfies: a discriminant other than the sentinel is written only
    once the slot it names holds the constructed value; a value is
    constructed while the discriminant is the sentinel; and when a
    destructor has run, the discriminant still names the destroyed
    alternative: the reset comes after the destructor, not before it. *)
Theorem discriminant_discipline o w w' :
  all_consistent Ts (heap w) → exec Ts o w = Ok (tt, w') →
  steps Ts (subjects o) w w' ∧
  log w' = log w ++ entries_since w w' ∧
  discipline_followed (entries_since w w').
Proof.
  intros Hall Hrun.
  pose proof (exec_steps Ts o w w' Hall Hrun) as Hsteps.
  destruct (steps_entries_since Ts _ _ _ Hsteps) as (Hl & Hd & _).
  done.
Qed.
End programs.

(** ** Copies and moved-from instances *)

Section copy_and_move.
Context {ty obj : Type} `{AltTypes ty obj}.
Variable Ts : list ty.
Implicit Types (w : world obj) (V O S : Variant obj) (T U : ty) (v val : obj).
Implicit Types (os : list (op ty obj)).

(** C5: copy-constructing from a source in state [st] succeeds; the target
    is in the same state (same discriminant, same alternative, equal value)
    in an object of its own, which is not the source's object; the source
    is unchanged, and stays so whatever is later done to the copy or to any
    other instance.  From an empty source the target is empty. *)
Theorem copy_constructor_copies self other w S st :
  all_consistent Ts (heap w) → objects_known w →
  heap w !! self = None → heap w !! other = Some S →
  in_state Ts S st → reproducible st →
  ∃ w' V,
    Variant_copy Ts self other w = Ok (tt, w') ∧
    heap w' !! self = Some V ∧
    index V = index S ∧
    in_state Ts V (reborn (next_oid w) st) ∧
    (∀ T o v, st = StHolding T o v →
              get Ts (Z.to_nat (index S)) V = Ok v ∧ o ≠ next_oid w) ∧
    heap w' !! other = Some S ∧
    (∀ os w'', leaves_alone os other → exec_all Ts os w' = Ok (tt, w'') →
               heap w'' !! other = Some S).
Proof.
  intros Hall Hk Hfresh Ho Hst Hrep.
  assert (self ≠ other) as Hne by congruence.
  assert (alloc self w =
            Ok (tt, set_heap (<[self := mkVariant null_type Raw]> (heap w)) w))
    as Halloc by (unfold alloc; by rewrite Hfresh).
  assert (∃ w' V,
    Variant_copy Ts self other w = Ok (tt, w') ∧
    heap w' !! self = Some V ∧
    index V = index S ∧
    in_state Ts V (reborn (next_oid w) st) ∧
    (∀ T o v, st = StHolding T o v →
              get Ts (Z.to_nat (index S)) V = Ok v ∧ o ≠ next_oid w) ∧
    heap w' !! other = Some S) as (w' & V & Hrun & HV & Hidx & HstV & Hget & Hsrc).
  { unfold Variant_copy. rewrite (bind_Ok _ _ _ _ _ Halloc).
    destruct st as [|T o v]; cbn in Hst, Hrep.
    - erewrite construct_from_empty_Ok; cbn;
        [|apply lookup_insert_eq|by rewrite lookup_insert_ne|done..].
      eexists _, _. split_and!; [reflexivity| | | | |].
      + cbn. apply lookup_insert_eq.
      + cbn. by rewrite Hst.
      + done.
      + done.
      + cbn. by rewrite !lookup_insert_ne.
    - edestruct (construct_from_live_Ok Ts self other
                   (set_heap (<[self := mkVariant null_type Raw]> (heap w)) w))
        as (w1 & Hrun & Hheap & Hnext & Hlog); [| |done..|].
      { cbn. apply lookup_insert_eq. }
      { cbn. by rewrite lookup_insert_ne. }
      destruct Hrep as [Hcopy _].
      pose proof (in_state_reborn_emplace Ts S (StHolding T o v) (next_oid w) Hst)
        as Hnew.
      exists w1. eexists. split_and!; [exact Hrun| | | | |].
      + rewrite Hheap. apply lookup_insert_eq.
      + done.
      + cbn [m_storage next_oid set_heap]. rewrite Hcopy. exact Hnew.
      + intros T' o' v' [= <- <- <-]. cbn [m_storage next_oid set_heap].
        rewrite Hcopy. split; [apply (Holding_get Ts _ _ _ _ Hnew)|].
        destruct Hst as (_ & _ & Hread).
        pose proof (Hk other S o Ho (storage_read_object _ _ _ _ Hread)). lia.
      + rewrite Hheap. cbn. by rewrite !lookup_insert_ne. }
  exists w', V. split_and!; [done..|].
  intros os w'' Hla Hos.
  assert (exec_all Ts [OpCopy self other] w = Ok (tt, w')) as Hone.
  { cbn [exec_all exec]. by rewrite (bind_Ok _ _ _ _ _ Hrun). }
  rewrite (exec_all_frame Ts os w' w'' other); [done| |done..].
  by eapply exec_all_consistent.
Qed.

Local Ltac wsimpl :=
  unfold after_set_idx, after_destroy, after_construct, construction_entries,
    logged, set_heap;
  cbn [heap next_oid log type_idx m_storage fst snd].

Lemma move_tail_moved_out self other w S T o v :
  heap w !! other = Some S → Holding Ts S T o v → (o < next_oid w)%nat →
  self ≠ other →
  wlp (construct_from_move Ts self other ≫= λ _, write_type_idx other null_type)
    (λ _ w', moved_out other o w w') w.
Proof.
  intros Ho Hh Hlt Hne.
  pose proof (Holding_not_null Ts _ _ _ _ Hh) as Hnn.
  apply wlp_bind, wlp_construct_from_move.
  - intros V HV Hemp. exfalso. apply Hnn. by apply Hemp.
  - intros V O T' o' v' HV HO _ H0 HT Hread new left.
    assert (O = S) as -> by congruence.
    destruct Hh as (_ & _ & Hread'). rewrite Hread' in Hread.
    injection Hread as <- <-.
    apply wlp_write_type_idx. wsimpl.
    rewrite lookup_insert_ne by done. rewrite lookup_insert_eq.
    intros ? [= <-]. unfold moved_out. wsimpl. split_and!.
    + eexists. by rewrite lookup_insert_eq.
    + split; wsimpl; [lia|]. intros V'. rewrite lookup_insert_eq.
      by intros [= <-].
    + eexists. split; [by rewrite <- app_assoc|].
      intros h' Hel. repeat (apply elem_of_cons in Hel as [[=]|Hel]).
      by apply elem_of_nil in Hel.
Qed.

Lemma moved_out_after_prefix other o w w1 w' pre :
  log w1 = log w ++ pre → never_destroyed_by other o pre →
  moved_out other o w1 w' → moved_out other o w w'.
Proof.
  intros Hl Hpre (Hidx & Hdor & new & Hl' & Hnew).
  split_and!; [done..|]. exists (pre ++ new). split.
  - by rewrite Hl', Hl, app_assoc.
  - by apply never_destroyed_by_app.
Qed.

Lemma Variant_move_moved_out self other w S T o v :
  heap w !! other = Some S → Holding Ts S T o v → (o < next_oid w)%nat →
  wlp (Variant_move Ts self other) (λ _ w', moved_out other o w w') w.
Proof.
  intros Ho Hh Hlt. unfold Variant_move.
  apply wlp_bind, wlp_alloc. intros Hfresh.
  assert (self ≠ other) as Hne by congruence.
  eapply wlp_mono.
  { eapply (move_tail_moved_out self other _ S T o v); [|done..].
    cbn. by rewrite lookup_insert_ne. }
  intros [] w' Hmo.
  refine (moved_out_after_prefix _ _ _ _ _ [] _ _ Hmo).
  - cbn. by rewrite app_nil_r.
  - intros h' Hel. by apply elem_of_nil in Hel.
Qed.

Lemma assign_move_moved_out self other w S T o v :
  heap w !! other = Some S → Holding Ts S T o v → (o < next_oid w)%nat →
  self ≠ other →
  wlp (assign_move Ts self other) (λ _ w', moved_out other o w w') w.
Proof.
  intros Ho Hh Hlt Hne. unfold assign_move.
  rewrite decide_False by done.
  apply wlp_bind, wlp_destroy.
  - intros V HV Hn. by eapply move_tail_moved_out.
  - intros V id s' o' HV Hnn Hd.
    eapply wlp_mono.
    { eapply (move_tail_moved_out self other _ S T o v); [|done..].
      cbn. by rewrite lookup_insert_ne. }
    intros [] w' Hmo.
    refine (moved_out_after_prefix _ _ _ _ _ _ _ _ Hmo); [reflexivity|].
    intros h' Hel%list_elem_of_singleton. congruence.
Qed.

(** C10: after a move construction or a move assignment from an instance
    [other] that holds the object [o], the discriminant of [other] is the
    sentinel, and in the move and in every program run afterwards (later
    assignments to [other] and its own destruction included) no destructor
    call on [o] is made through [other]. *)
Theorem moved_from_value_never_destroyed self other w w' S T o v os w'' :
  all_consistent Ts (heap w) → objects_known w →
  heap w !! other = Some S → Holding Ts S T o v → self ≠ other →
  Variant_move Ts self other w = Ok (tt, w') ∨
    assign_move Ts self other w = Ok (tt, w') →
  exec_all Ts os w' = Ok (tt, w'') →
  (∃ S', heap w' !! other = Some S' ∧ index S' = null_type) ∧
  never_destroyed_by other o (entries_since w w'').
Proof.
  intros Hall Hk Ho Hh Hne Hmove Hos.
  assert (o < next_oid w)%nat as Hlt.
  { destruct Hh as (_ & _ & Hread).
    apply (Hk other S o Ho). by eapply storage_read_object. }
  assert (moved_out other o w w') as (Hidx & Hdor & new & Hl & Hnew).
  { destruct Hmove as [Hrun|Hrun].
    - by apply (wlp_elim _ _ _ _ _ (Variant_move_moved_out self other w S T o v Ho Hh Hlt) Hrun).
    - by apply (wlp_elim _ _ _ _ _ (assign_move_moved_out self other w S T o v Ho Hh Hlt Hne) Hrun). }
  assert (all_consistent Ts (heap w')) as Hall'.
  { destruct Hmove as [Hrun|Hrun].
    - apply (exec_all_consistent Ts [OpMove self other] w w' Hall).
      cbn [exec_all exec]. by rewrite (bind_Ok _ _ _ _ _ Hrun).
    - apply (exec_all_consistent Ts [OpAssignMove self other] w w' Hall).
      cbn [exec_all exec]. by rewrite (bind_Ok _ _ _ _ _ Hrun). }
  split; [done|].
  destruct (steps_entries_since Ts _ _ _ (exec_all_steps Ts os w' w'' Hall' Hos))
    as (Hl' & _ & Hnever).
  rewrite (entries_since_app w w'' (new ++ entries_since w' w'')).
  - apply never_destroyed_by_app; [done | by apply Hnever].
  - by rewrite Hl', Hl, app_assoc.
Qed.
End copy_and_move.

(** ** Observers: [holds_alternative], [index], [operator==] *)

Section observers.
Context {ty obj : Type} `{AltTypes ty obj}.
Variable Ts : list ty.
Implicit Types (V A B : Variant obj) (T U : ty) (v val : obj).
Implicit Types (st sa sb : state ty obj).

Lemma find_idx_by_type_inj T U :
  T ∈ Ts → U ∈ Ts → find_idx_by_type T Ts = find_idx_by_type U Ts → T = U.
Proof.
  intros HT HU Heq.
  pose proof (find_idx_by_type_lookup T Ts HT) as H1.
  pose proof (find_idx_by_type_lookup U Ts HU) as H2.
  rewrite Heq in H1. congruence.
Qed.

Lemma comparable_equal_to T :
  forallb trait.is_equality_comparable_v Ts = true → T ∈ Ts →
  ∃ eq, equal_to T = Some eq.
Proof.
  intros Hall Hin. rewrite forallb_forall in Hall.
  specialize (Hall T (proj1 (list_elem_of_In _ _) Hin)).
  unfold trait.is_equality_comparable_v in Hall.
  destruct (equal_to T); [eauto | done].
Qed.

Lemma holds_alternative_true T V :
  holds_alternative Ts T V = true ↔ T ∈ Ts ∧ type_idx V = find_idx_by_type T Ts.
Proof.
  unfold holds_alternative. rewrite <- find_idx_by_type_elem.
  destruct (decide (find_idx_by_type T Ts = -1)%Z) as [Hn|Hn].
  - split; [done | by intros [? _]].
  - rewrite bool_decide_eq_true. split; [by split | by intros [_ ?]].
Qed.

(** For a type outside the list the query is well-formed and false. *)
Lemma holds_alternative_unknown T V :
  T ∉ Ts → holds_alternative Ts T V = false.
Proof.
  intros Hout. destruct (holds_alternative Ts T V) eqn:E; [|done].
  apply holds_alternative_true in E as [? _]. done.
Qed.

(** Within the range that [int64_t] and [size_t] share, the query by index
    compares the discriminant with the index. *)
Lemma holds_alternative_idx_shared_range id V :
  (0 ≤ id < 2 ^ 63)%Z → (- 2 ^ 63 ≤ type_idx V < 2 ^ 63)%Z →
  holds_alternative_idx id V = Ok (bool_decide (id = type_idx V)).
Proof.
  intros Hid HV. unfold holds_alternative_idx, uint64_max, to_size_t.
  rewrite decide_True by lia. f_equal.
  apply bool_decide_ext.
  destruct (decide (0 ≤ type_idx V)%Z).
  - rewrite Z.mod_small by lia. done.
  - replace (type_idx V) with ((type_idx V + 2 ^ 64) + (-1) * 2 ^ 64)%Z at 1 by lia.
    rewrite Z.mod_add by lia. rewrite Z.mod_small by lia. lia.
Qed.

(** C6: for two consistent instances of a specialisation whose alternatives
    are all equality-comparable, [operator==] returns [true] exactly when
    both are empty, or both hold the same alternative and that
    alternative's [operator==] returns [true] on the two held values; in
    particular it returns [false] for two different alternatives. *)
Theorem eq_variant_iff A B sa sb :
  forallb trait.is_equality_comparable_v Ts = true →
  in_state Ts A sa → in_state Ts B sb →
  ∃ b, eq_variant Ts A B = Ok b ∧
       (b = true ↔
          (sa = StEmpty ∧ sb = StEmpty) ∨
          (∃ T oa va ob vb eq,
              sa = StHolding T oa va ∧ sb = StHolding T ob vb ∧
              equal_to T = Some eq ∧ eq va vb = true)) ∧
       (∀ Ta oa va Tb ob vb,
           sa = StHolding Ta oa va → sb = StHolding Tb ob vb →
           index A ≠ index B → b = false).
Proof.
  intros Hcomp Ha Hb. unfold eq_variant. rewrite Hcomp.
  destruct sa as [|Ta oa va], sb as [|Tb ob vb]; cbn in Ha, Hb.
  - exists true. unfold Empty in *.
    rewrite decide_False by (intros Hne; apply Hne; congruence).
    rewrite decide_True by done. split_and!; [done| |done].
    split; [intros _; by left | done].
  - exists false. pose proof (Holding_not_null Ts _ _ _ _ Hb). unfold Empty in Ha.
    rewrite decide_True by congruence.
    split_and!; [done| |done].
    split; [done | intros [[_ ?]|(? & ? & ? & ? & ? & ? & ? & _)]; done].
  - exists false. pose proof (Holding_not_null Ts _ _ _ _ Ha). unfold Empty in Hb.
    rewrite decide_True by congruence.
    split_and!; [done| |done].
    split; [done | intros [[? _]|(? & ? & ? & ? & ? & ? & _ & ? & _)]; done].
  - pose proof (Holding_not_null Ts _ _ _ _ Ha) as Hnn.
    destruct (decide (type_idx A ≠ type_idx B)) as [Hne|Heq].
    { exists false. split_and!; [done| |done].
      split; [done|]. intros [[? _]|(T & ? & ? & ? & ? & ? & [= -> _ _] & [= -> _ _] & _)];
        [done|].
      destruct Ha as (_ & Ha & _), Hb as (_ & Hb & _). congruence. }
    assert (type_idx A = type_idx B) as Hidx by (by destruct (decide (type_idx A = type_idx B))).
    assert (Ta = Tb) as <-.
    { destruct Ha as (? & Ha & _), Hb as (? & Hb & _).
      apply find_idx_by_type_inj; [done..|]. congruence. }
    rewrite decide_False by done.
    destruct (Holding_range Ts _ _ _ _ Ha) as [H0 Hlt].
    unfold compare_func_table. rewrite seq_table_at by done. cbn.
    unfold compare_value_func_constructor.
    rewrite (find_type_by_idx_Holding Ts _ _ _ _ Ha). cbn.
    destruct (comparable_equal_to Ta Hcomp) as [eq Heq']; [by destruct Ha|].
    rewrite Heq'.
    rewrite (get_storage_value_Holding Ts _ _ _ _ Ha). cbn.
    rewrite Hidx. rewrite (get_storage_value_Holding Ts _ _ _ _ Hb). cbn.
    exists (eq va vb). split_and!; [done| |].
    + split.
      * intros Htrue. right. by exists Ta, oa, va, ob, vb, eq.
      * intros [[? _]|(T & ? & ? & ? & ? & eq' & [= -> -> ->] & [= -> ->] & Heq'' & Hres)];
          [done|].
        congruence.
    + intros ? ? ? ? ? ? _ _ Hne. unfold index in Hne. done.
Qed.

(** C8: for a consistent instance and a bare value [v] of an
    equality-comparable alternative type [T], [variant == v] returns [true]
    exactly when the instance holds [T] and [T]'s [operator==] returns
    [true] on the held value and [v]; for an empty instance and for one
    that holds another alternative it returns [false]. *)
Theorem eq_value_iff V st T v eq :
  T ∈ Ts → equal_to T = Some eq → in_state Ts V st →
  ∃ b, eq_value Ts V T v = Ok b ∧
       (b = true ↔ ∃ o held, st = StHolding T o held ∧ eq held v = true) ∧
       (st = StEmpty → b = false) ∧
       (∀ T' o held, st = StHolding T' o held → T' ≠ T → b = false).
Proof.
  intros Hin Heq Hst. unfold eq_value. rewrite Heq.
  rewrite as_index_find_idx by done. cbn.
  rewrite find_type_by_idx_lookup, find_idx_by_type_lookup by done. cbn.
  unfold trait.is_equality_comparable_v. rewrite Heq.
  destruct (holds_alternative Ts T V) eqn:Hholds; cbn [negb].
  - apply holds_alternative_true in Hholds as [_ Hidx].
    destruct st as [|T' o held]; cbn in Hst.
    { unfold Empty in Hst. pose proof (find_idx_by_type_range T Ts Hin).
      unfold null_type in Hst. lia. }
    assert (T' = T) as ->.
    { destruct Hst as (? & Hidx' & _).
      apply find_idx_by_type_inj; [done..|]. congruence. }
    unfold get_type.
    rewrite decide_False by (by apply find_idx_by_type_elem).
    rewrite as_index_find_idx by done. cbn.
    rewrite <- Hidx. rewrite (Holding_get Ts _ _ _ _ Hst). cbn.
    exists (eq held v). split_and!; [done| |done|].
    + split; [by eauto|]. by intros (? & ? & [= <- <-] & ?).
    + by intros ? ? ? [= <- _ _] ?.
  - exists false. split_and!; [done| |done..].
    split; [done|]. intros (o & held & -> & _). cbn in Hst.
    destruct Hst as (_ & Hidx & _).
    assert (holds_alternative Ts T V = true) as Htrue
      by (by apply holds_alternative_true).
    congruence.
Qed.
End observers.

(** C9 (what the code does at the largest index): on a default-constructed
    [Variant<int, std::string, Logger>], whose [index()] is the sentinel
    [-1], [holds_alternative<18446744073709551615>()] returns [true]:
    [id == type_idx] converts the sentinel to [size_t]. *)
Theorem holds_alternative_max_index_on_empty :
  ∃ w V,
    exec demo.Ts3 (OpDefault 0%nat) demo.empty_world = Ok (tt, w) ∧
    heap w !! 0%nat = Some V ∧
    index V = (-1)%Z ∧
    index V ≠ uint64_max ∧
    holds_alternative_idx uint64_max V = Ok true.
Proof.
  eexists _, _. split_and!; [reflexivity | reflexivity | reflexivity | done | reflexivity].
Qed.

(** ** The scenarios of [main.cpp] *)

Module scenarios.
Import demo.

Lemma empty_world_consistent Ts : all_consistent Ts (heap empty_world).
Proof.
  intros p V Hp. unfold empty_world in Hp. cbn [heap] in Hp.
  by rewrite lookup_empty in Hp.
Qed.

Lemma empty_world_known : objects_known empty_world.
Proof.
  intros p V o Hp. unfold empty_world in Hp. cbn [heap] in Hp.
  by rewrite lookup_empty in Hp.
Qed.

Lemma world_after_consistent Ts os : all_consistent Ts (heap (world_after Ts os)).
Proof.
  unfold world_after.
  destruct (exec_all Ts os empty_world) as [[[] w]|] eqn:E.
  - by apply (reachable_invariants Ts os w).
  - apply empty_world_consistent.
Qed.

Lemma world_after_known Ts os : objects_known (world_after Ts os).
Proof.
  unfold world_after.
  destruct (exec_all Ts os empty_world) as [[[] w]|] eqn:E.
  - by apply (reachable_invariants Ts os w).
  - apply empty_world_known.
Qed.

Local Ltac in_list :=
  repeat first [apply list_elem_of_here | apply list_elem_of_further].

Lemma reproduces_all T v : reproduces T v.
Proof. by destruct T. Qed.

(** A [Variant<int>] cannot be built or assigned from an [int] rvalue: the
    call of [construct_variant_value] is ambiguous.  From an lvalue it
    can. *)
Example one_alternative_from_rvalue :
  exec [Int] (OpValue 0%nat Int rvalue (outside (int 5))) empty_world
    = Err IllFormed ∧
  exec_all [Int] [OpValue 0%nat Int lvalue (outside (int 1));
                  OpAssignValue 0%nat Int rvalue (outside (int 5))] empty_world
    = Err IllFormed ∧
  (log (world_after [Int] [OpValue 0%nat Int lvalue (outside (int 1));
                           OpAssignValue 0%nat Int lvalue (outside (int 2))])).*1 =
    [EvConstruct 0%nat 0%nat; EvSetIdx 0%nat 0;
     EvDestroy 0%nat 0%nat; EvSetIdx 0%nat (-1);
     EvConstruct 0%nat 1%nat; EvSetIdx 0%nat 0].
Proof. split_and!; vm_compute; reflexivity. Qed.

(** [Variant<int, Logger> v(Logger(1)); v = v.get<Logger>();]: the held
    [Logger] is destroyed before the assignment reads it. *)
Example assignment_from_own_value :
  exec_all Ts2 [OpValue 0%nat Logger rvalue (outside (logger 1));
                OpAssignValue 0%nat Logger lvalue own_value] empty_world
    = Err Undefined.
Proof. vm_compute. reflexivity. Qed.

(** The first assertions of [main.cpp]: [v1(10)] has index 0, holds the
    [int] 10 and answers [holds_alternative<int>()]. *)
Example main_value_construction :
  let w := world_after Ts3 [OpValue 1%nat Int rvalue (outside (int 10))] in
  ∃ v1, heap w !! 1%nat = Some v1 ∧
        index v1 = 0%Z ∧ get Ts3 0 v1 = Ok (int 10) ∧
        holds_alternative Ts3 Int v1 = true ∧
        holds_alternative_idx 0 v1 = Ok true ∧
        holds_alternative_idx 1 v1 = Ok false.
Proof. eexists. split_and!; reflexivity. Qed.

(** [{ Variant<int, Logger> v(100); v = Logger(1); }]: the lifetime events
    and discriminant writes, in order. *)
Example main_assignment_events :
  (log (world_after Ts2 [OpValue 0%nat Int rvalue (outside (int 100));
                         OpAssignValue 0%nat Logger rvalue (outside (logger 1));
                         OpDtor 0%nat])).*1 =
    [EvConstruct 0%nat 0%nat; EvSetIdx 0%nat 0;
     EvDestroy 0%nat 0%nat; EvSetIdx 0%nat (-1);
     EvConstruct 0%nat 1%nat; EvSetIdx 0%nat 1;
     EvDestroy 0%nat 1%nat].
Proof. vm_compute. reflexivity. Qed.

(** [v5 = std::move(v3)]: [v5] holds the [Logger], [v3] is empty and keeps
    the moved-from [Logger] (whose [id] is now [-1]) in its storage. *)
Example main_move_construction :
  heap w_moved !! 5%nat = Some (mkVariant 2 (Next (Next (Value 1%nat (logger 3))))) ∧
  heap w_moved !! 3%nat = Some (mkVariant (-1) (Next (Next (Value 0%nat (logger (-1)))))).
Proof. split; vm_compute; reflexivity. Qed.

(** [Variant<int, std::string, Logger>] has no [operator==]: [Logger] is not
    equality-comparable. *)
Example main_equality_ill_formed (A B : Variant obj) :
  eq_variant Ts3 A B = Err IllFormed.
Proof. reflexivity. Qed.

(** [Variant<int> v(5);] is ill-formed;
    [Variant<int, std::string, Logger> v2((std::string) "hello");] holds
    ["hello"] at index 1. *)
Lemma value_constructor_index_and_get_witness :
  (Int ∈ [Int] ∧ reproduces Int (int 5) ∧ heap empty_world !! 0%nat = None ∧
   Variant_value [Int] 0%nat Int rvalue (outside (int 5)) empty_world =
     Err IllFormed) ∧
  (String ∈ Ts3 ∧ reproduces String (str "hello") ∧
   heap empty_world !! 0%nat = None ∧
   ∃ w' V,
     Variant_value Ts3 0%nat String rvalue (outside (str "hello")) empty_world =
       Ok (tt, w') ∧
     heap w' !! 0%nat = Some V ∧
     index V = find_idx_by_type String Ts3 ∧
     get Ts3 (Z.to_nat (find_idx_by_type String Ts3)) V = Ok (str "hello") ∧
     get_type Ts3 String V = Ok (str "hello")).
Proof.
  assert (Int ∈ [Int]) as Hint by in_list.
  assert (String ∈ Ts3) as Hin by in_list.
  split.
  - split_and!; [exact Hint | apply reproduces_all | reflexivity |].
    destruct (value_constructor_index_and_get [Int] 0%nat Int rvalue (int 5)
                empty_world Hint (reproduces_all _ _) eq_refl) as (_ & _ & Hill).
    exact Hill.
  - split_and!; [exact Hin | apply reproduces_all | reflexivity |].
    apply (value_constructor_index_and_get Ts3 0%nat String rvalue (str "hello")
             empty_world Hin (reproduces_all _ _) eq_refl).
Defined.

(** [Variant<int, std::string, Logger> v5 = std::move(v3);] *)
Lemma move_constructor_transfers_witness :
  let S := mkVariant 2 (Next (Next (Value 0%nat (logger 3)))) in
  let st := StHolding Logger 0%nat (logger 3) in
  heap w_logger !! 5%nat = None ∧ heap w_logger !! 3%nat = Some S ∧
  in_state Ts3 S st ∧ reproducible st ∧
  ∃ w' V S',
    Variant_move Ts3 5%nat 3%nat w_logger = Ok (tt, w') ∧
    heap w' !! 5%nat = Some V ∧
    index V = index S ∧
    in_state Ts3 V (reborn (next_oid w_logger) st) ∧
    (∀ T o v, st = StHolding T o v → get Ts3 (Z.to_nat (index S)) V = Ok v) ∧
    heap w' !! 3%nat = Some S' ∧
    index S' = null_type.
Proof.
  intros S st.
  assert (in_state Ts3 S st) as Hst
    by (split_and!; [in_list | reflexivity | reflexivity]).
  split_and!; [reflexivity | reflexivity | exact Hst | apply reproduces_all |].
  apply (move_constructor_transfers Ts3 5%nat 3%nat w_logger S st
           eq_refl eq_refl Hst (reproduces_all _ _)).
Defined.

(** [Variant<int, std::string> v((std::string) "hello"); v = v.get<std::string>();]
    is undefined; [Variant<int, Logger> v(100); v = Logger(1);] destroys the
    [int] and then holds the [Logger]. *)
Lemma assign_value_destroys_once_then_constructs_witness :
  let w := world_after Ts_comparable
             [OpValue 0%nat String rvalue (outside (str "hello"))] in
  let S := mkVariant 1 (Next (Value 0%nat (str "hello"))) in
  let V := mkVariant 0 (Value 0%nat (int 100)) in
  (heap w !! 0%nat = Some S ∧ Holding Ts_comparable S String 0%nat (str "hello") ∧
   String ∈ Ts_comparable ∧ ambiguous_overloads String lvalue Ts_comparable = false ∧
   assign_value Ts_comparable 0%nat String lvalue own_value w = Err Undefined) ∧
  (heap w_int !! 0%nat = Some V ∧ Holding Ts2 V Int 0%nat (int 100) ∧
   Logger ∈ Ts2 ∧ ambiguous_overloads Logger rvalue Ts2 = false ∧
   reproduces Logger (logger 1) ∧
   ∃ w' V',
     assign_value Ts2 0%nat Logger rvalue (outside (logger 1)) w_int = Ok (tt, w') ∧
     (log w').*1 = (log w_int).*1 ++
       [EvDestroy 0%nat 0%nat; EvSetIdx 0%nat null_type;
        EvConstruct 0%nat (next_oid w_int);
        EvSetIdx 0%nat (find_idx_by_type Logger Ts2)] ∧
     heap w' !! 0%nat = Some V' ∧
     index V' = find_idx_by_type Logger Ts2 ∧
     Holding Ts2 V' Logger (next_oid w_int) (logger 1) ∧
     get_type Ts2 Logger V' = Ok (logger 1)).
Proof.
  intros w S V.
  assert (heap w !! 0%nat = Some S) as HS by (vm_compute; reflexivity).
  assert (Holding Ts_comparable S String 0%nat (str "hello")) as Hs
    by (split_and!; [in_list | reflexivity | reflexivity]).
  assert (String ∈ Ts_comparable) as Hstr by in_list.
  assert (heap w_int !! 0%nat = Some V) as HV by (vm_compute; reflexivity).
  assert (Holding Ts2 V Int 0%nat (int 100)) as Hh
    by (split_and!; [in_list | reflexivity | reflexivity]).
  assert (Logger ∈ Ts2) as Hin by in_list.
  split.
  - split_and!; [exact HS | exact Hs | exact Hstr | reflexivity |].
    destruct (assign_value_destroys_once_then_constructs Ts_comparable 0%nat
                String lvalue w S String 0%nat (str "hello") HS Hs Hstr)
      as (Hown & _ & _).
    exact (Hown eq_refl).
  - split_and!; [exact HV | exact Hh | exact Hin | reflexivity
                | apply reproduces_all |].
    destruct (assign_value_destroys_once_then_constructs Ts2 0%nat
                Logger rvalue w_int V Int 0%nat (int 100) HV Hh Hin)
      as (_ & _ & Hok).
    exact (Hok eq_refl (logger 1) (reproduces_all _ _)).
Defined.

(** [Variant<int, std::string, Logger> v4 = v3;] *)
Lemma copy_constructor_copies_witness :
  let S := mkVariant 2 (Next (Next (Value 0%nat (logger 3)))) in
  let st := StHolding Logger 0%nat (logger 3) in
  all_consistent Ts3 (heap w_logger) ∧ objects_known w_logger ∧
  heap w_logger !! 4%nat = None ∧ heap w_logger !! 3%nat = Some S ∧
  in_state Ts3 S st ∧ reproducible st ∧
  ∃ w' V,
    Variant_copy Ts3 4%nat 3%nat w_logger = Ok (tt, w') ∧
    heap w' !! 4%nat = Some V ∧
    index V = index S ∧
    in_state Ts3 V (reborn (next_oid w_logger) st) ∧
    (∀ T o v, st = StHolding T o v →
              get Ts3 (Z.to_nat (index S)) V = Ok v ∧ o ≠ next_oid w_logger) ∧
    heap w' !! 3%nat = Some S ∧
    (∀ os w'', leaves_alone os 3%nat → exec_all Ts3 os w' = Ok (tt, w'') →
               heap w'' !! 3%nat = Some S).
Proof.
  intros S st.
  assert (in_state Ts3 S st) as Hst
    by (split_and!; [in_list | reflexivity | reflexivity]).
  split_and!; [apply world_after_consistent | apply world_after_known
              | reflexivity | reflexivity | exact Hst | apply reproduces_all |].
  apply (copy_constructor_copies Ts3 4%nat 3%nat w_logger S st
           (world_after_consistent _ _) (world_after_known _ _)
           eq_refl eq_refl Hst (reproduces_all _ _)).
Defined.

(** Two [Variant<int, std::string>] holding ["hi"] compare equal. *)
Lemma eq_variant_iff_witness :
  let A := mkVariant 1 (Next (Value 0%nat (str "hi"))) in
  let B := mkVariant 1 (Next (Value 1%nat (str "hi"))) in
  let sa := StHolding String 0%nat (str "hi") in
  let sb := StHolding String 1%nat (str "hi") in
  forallb trait.is_equality_comparable_v Ts_comparable = true ∧
  in_state Ts_comparable A sa ∧ in_state Ts_comparable B sb ∧
  ∃ b, eq_variant Ts_comparable A B = Ok b ∧
       (b = true ↔
          (sa = StEmpty ∧ sb = StEmpty) ∨
          (∃ T oa va ob vb eq,
              sa = StHolding T oa va ∧ sb = StHolding T ob vb ∧
              equal_to T = Some eq ∧ eq va vb = true)) ∧
       (∀ Ta oa va Tb ob vb,
           sa = StHolding Ta oa va → sb = StHolding Tb ob vb →
           index A ≠ index B → b = false).
Proof.
  intros A B sa sb.
  assert (in_state Ts_comparable A sa) as Ha
    by (split_and!; [in_list | reflexivity | reflexivity]).
  assert (in_state Ts_comparable B sb) as Hb
    by (split_and!; [in_list | reflexivity | reflexivity]).
  assert (forallb trait.is_equality_comparable_v Ts_comparable = true) as Hcmp
    by reflexivity.
  split_and!; [exact Hcmp | exact Ha | exact Hb |].
  apply (eq_variant_iff Ts_comparable A B sa sb Hcmp Ha Hb).
Defined.

(** [v2 == (std::string) "hello"] for [v2] holding ["hello"] *)
Lemma eq_value_iff_witness :
  let V := mkVariant 1 (Next (Value 0%nat (str "hello"))) in
  let st := StHolding String 0%nat (str "hello") in
  String ∈ Ts3 ∧ equal_to String = Some string_eq ∧ in_state Ts3 V st ∧
  ∃ b, eq_value Ts3 V String (str "hello") = Ok b ∧
       (b = true ↔ ∃ o held, st = StHolding String o held ∧
                             string_eq held (str "hello") = true) ∧
       (st = StEmpty → b = false) ∧
       (∀ T' o held, st = StHolding T' o held → T' ≠ String → b = false).
Proof.
  intros V st.
  assert (String ∈ Ts3) as Hin by in_list.
  assert (in_state Ts3 V st) as Hst
    by (split_and!; [in_list | reflexivity | reflexivity]).
  assert (equal_to String = Some string_eq) as Heq by reflexivity.
  split_and!; [exact Hin | exact Heq | exact Hst |].
  apply (eq_value_iff Ts3 V st String (str "hello") string_eq Hin Heq Hst).
Defined.

(** [v = Logger(1);] over a [Variant<int, Logger>] holding [100] *)
Lemma discriminant_discipline_witness :
  let o := OpAssignValue 0%nat Logger rvalue (outside (logger 1)) in
  let w' := world_after Ts2 [OpValue 0%nat Int rvalue (outside (int 100)); o] in
  all_consistent Ts2 (heap w_int) ∧ exec Ts2 o w_int = Ok (tt, w') ∧
  steps Ts2 (subjects o) w_int w' ∧
  log w' = log w_int ++ entries_since w_int w' ∧
  discipline_followed (entries_since w_int w').
Proof.
  intros o w'.
  assert (exec Ts2 o w_int = Ok (tt, w')) as Hrun by (vm_compute; reflexivity).
  split_and!; [apply world_after_consistent | exact Hrun | | |];
    apply (discriminant_discipline Ts2 o w_int w'
             (world_after_consistent _ _) Hrun).
Defined.

(** [v5 = std::move(v3); v3 = 7;] and the end of both scopes *)
Lemma moved_from_value_never_destroyed_witness :
  let S := mkVariant 2 (Next (Next (Value 0%nat (logger 3)))) in
  all_consistent Ts3 (heap w_logger) ∧ objects_known w_logger ∧
  heap w_logger !! 3%nat = Some S ∧ Holding Ts3 S Logger 0%nat (logger 3) ∧
  5%nat ≠ 3%nat ∧
  Variant_move Ts3 5%nat 3%nat w_logger = Ok (tt, w_moved) ∧
  exec_all Ts3 later w_moved = Ok (tt, w_end) ∧
  (∃ S', heap w_moved !! 3%nat = Some S' ∧ index S' = null_type) ∧
  never_destroyed_by 3%nat 0%nat (entries_since w_logger w_end).
Proof.
  intros S.
  assert (Holding Ts3 S Logger 0%nat (logger 3)) as Hh
    by (split_and!; [in_list | reflexivity | reflexivity]).
  assert (5%nat ≠ 3%nat) as Hne by discriminate.
  assert (heap w_logger !! 3%nat = Some S) as HS by reflexivity.
  assert (Variant_move Ts3 5%nat 3%nat w_logger = Ok (tt, w_moved)) as Hmove
    by (vm_compute; reflexivity).
  assert (exec_all Ts3 later w_moved = Ok (tt, w_end)) as Hlater
    by (vm_compute; reflexivity).
  split_and!; [apply world_after_consistent | apply world_after_known
              | exact HS | exact Hh | exact Hne | exact Hmove | exact Hlater | |];
    apply (moved_from_value_never_destroyed Ts3 5%nat 3%nat w_logger w_moved S
             Logger 0%nat (logger 3) later w_end
             (world_after_consistent _ _) (world_after_known _ _)
             HS Hh Hne (or_introl Hmove) Hlater).
Defined.

(** C1 (as the specification words it) fails on [v = Logger(1);] over a
    [Variant<int, Logger>] holding [100]: when the destructor of the held
    [int] has run, the discriminant is still [0], not the sentinel, and it
    names a slot whose value no longer exists. *)
Lemma discipline_as_specified_fails :
  let o := OpAssignValue 0%nat Logger rvalue (outside (logger 1)) in
  ∃ w' h V,
    exec Ts2 o w_int = Ok (tt, w') ∧
    entries_since w_int w' !! 0%nat = Some (EvDestroy 0%nat 0%nat, h) ∧
    h !! 0%nat = Some V ∧
    index V = 0%Z ∧
    get Ts2 0 V = Err Undefined ∧
    ¬ reset_before_destroy (EvDestroy 0%nat 0%nat, h) ∧
    ¬ no_stale_discriminant Ts2 (EvDestroy 0%nat 0%nat, h) ∧
    ¬ discipline_as_specified Ts2 (entries_since w_int w').
Proof.
  intros o.
  set (w' := world_after Ts2 [OpValue 0%nat Int rvalue (outside (int 100)); o]).
  set (V := mkVariant 0 (Raw : Storage obj)).
  set (h := <[0%nat := V]> (heap w_int)).
  assert (exec Ts2 o w_int = Ok (tt, w')) as Hrun by (vm_compute; reflexivity).
  assert (entries_since w_int w' !! 0%nat = Some (EvDestroy 0%nat 0%nat, h)) as Hentry
    by (vm_compute; reflexivity).
  assert (h !! 0%nat = Some V) as HV by apply lookup_insert_eq.
  assert (¬ reset_before_destroy (EvDestroy 0%nat 0%nat, h)) as Hreset.
  { intros (V' & HV' & Hnull).
    pose proof (eq_trans (eq_sym HV) HV') as Heq.
    injection Heq as <-. discriminate Hnull. }
  assert (¬ no_stale_discriminant Ts2 (EvDestroy 0%nat 0%nat, h)) as Hstale.
  { intros Hall. destruct (Hall 0%nat V HV) as [[|T o' v] Hst]; cbn in Hst.
    - discriminate Hst.
    - by destruct Hst as (_ & _ & Hread). }
  exists w', h, V. split_and!; [done..|].
  intros Hspec. unfold discipline_as_specified in Hspec.
  rewrite Forall_lookup in Hspec.
  destruct (Hspec 0%nat _ Hentry) as (_ & Hr & _). by apply Hreset.
Qed.
End scenarios.

(** * Further properties of the code *)

(** ** The resolver *)

Section resolver.
Context {ty obj : Type} `{AltTypes ty obj}.
Implicit Types (Ts : list ty) (T U : ty) (s : Storage obj) (v : obj).

Lemma Position_first id U Ts i :
  (0 ≤ id)%Z →
  Position id U Ts = (id + Z.of_nat i)%Z ↔
  Ts !! i = Some U ∧ ∀ j, (j < i)%nat → Ts !! j ≠ Some U.
Proof.
  revert id i. induction Ts as [|T Ts IH]; intros id i Hid; simpl.
  - split; [lia | by intros [? _]].
  - destruct (decide (U = T)) as [->|Hne].
    + split.
      * intros Hi. assert (i = 0)%nat as -> by lia. split; [done | lia].
      * intros [Hi Hfirst]. destruct i as [|i]; [lia|].
        exfalso. apply (Hfirst 0%nat); [lia | done].
    + destruct i as [|i].
      * split.
        -- intros Hpos. destruct (Position_range (id + 1) U Ts) as [?|?]; lia.
        -- intros [[= ->] _]. done.
      * replace (id + Z.of_nat (S i))%Z with ((id + 1) + Z.of_nat i)%Z by lia.
        rewrite IH by lia. split.
        -- intros [Hi Hfirst]. split; [done|].
           intros [|j] Hj; simpl; [congruence | apply Hfirst; lia].
        -- intros [Hi Hfirst]. split; [done|].
           intros j Hj. apply (Hfirst (S j)). lia.
Qed.

(** X1: [find_idx_by_type] returns [-1] exactly for a type that is not in
    the list, and otherwise the position of the type's first occurrence. *)
Theorem find_idx_by_type_first_occurrence T Ts :
  (find_idx_by_type T Ts = (-1)%Z ↔ T ∉ Ts) ∧
  (∀ i, find_idx_by_type T Ts = Z.of_nat i ↔
        Ts !! i = Some T ∧ ∀ j, (j < i)%nat → Ts !! j ≠ Some T).
Proof.
  split.
  - pose proof (find_idx_by_type_elem T Ts) as Hel.
    destruct (decide (find_idx_by_type T Ts = -1)%Z) as [Hn|Hn].
    + split; [|done]. intros _ Hin. by apply Hel in Hin.
    + split; [done|]. intros Hout. exfalso. apply Hout. by apply Hel.
  - intros i. pose proof (Position_first 0 T Ts i) as Hf.
    rewrite Z.add_0_l in Hf. by apply Hf.
Qed.

(** X2: the two directions of the resolver are inverse to each other on a
    list without repeated types: the type at position [i] is [T] exactly
    when [T]'s index is [i]. *)
Theorem resolver_round_trip T Ts i :
  NoDup Ts →
  find_type_by_idx i Ts = Ok T ↔ find_idx_by_type T Ts = Z.of_nat i.
Proof.
  intros Hnd. rewrite find_type_by_idx_lookup.
  pose proof (Position_first 0 T Ts i) as Hf. rewrite Z.add_0_l in Hf.
  unfold find_idx_by_type. rewrite Hf by done.
  split.
  - destruct (Ts !! i) as [T'|] eqn:Hi; [|done]. intros [= ->].
    split; [done|]. intros j Hj Hjl.
    pose proof (NoDup_lookup _ _ _ _ Hnd Hi Hjl). lia.
  - by intros [-> _].
Qed.

(** X3: an index outside the list is rejected when the template is
    instantiated, whatever the storage holds: [find_type_by_idx_t],
    [get_storage_value] and [destroy_variant_value] are ill-formed exactly
    for [id >= sizeof...(Ts)]. *)
Theorem index_out_of_range_is_ill_formed id Ts s :
  (find_type_by_idx id Ts = Err IllFormed ↔ (length Ts ≤ id)%nat) ∧
  (get_storage_value id Ts s = Err IllFormed ↔ (length Ts ≤ id)%nat) ∧
  (destroy_variant_value id Ts s = Err IllFormed ↔ (length Ts ≤ id)%nat).
Proof.
  assert (∀ k s', storage_read k s' ≠ Err IllFormed) as Hread.
  { intros k. induction k as [|k IH]; intros [| |next]; simpl; try done; apply IH. }
  assert (∀ k s', storage_destroy k s' ≠ Err IllFormed) as Hdestroy.
  { intros k. induction k as [|k IH]; intros [| |next]; simpl; try done;
      specialize (IH next); by destruct (storage_destroy k next). }
  split_and!.
  - rewrite find_type_by_idx_lookup.
    destruct (Ts !! id) as [T|] eqn:Hi.
    + apply lookup_lt_Some in Hi. split; [done | lia].
    + apply lookup_ge_None in Hi. done.
  - unfold get_storage_value. destruct (decide (id < length Ts)%nat).
    + split; [by intros ?%Hread | lia].
    + split; [lia | done].
  - unfold destroy_variant_value. destruct (decide (id < length Ts)%nat).
    + split; [by intros ?%Hdestroy | lia].
    + split; [lia | done].
Qed.
End resolver.

(** ** The storage cell *)

Section storage.
Context {ty obj : Type} `{AltTypes ty obj}.
Implicit Types (Ts : list ty) (T U : ty) (s : Storage obj) (v : obj).

Lemma storage_read_emplace_other id k o v :
  id ≠ k → storage_read id (storage_emplace k o v) = Err Undefined.
Proof.
  revert k. induction id as [|id IH]; intros [|k] Hne; simpl; try done.
  apply IH. lia.
Qed.

Lemma storage_destroy_emplace k o v :
  ∃ s', storage_destroy k (storage_emplace k o v) = Ok (s', o) ∧
        ∀ id, storage_read id s' = Err Undefined.
Proof.
  induction k as [|k (s' & Hd & Hr)]; simpl.
  - exists Raw. split; [done|]. by intros [|id].
  - exists (Next s'). rewrite Hd. split; [done|]. intros [|id]; [done | apply Hr].
Qed.

Lemma storage_destroy_emplace_other id k o v :
  id ≠ k → storage_destroy id (storage_emplace k o v) = Err Undefined.
Proof.
  revert k. induction id as [|id IH]; intros [|k] Hne; simpl; try done.
  rewrite IH by lia. done.
Qed.

Lemma storage_read_unique id k s o v :
  storage_read k s = Ok (o, v) → id ≠ k → storage_read id s = Err Undefined.
Proof.
  revert k s. induction id as [|id IH]; intros [|k] [| |next]; simpl; try done.
  intros Hk Hne. eapply IH; [done | lia].
Qed.

(** X4: a call of [construct_variant_value] with a value of a type [U] of
    the list fails only when it is ambiguous (a one-type list and a
    non-const rvalue), and is then ill-formed.  After any other call,
    reading the slot of [U]'s index gives the new object, and reading any
    other slot of the list finds no object there (undefined behaviour). *)
Theorem construct_then_read U c Ts o v id :
  U ∈ Ts → (id < length Ts)%nat →
  match construct_variant_value U c Ts o (outside v) with
  | Ok s =>
      ambiguous_overloads U c Ts = false ∧
      get_storage_value id Ts s =
        if decide (id = Z.to_nat (find_idx_by_type U Ts))
        then Ok (o, forward_construct U c v)
        else Err Undefined
  | Err e => e = IllFormed ∧ Ts = [U] ∧ c = rvalue
  end.
Proof.
  intros Hin Hlt. destruct (ambiguous_overloads U c Ts) eqn:Ha.
  - rewrite construct_variant_value_ambiguous by done.
    split; [done|]. by apply ambiguous_overloads_true.
  - rewrite construct_variant_value_find_idx by done. split; [done|].
    unfold get_storage_value. rewrite decide_True by done.
    destruct (decide _) as [->|Hne].
    + apply storage_read_emplace.
    + by apply storage_read_emplace_other.
Qed.

(** X5: after a call of [construct_variant_value] that is not ambiguous,
    with a value of a type [U] of the list, [destroy_variant_value] at [U]'s
    index runs the destructor of the new object and leaves no object
    readable in any slot; at any other index of the list it finds no object
    to destroy (undefined behaviour). *)
Theorem construct_then_destroy U c Ts o v id :
  U ∈ Ts → (id < length Ts)%nat → ambiguous_overloads U c Ts = false →
  ∃ s, construct_variant_value U c Ts o (outside v) = Ok s ∧
       match destroy_variant_value id Ts s with
       | Ok (s', o') =>
           id = Z.to_nat (find_idx_by_type U Ts) ∧ o' = o ∧
           storage_object s' = None ∧
           ∀ k, get_storage_value k Ts s' ≠ Ok (o, forward_construct U c v) ∧
                storage_read k s' = Err Undefined
       | Err e => id ≠ Z.to_nat (find_idx_by_type U Ts) ∧ e = Undefined
       end.
Proof.
  intros Hin Hlt Ha. eexists. split; [by apply construct_variant_value_find_idx|].
  unfold destroy_variant_value. rewrite decide_True by done.
  destruct (decide (id = Z.to_nat (find_idx_by_type U Ts))) as [->|Hne].
  - destruct (storage_destroy_emplace (Z.to_nat (find_idx_by_type U Ts)) o
                (forward_construct U c v)) as (s' & Hd & Hr).
    rewrite Hd. split_and!; [done..| |].
    + by apply storage_destroy_object in Hd as [_ ?].
    + intros k. split; [|apply Hr].
      unfold get_storage_value. destruct (decide _); [by rewrite Hr | done].
  - by rewrite storage_destroy_emplace_other.
Qed.
End storage.

(** ** Whole operations on consistent instances *)

Section operations.
Context {ty obj : Type} `{AltTypes ty obj}.
Variable Ts : list ty.
Implicit Types (w : world obj) (V O S : Variant obj) (T U : ty) (v val : obj).
Implicit Types (st ss so : state ty obj).

Lemma destroy_run self w V st :
  heap w !! self = Some V → in_state Ts V st →
  ∃ w1 s',
    destroy Ts self w = Ok (tt, w1) ∧
    heap w1 = <[self := mkVariant (type_idx V) s']> (heap w) ∧
    next_oid w1 = next_oid w ∧
    (log w1).*1 = (log w).*1 ++ destroy_events self st.
Proof.
  intros Hself Hst. destruct st as [|T o v]; cbn in Hst.
  - exists w, (m_storage V). split_and!.
    + by eapply destroy_empty_Ok.
    + destruct V. cbn. by rewrite insert_id.
    + done.
    + cbn. by rewrite app_nil_r.
  - destruct (destroy_live_Ok Ts self w V T o v Hself Hst) as (s' & _ & Hd).
    eexists _, s'. split_and!; [exact Hd | done | done |].
    cbn. by rewrite fmap_app.
Qed.

Lemma construct_from_run self other w V O so :
  heap w !! self = Some V → heap w !! other = Some O → self ≠ other →
  in_state Ts O so →
  ∃ w',
    construct_from Ts self other w = Ok (tt, w') ∧
    heap w' =
      <[self := mkVariant (type_idx O)
                  (match so with
                   | StEmpty => m_storage V
                   | StHolding T _ v =>
                       storage_emplace (Z.to_nat (type_idx O)) (next_oid w)
                         (copy_construct T v)
                   end)]> (heap w) ∧
    next_oid w' = (objects_created so + next_oid w)%nat ∧
    (log w').*1 = (log w).*1 ++ construct_from_events Ts self (next_oid w) so.
Proof.
  intros Hself Hother Hne Hso. destruct so as [|T o v]; cbn in Hso.
  - eexists. split_and!.
    + by eapply construct_from_empty_Ok.
    + cbn. by rewrite Hso.
    + done.
    + cbn. by rewrite fmap_app.
  - destruct (construct_from_live_Ok Ts self other w V O T o v Hself Hother Hne Hso)
      as (w' & Hrun & Hheap & Hnext & Hlog).
    exists w'. split_and!; [done..|].
    rewrite Hlog. cbn. by destruct Hso as (_ & -> & _).
Qed.

Lemma construct_from_move_run self other w V O so :
  heap w !! self = Some V → heap w !! other = Some O → self ≠ other →
  in_state Ts O so →
  ∃ w',
    construct_from_move Ts self other w = Ok (tt, w') ∧
    heap w' =
      <[self := mkVariant (type_idx O)
                  (match so with
                   | StEmpty => m_storage V
                   | StHolding T _ v =>
                       storage_emplace (Z.to_nat (type_idx O)) (next_oid w)
                         (move_construct T v).1
                   end)]>
        (<[other := mkVariant (type_idx O)
                      (match so with
                       | StEmpty => m_storage O
                       | StHolding T o v =>
                           storage_emplace (Z.to_nat (type_idx O)) o
                             (move_construct T v).2
                       end)]> (heap w)) ∧
    next_oid w' = (objects_created so + next_oid w)%nat ∧
    (log w').*1 = (log w).*1 ++ construct_from_events Ts self (next_oid w) so.
Proof.
  intros Hself Hother Hne Hso. destruct so as [|T o v]; cbn in Hso.
  - eexists. split_and!.
    + by eapply construct_from_move_empty_Ok.
    + cbn. rewrite Hso. f_equal. symmetry. apply insert_id.
      rewrite Hother. f_equal. destruct O. cbn in *. by rewrite Hso.
    + done.
    + cbn. by rewrite fmap_app.
  - destruct (construct_from_move_live_Ok Ts self other w V O T o v
                Hself Hother Hne Hso) as (w' & Hrun & Hheap & Hnext & Hlog).
    exists w'. split_and!; [done..|].
    rewrite Hlog. cbn. by destruct Hso as (_ & -> & _).
Qed.

Lemma is_all_trivially_destructible_v_forall (l : list ty) :
  is_all_trivially_destructible_v l = true ↔
  ∀ T, T ∈ l → is_trivially_destructible T = true.
Proof.
  induction l as [|T l IH]; simpl.
  - split; [by intros _ ? ?%elem_of_nil | done].
  - rewrite andb_true_iff, IH. split.
    + intros [HT Hl] U [->|HU]%elem_of_cons; auto.
    + intros Hall. split; [apply Hall; left | intros U HU; apply Hall; by right].
Qed.

(** X6: [~Variant()] on a consistent instance ends the instance and runs the
    destructor of the held value exactly once; it runs no destructor for an
    empty instance, and none at all when every alternative is trivially
    destructible, which is exactly when [is_all_trivially_destructible] is
    true. *)
Theorem destructor_destroys_held_value_once self w V st :
  heap w !! self = Some V → in_state Ts V st →
  ∃ w',
    Variant_dtor Ts self w = Ok (tt, w') ∧
    heap w' = delete self (heap w) ∧
    (log w').*1 = (log w).*1 ++
      (if is_all_trivially_destructible Ts then [] else destroy_events self st) ∧
    (is_all_trivially_destructible Ts = true ↔
     ∀ T, T ∈ Ts → is_trivially_destructible T = true).
Proof.
  intros Hself Hst. unfold Variant_dtor.
  pose proof (is_all_trivially_destructible_v_forall Ts) as Hall.
  unfold is_all_trivially_destructible in *.
  destruct (is_all_trivially_destructible_v Ts); cbn [negb].
  - eexists. split.
    { erewrite bind_Ok; [reflexivity|].
      erewrite bind_Ok; [reflexivity | by apply load_Ok]. }
    split_and!; [done| |done]. cbn. by rewrite app_nil_r.
  - destruct (destroy_run self w V st Hself Hst) as (w1 & s' & Hd & Hheap & _ & Hlog).
    eexists. split.
    { erewrite bind_Ok; [reflexivity | exact Hd]. }
    split_and!; [|done..]. cbn. rewrite Hheap. apply delete_insert_eq.
Qed.

(** X7: copy assignment between two distinct consistent instances succeeds:
    it destroys the value the target held (once, and first), then builds in
    the target a copy of the source's value in a new object; the target ends
    in the source's state, the source and every other instance are
    unchanged. *)
Theorem copy_assignment_replaces self other w V O ss so :
  heap w !! self = Some V → heap w !! other = Some O → self ≠ other →
  in_state Ts V ss → in_state Ts O so → reproducible so →
  ∃ w' V',
    assign_copy Ts self other w = Ok (tt, w') ∧
    (log w').*1 = (log w).*1 ++ destroy_events self ss ++
                  construct_from_events Ts self (next_oid w) so ∧
    heap w' !! self = Some V' ∧
    index V' = index O ∧
    in_state Ts V' (reborn (next_oid w) so) ∧
    (∀ p, p ≠ self → heap w' !! p = heap w !! p).
Proof.
  intros Hself Hother Hne Hss Hso Hrep.
  destruct (destroy_run self w V ss Hself Hss) as (w1 & s' & Hd & Hheap1 & Hnext1 & Hlog1).
  destruct (construct_from_run self other w1 (mkVariant (type_idx V) s') O so)
    as (w' & Hc & Hheap & Hnext & Hlog); [| |done..|].
  { rewrite Hheap1. apply lookup_insert_eq. }
  { rewrite Hheap1. by rewrite lookup_insert_ne. }
  exists w'. eexists. split_and!.
  - unfold assign_copy. rewrite decide_False by done.
    erewrite bind_Ok; [exact Hc | exact Hd].
  - rewrite Hlog, Hlog1, Hnext1. by rewrite app_assoc.
  - rewrite Hheap. apply lookup_insert_eq.
  - done.
  - rewrite Hnext1. destruct so as [|T o v]; cbn in Hso, Hrep |- *; [done|].
    destruct Hrep as [-> _].
    apply (in_state_reborn_emplace Ts O (StHolding T o v) (next_oid w) Hso).
  - intros p Hp. rewrite Hheap, Hheap1. by rewrite !lookup_insert_ne.
Qed.

(** X8: move assignment between two distinct consistent instances succeeds:
    it destroys the value the target held (once, and first), then
    move-constructs the source's value into a new object of the target and
    last writes the sentinel to the source; the target ends in the source's
    former state, the source is empty, every other instance is unchanged. *)
Theorem move_assignment_transfers self other w V O ss so :
  heap w !! self = Some V → heap w !! other = Some O → self ≠ other →
  in_state Ts V ss → in_state Ts O so → reproducible so →
  ∃ w' V' O',
    assign_move Ts self other w = Ok (tt, w') ∧
    (log w').*1 = (log w).*1 ++ destroy_events self ss ++
                  construct_from_events Ts self (next_oid w) so ++
                  [EvSetIdx other null_type] ∧
    heap w' !! self = Some V' ∧
    index V' = index O ∧
    in_state Ts V' (reborn (next_oid w) so) ∧
    heap w' !! other = Some O' ∧
    index O' = null_type ∧
    (∀ p, p ≠ self → p ≠ other → heap w' !! p = heap w !! p).
Proof.
  intros Hself Hother Hne Hss Hso Hrep.
  destruct (destroy_run self w V ss Hself Hss) as (w1 & s' & Hd & Hheap1 & Hnext1 & Hlog1).
  destruct (construct_from_move_run self other w1 (mkVariant (type_idx V) s') O so)
    as (w2 & Hc & Hheap & Hnext & Hlog); [| |done..|].
  { rewrite Hheap1. apply lookup_insert_eq. }
  { rewrite Hheap1. by rewrite lookup_insert_ne. }
  eexists _, _, _. split.
  { unfold assign_move. rewrite decide_False by done.
    erewrite bind_Ok; [|exact Hd].
    erewrite bind_Ok; [|exact Hc].
    apply write_type_idx_Ok. rewrite Hheap.
    rewrite lookup_insert_ne by done. apply lookup_insert_eq. }
  split_and!.
  - cbn. rewrite fmap_app, Hlog, Hlog1, Hnext1. cbn. by rewrite <- !app_assoc.
  - cbn. rewrite lookup_insert_ne by done. rewrite Hheap. apply lookup_insert_eq.
  - done.
  - rewrite Hnext1. destruct so as [|T o v]; cbn in Hso, Hrep |- *; [done|].
    destruct Hrep as [_ ->].
    apply (in_state_reborn_emplace Ts O (StHolding T o v) (next_oid w) Hso).
  - cbn. apply lookup_insert_eq.
  - done.
  - intros p Hp Hp'. cbn. rewrite lookup_insert_ne by done.
    rewrite Hheap, Hheap1. by rewrite !lookup_insert_ne.
Qed.

(** X9: on consistent instances every operation of the public interface
    runs to its end, without an ill-formed instantiation and without
    undefined behaviour, given a free address for a constructor, existing
    instances for the other operands and, for a value, a type of the list,
    an argument outside the instance and a call of [construct_variant_value]
    that is not ambiguous (always so for two or more alternatives). *)
Theorem operations_are_defined o w :
  all_consistent Ts (heap w) → ready Ts o w →
  ∃ w', exec Ts o w = Ok (tt, w').
Proof.
  intros Hall Hready.
  assert (∀ self, heap w !! self = None →
            alloc self w =
              Ok (tt, set_heap (<[self := mkVariant null_type Raw]> (heap w)) w))
    as Halloc by (intros self Hf; unfold alloc; by rewrite Hf).
  destruct o as [self|self T c val|self other|self other|self
                |self T c val|self other|self other]; cbn [exec ready] in *.
  - eexists. by apply Halloc.
  - destruct Hready as (Hfresh & Hin & Ha & v & ->).
    pose proof (proj2 (find_idx_by_type_elem T Ts) Hin) as Hfound.
    eexists. unfold Variant_value. rewrite decide_False by done.
    erewrite bind_Ok; [|by apply Halloc].
    erewrite bind_Ok; [|apply construct_value_Ok; [cbn; apply lookup_insert_eq | done..]].
    apply write_type_idx_Ok. cbn. apply lookup_insert_eq.
  - destruct Hready as [Hfresh [O HO]].
    assert (self ≠ other) as Hne by congruence.
    destruct (Hall other O HO) as [so Hso].
    destruct (construct_from_run self other
                (set_heap (<[self := mkVariant null_type Raw]> (heap w)) w)
                (mkVariant null_type Raw) O so) as (w' & Hc & _); [| |done..|].
    { cbn. apply lookup_insert_eq. }
    { cbn. by rewrite lookup_insert_ne. }
    exists w'. unfold Variant_copy. erewrite bind_Ok; [exact Hc | by apply Halloc].
  - destruct Hready as [Hfresh [O HO]].
    assert (self ≠ other) as Hne by congruence.
    destruct (Hall other O HO) as [so Hso].
    destruct (construct_from_move_run self other
                (set_heap (<[self := mkVariant null_type Raw]> (heap w)) w)
                (mkVariant null_type Raw) O so) as (w' & Hc & Hheap & _); [| |done..|].
    { cbn. apply lookup_insert_eq. }
    { cbn. by rewrite lookup_insert_ne. }
    eexists. unfold Variant_move. erewrite bind_Ok; [|by apply Halloc].
    erewrite bind_Ok; [|exact Hc].
    apply write_type_idx_Ok. rewrite Hheap.
    rewrite lookup_insert_ne by done. apply lookup_insert_eq.
  - destruct Hready as [V HV]. destruct (Hall self V HV) as [st Hst].
    unfold Variant_dtor. destruct (is_all_trivially_destructible Ts); cbn [negb].
    + eexists. erewrite bind_Ok; [reflexivity|].
      erewrite bind_Ok; [reflexivity | by apply load_Ok].
    + destruct (destroy_run self w V st HV Hst) as (w1 & s' & Hd & _).
      eexists. erewrite bind_Ok; [reflexivity | exact Hd].
  - destruct Hready as ([V HV] & Hin & Ha & v & ->).
    destruct (Hall self V HV) as [st Hst].
    pose proof (proj2 (find_idx_by_type_elem T Ts) Hin) as Hfound.
    destruct (destroy_run self w V st HV Hst) as (w1 & s' & Hd & Hheap & _).
    eexists. unfold assign_value. rewrite decide_False by done.
    erewrite bind_Ok; [|exact Hd].
    erewrite bind_Ok; [|apply write_type_idx_Ok; rewrite Hheap; apply lookup_insert_eq].
    erewrite bind_Ok; [|apply construct_value_Ok; [cbn; apply lookup_insert_eq | done..]].
    apply write_type_idx_Ok. cbn. apply lookup_insert_eq.
  - destruct Hready as [[V HV] [O HO]].
    unfold assign_copy. destruct (decide (self = other)) as [|Hne]; [by eexists|].
    destruct (Hall self V HV) as [ss Hss]. destruct (Hall other O HO) as [so Hso].
    destruct (destroy_run self w V ss HV Hss) as (w1 & s' & Hd & Hheap1 & _).
    destruct (construct_from_run self other w1 (mkVariant (type_idx V) s') O so)
      as (w' & Hc & _); [| |done..|].
    { rewrite Hheap1. apply lookup_insert_eq. }
    { rewrite Hheap1. by rewrite lookup_insert_ne. }
    exists w'. erewrite bind_Ok; [exact Hc | exact Hd].
  - destruct Hready as [[V HV] [O HO]].
    unfold assign_move. destruct (decide (self = other)) as [|Hne]; [by eexists|].
    destruct (Hall self V HV) as [ss Hss]. destruct (Hall other O HO) as [so Hso].
    destruct (destroy_run self w V ss HV Hss) as (w1 & s' & Hd & Hheap1 & _).
    destruct (construct_from_move_run self other w1 (mkVariant (type_idx V) s') O so)
      as (w' & Hc & Hheap & _); [| |done..|].
    { rewrite Hheap1. apply lookup_insert_eq. }
    { rewrite Hheap1. by rewrite lookup_insert_ne. }
    eexists. erewrite bind_Ok; [|exact Hd].
    erewrite bind_Ok; [|exact Hc].
    apply write_type_idx_Ok. rewrite Hheap.
    rewrite lookup_insert_ne by done. apply lookup_insert_eq.
Qed.

End operations.

(** ** Access and queries *)

Section access.
Context {ty obj : Type} `{AltTypes ty obj}.
Variable Ts : list ty.
Implicit Types (w : world obj) (V O S A B : Variant obj) (T U : ty) (v val : obj).

(** X11: [get] is not checked against the discriminant, it reads the slot it
    is asked for: on an instance that holds alternative [T] with value [v],
    [get<idx>()] returns [v] for the index of [T] and reads a slot without
    an object (undefined behaviour) for every other index of the list;
    [get<T'>()] is defined exactly when [holds_alternative<T'>()] is true,
    which is exactly for [T' = T]. *)
Theorem get_reads_only_the_live_slot V T o v T' idx :
  Holding Ts V T o v → T' ∈ Ts → (idx < length Ts)%nat →
  get Ts idx V = (if decide (idx = Z.to_nat (index V)) then Ok v else Err Undefined) ∧
  get_type Ts T' V = (if holds_alternative Ts T' V then Ok v else Err Undefined) ∧
  (holds_alternative Ts T' V = true ↔ T' = T).
Proof.
  intros Hh Hin' Hlt. pose proof Hh as (Hin & Hidx & Hread).
  assert (∀ k, (k < length Ts)%nat →
            get Ts k V = if decide (k = Z.to_nat (index V)) then Ok v else Err Undefined)
    as Hget.
  { intros k Hk. unfold get, get_storage_value. rewrite decide_True by done.
    unfold index. destruct (decide _) as [->|Hne].
    - by rewrite Hread.
    - by rewrite (storage_read_unique _ _ _ _ _ Hread Hne). }
  assert (holds_alternative Ts T' V = true ↔ T' = T) as Hholds.
  { rewrite holds_alternative_true. split.
    - intros [_ Heq]. apply (find_idx_by_type_inj Ts); [done..|]. congruence.
    - by intros ->. }
  split_and!; [by apply Hget | | done].
  pose proof (find_idx_by_type_range T' Ts Hin') as Hr'.
  unfold get_type. rewrite decide_False by lia.
  rewrite as_index_find_idx by done. cbn.
  change (get Ts (Z.to_nat (find_idx_by_type T' Ts)) V =
          if holds_alternative Ts T' V then Ok v else Err Undefined).
  rewrite Hget by lia.
  destruct (decide (T' = T)) as [->|Hne].
  - assert (holds_alternative Ts T V = true) as -> by (by apply Hholds).
    unfold index. by rewrite decide_True by congruence.
  - assert (holds_alternative Ts T' V = false) as ->.
    { apply not_true_is_false. by intros E%Hholds. }
    rewrite decide_False; [done|]. intros Heq. apply Hne.
    apply (find_idx_by_type_inj Ts); [done..|].
    pose proof (find_idx_by_type_range T Ts Hin). unfold index in Heq. lia.
Qed.

(** X12: after a move construction the source answers [index() == -1] and
    [holds_alternative<T>() == false], but its storage still holds the
    moved-from object, and [get<T>()], which does not look at the
    discriminant, returns it. *)
Theorem get_on_moved_from_source_reads_the_moved_from_object self other w S T o v :
  heap w !! self = None → heap w !! other = Some S → Holding Ts S T o v →
  ∃ w' S',
    Variant_move Ts self other w = Ok (tt, w') ∧
    heap w' !! other = Some S' ∧
    index S' = null_type ∧
    holds_alternative Ts T S' = false ∧
    get_type Ts T S' = Ok (move_construct T v).2.
Proof.
  intros Hfresh Hother Hh.
  assert (self ≠ other) as Hne by congruence.
  pose proof Hh as (Hin & Hidx & Hread).
  pose proof (find_idx_by_type_range T Ts Hin) as Hr.
  destruct (construct_from_move_run Ts self other
              (set_heap (<[self := mkVariant null_type Raw]> (heap w)) w)
              (mkVariant null_type Raw) S (StHolding T o v))
    as (w1 & Hc & Hheap & _); [| |done..|].
  { cbn. apply lookup_insert_eq. }
  { cbn. by rewrite lookup_insert_ne. }
  eexists _, _. split.
  { unfold Variant_move.
    erewrite bind_Ok; [|unfold alloc; rewrite Hfresh; reflexivity].
    erewrite bind_Ok; [|exact Hc].
    apply write_type_idx_Ok. rewrite Hheap.
    rewrite lookup_insert_ne by done. apply lookup_insert_eq. }
  split_and!.
  - cbn. apply lookup_insert_eq.
  - done.
  - unfold holds_alternative. rewrite decide_False by lia.
    apply bool_decide_eq_false. cbn. unfold null_type. lia.
  - unfold get_type. rewrite decide_False by lia.
    rewrite as_index_find_idx by done. cbn.
    unfold get, get_storage_value. rewrite decide_True by lia. cbn.
    rewrite Hidx. by rewrite storage_read_emplace.
Qed.

(** X13: a type that is not in the alternative list is rejected when the
    template is instantiated by the value constructor, by assignment from a
    value, by [get<T>()] and by [operator==(const T&)]; only
    [holds_alternative<T>()] accepts it, and answers [false]. *)
Theorem unknown_type_is_rejected T self c (r : referent obj) val w V :
  T ∉ Ts →
  Variant_value Ts self T c r w = Err IllFormed ∧
  assign_value Ts self T c r w = Err IllFormed ∧
  get_type Ts T V = Err IllFormed ∧
  eq_value Ts V T val = Err IllFormed ∧
  holds_alternative Ts T V = false.
Proof.
  intros Hout.
  assert (find_idx_by_type T Ts = -1)%Z as Hn.
  { destruct (decide (find_idx_by_type T Ts = -1)%Z) as [|Hne]; [done|].
    by apply find_idx_by_type_elem in Hne. }
  split_and!.
  - unfold Variant_value. by rewrite decide_True.
  - unfold assign_value. by rewrite decide_True.
  - unfold get_type. by rewrite decide_True.
  - unfold eq_value. rewrite Hn. by destruct (equal_to T).
  - unfold holds_alternative. by rewrite decide_True.
Qed.

(** X14: a default-constructed instance is empty: [index()] is the sentinel,
    [holds_alternative] is false for every type and for every index an
    [int64_t] discriminant can hold, [get] finds no object in any slot, no
    lifetime event is logged, and two such instances compare equal when the
    alternatives are equality-comparable. *)
Theorem default_constructed_is_empty self w :
  heap w !! self = None →
  ∃ w' V,
    Variant_default self w = Ok (tt, w') ∧
    heap w' !! self = Some V ∧
    log w' = log w ∧
    index V = null_type ∧
    (∀ T, holds_alternative Ts T V = false) ∧
    (∀ id, (0 ≤ id < 2 ^ 63)%Z → holds_alternative_idx id V = Ok false) ∧
    (∀ idx, get Ts idx V = Err Undefined ∨ get Ts idx V = Err IllFormed) ∧
    (forallb trait.is_equality_comparable_v Ts = true → eq_variant Ts V V = Ok true).
Proof.
  intros Hfresh. eexists _, _. split.
  { unfold Variant_default, alloc. rewrite Hfresh. reflexivity. }
  split_and!.
  - cbn. apply lookup_insert_eq.
  - done.
  - done.
  - intros T. unfold holds_alternative. destruct (decide _) as [|Hne]; [done|].
    apply bool_decide_eq_false. cbn. unfold null_type. congruence.
  - intros id Hid.
    rewrite holds_alternative_idx_shared_range;
      [|done | cbn; unfold null_type; lia].
    f_equal. apply bool_decide_eq_false. cbn. unfold null_type. lia.
  - intros idx. unfold get, get_storage_value.
    destruct (decide _); [left | right]; [|done]. cbn. by destruct idx.
  - intros Hcmp. unfold eq_variant. rewrite Hcmp. cbn.
    rewrite decide_False by (intros Hne; by apply Hne).
    by rewrite decide_True.
Qed.

(** X15: for a type of the list, the query by index and the query by type
    agree on consistent instances: [holds_alternative<index_of(T)>()] equals
    [holds_alternative<T>()] (lists of fewer than 2^63 types). *)
Theorem holds_alternative_by_index_and_by_type_agree V T :
  consistent Ts V → T ∈ Ts → (Z.of_nat (length Ts) < 2 ^ 63)%Z →
  holds_alternative_idx (find_idx_by_type T Ts) V = Ok (holds_alternative Ts T V).
Proof.
  intros [st Hst] Hin Hlen.
  pose proof (find_idx_by_type_range T Ts Hin) as Hr.
  assert (-1 ≤ type_idx V < Z.of_nat (length Ts))%Z as HV.
  { destruct st as [|T' o v]; cbn in Hst.
    - unfold Empty, null_type in Hst. lia.
    - destruct Hst as (Hin' & -> & _).
      pose proof (find_idx_by_type_range T' Ts Hin'). lia. }
  rewrite holds_alternative_idx_shared_range by lia.
  f_equal. unfold holds_alternative. rewrite decide_False by lia.
  apply bool_decide_ext. split; congruence.
Qed.
End access.

(** ** Equality *)

Section equality.
Context {ty obj : Type} `{AltTypes ty obj}.
Variable Ts : list ty.
Implicit Types (V A B : Variant obj) (T U : ty) (v val : obj).

Lemma storage_read_error id (s : Storage obj) e :
  storage_read id s = Err e → e = Undefined.
Proof.
  revert s. induction id as [|id IH]; intros [| |next]; simpl;
    try (by intros [= <-]). apply IH.
Qed.

Lemma get_storage_value_error id (s : Storage obj) e :
  get_storage_value id Ts s = Err e →
  e = if decide (id < length Ts)%nat then Undefined else IllFormed.
Proof.
  unfold get_storage_value. destruct (decide _); [|by intros [= <-]].
  apply storage_read_error.
Qed.

Lemma compare_value_func_constructor_sym I (sa sb : Storage obj) :
  (∀ T eq a b, equal_to T = Some eq → eq a b = eq b a) →
  compare_value_func_constructor Ts I sa sb = compare_value_func_constructor Ts I sb sa.
Proof.
  intros Hsym. unfold compare_value_func_constructor.
  destruct (find_type_by_idx I Ts) as [T|]; cbn; [|done].
  destruct (equal_to T) as [eq|] eqn:Heq; [|done].
  destruct (get_storage_value I Ts sa) as [a|ea] eqn:Ea,
           (get_storage_value I Ts sb) as [b|eb] eqn:Eb; cbn; try done.
  - by rewrite (Hsym T eq).
  - apply get_storage_value_error in Ea, Eb. congruence.
Qed.

(** X16: [operator==(const Variant&)] is symmetric whenever the
    alternatives' own [operator==] are, for any two instances, errors
    included. *)
Theorem eq_variant_symmetric A B :
  (∀ T eq a b, equal_to T = Some eq → eq a b = eq b a) →
  eq_variant Ts A B = eq_variant Ts B A.
Proof.
  intros Hsym. unfold eq_variant.
  destruct (forallb trait.is_equality_comparable_v Ts); [|done].
  destruct (decide (type_idx A = type_idx B)) as [Heq|Hne].
  - rewrite <- Heq.
    rewrite !(decide_False (P := type_idx A ≠ type_idx A))
      by (intros Hn; by apply Hn).
    destruct (decide (type_idx A = null_type)); [done|].
    destruct (table_at (compare_func_table Ts) (type_idx A)) as [f|] eqn:Hf; cbn; [|done].
    apply table_at_map in Hf as (_ & I & _ & ->).
    by apply compare_value_func_constructor_sym.
  - rewrite !decide_True by congruence. done.
Qed.

(** X17: a consistent instance equals itself when every alternative is
    equality-comparable and the held alternative's [operator==] is
    reflexive on the held value. *)
Theorem eq_variant_reflexive A st :
  forallb trait.is_equality_comparable_v Ts = true →
  in_state Ts A st →
  (∀ T o v eq, st = StHolding T o v → equal_to T = Some eq → eq v v = true) →
  eq_variant Ts A A = Ok true.
Proof.
  intros Hcmp Hst Hrefl. unfold eq_variant. rewrite Hcmp.
  rewrite decide_False by (intros Hn; by apply Hn).
  destruct st as [|T o v]; cbn in Hst.
  - by rewrite decide_True.
  - rewrite decide_False by (by eapply Holding_not_null).
    destruct (Holding_range Ts _ _ _ _ Hst) as [H0 Hlt].
    unfold compare_func_table. rewrite seq_table_at by done. cbn.
    unfold compare_value_func_constructor.
    rewrite (find_type_by_idx_Holding Ts _ _ _ _ Hst). cbn.
    destruct (comparable_equal_to Ts T Hcmp) as [eq Heq]; [by destruct Hst|].
    rewrite Heq, (get_storage_value_Holding Ts _ _ _ _ Hst). cbn.
    f_equal. by eapply Hrefl.
Qed.

(** X18: comparing with an instance that holds the value [v] of alternative
    [T] gives the same result, errors included, as comparing with the bare
    value [v]: [a == Variant(v)] is [a == v]. *)
Theorem eq_variant_agrees_with_eq_value A B T o v :
  forallb trait.is_equality_comparable_v Ts = true →
  Holding Ts B T o v →
  eq_variant Ts A B = eq_value Ts A T v.
Proof.
  intros Hcmp Hb. pose proof Hb as (Hin & Hidx & Hread).
  pose proof (find_idx_by_type_range T Ts Hin) as Hr.
  destruct (comparable_equal_to Ts T Hcmp Hin) as [eq Heq].
  unfold eq_variant, eq_value. rewrite Hcmp, Heq.
  rewrite as_index_find_idx by done. cbn.
  rewrite find_type_by_idx_lookup, find_idx_by_type_lookup by done. cbn.
  unfold trait.is_equality_comparable_v. rewrite Heq.
  unfold holds_alternative.
  rewrite (decide_False (P := find_idx_by_type T Ts = (-1)%Z)) by lia.
  rewrite Hidx.
  destruct (decide (type_idx A = find_idx_by_type T Ts)) as [Ha|Ha].
  - rewrite Ha.
    rewrite (decide_False (P := find_idx_by_type T Ts ≠ find_idx_by_type T Ts))
      by (intros Hn; by apply Hn).
    rewrite bool_decide_eq_true_2 by done. cbn [negb].
    rewrite (decide_False (P := find_idx_by_type T Ts = null_type))
      by (unfold null_type; lia).
    unfold compare_func_table. rewrite seq_table_at by (unfold m_size; lia). cbn.
    unfold compare_value_func_constructor.
    rewrite find_type_by_idx_lookup, find_idx_by_type_lookup by done. cbn.
    rewrite Heq.
    unfold get_type.
    rewrite (decide_False (P := find_idx_by_type T Ts = (-1)%Z)) by lia.
    rewrite as_index_find_idx by done. cbn. unfold get.
    destruct (get_storage_value _ Ts (m_storage A)) as [a|e]; cbn; [|done].
    rewrite <- Hidx, (get_storage_value_Holding Ts _ _ _ _ Hb). done.
  - rewrite (decide_True (P := type_idx A ≠ find_idx_by_type T Ts)) by done.
    by rewrite bool_decide_eq_false_2.
Qed.

(** X19: [operator==(const Variant&)] is rejected when the template is
    instantiated exactly when some alternative has no [operator==]; with
    all alternatives comparable it is never ill-formed, whatever the two
    instances hold. *)
Theorem eq_variant_ill_formed_iff A B :
  eq_variant Ts A B = Err IllFormed ↔
  forallb trait.is_equality_comparable_v Ts = false.
Proof.
  unfold eq_variant.
  destruct (forallb trait.is_equality_comparable_v Ts) eqn:Hcmp; [|done].
  split; [|done]. intros Hill. exfalso.
  destruct (decide (type_idx A ≠ type_idx B)); [done|].
  destruct (decide (type_idx A = null_type)); [done|].
  destruct (table_at (compare_func_table Ts) (type_idx A)) as [f|e] eqn:Hf; cbn in Hill.
  - apply table_at_map in Hf as (_ & I & HI & ->).
    apply lookup_seq in HI as [-> Hlt]. cbn in Hill.
    unfold compare_value_func_constructor in Hill.
    rewrite find_type_by_idx_lookup in Hill.
    destruct (lookup_lt_is_Some_2 Ts (Z.to_nat (type_idx A)) Hlt) as [T HT].
    rewrite HT in Hill. cbn in Hill.
    destruct (comparable_equal_to Ts T Hcmp) as [eq Heq].
    { apply list_elem_of_lookup. eauto. }
    rewrite Heq in Hill.
    destruct (get_storage_value _ Ts (m_storage A)) as [a|ea] eqn:Ea; cbn in Hill.
    + destruct (get_storage_value _ Ts (m_storage B)) as [b|eb] eqn:Eb; cbn in Hill;
        [done|].
      apply get_storage_value_error in Eb. rewrite decide_True in Eb by done.
      congruence.
    + apply get_storage_value_error in Ea. rewrite decide_True in Ea by done.
      congruence.
  - unfold table_at in Hf. destruct (decide _); [|congruence].
    destruct (_ !! _); congruence.
Qed.
End equality.

(** ** Lifetimes of the held objects *)

Section lifetimes.
Context {ty obj : Type} `{AltTypes ty obj}.
Variable Ts : list ty.
Implicit Types (w : world obj) (V : Variant obj) (o : oid) (p q : addr).

Local Ltac wsimpl :=
  unfold after_set_idx, after_destroy, after_construct, logged, set_heap;
  cbn [heap next_oid log type_idx m_storage fst snd].

Lemma destroyed_snoc (l : list (event * gmap addr (Variant obj))) e h :
  destroyed (l ++ [(e, h)]) =
  destroyed l ++ match e with EvDestroy _ o => [o] | _ => [] end.
Proof. unfold destroyed. rewrite omap_app. by destruct e. Qed.

Lemma constructed_snoc (l : list (event * gmap addr (Variant obj))) e h :
  constructed (l ++ [(e, h)]) =
  constructed l ++ match e with EvConstruct _ o => [o] | _ => [] end.
Proof. unfold constructed. rewrite omap_app. by destruct e. Qed.

(** One step that changes the instance at [p] only, destroys at most the
    object [p] owned and constructs at most one new object. *)
Lemma lifetimes_sound_step p w w' d c :
  lifetimes_sound w →
  (∀ q o, q ≠ p → owner w' o q → owner w o q) →
  destroyed (log w') = destroyed (log w) ++ d →
  constructed (log w') = constructed (log w) ++ c →
  (c = [] ∧ next_oid w' = next_oid w ∨
   c = [next_oid w] ∧ next_oid w' = S (next_oid w)) →
  (∀ o, o ∈ d → owner w o p ∧ d = [o]) →
  (∀ o, owner w' o p → owner w o p ∧ o ∉ d ∨ o ∈ c) →
  lifetimes_sound w'.
Proof.
  intros (Huniq & Hlive & Hknown & Hcons & Hnd) Hframe Hd Hc Hnext Hdp Hown.
  assert (∀ o, o ∈ c → o = next_oid w) as Hnew.
  { intros o Ho. destruct Hnext as [[-> _]|[-> _]].
    - by apply elem_of_nil in Ho.
    - by apply list_elem_of_singleton in Ho. }
  assert (∀ o q, o ∈ c → ¬ owner w o q) as Hfresh.
  { intros o q Ho Hq. apply Hnew in Ho as ->.
    apply Hlive in Hq as [Hq%Hknown _]. lia. }
  split_and!.
  - intros p1 p2 o H1 H2.
    destruct (decide (p1 = p)) as [->|Hn1], (decide (p2 = p)) as [->|Hn2].
    + done.
    + apply Hframe in H2; [|done].
      apply Hown in H1 as [[H1 _]|H1]; [by eapply Huniq | by destruct (Hfresh o p2)].
    + apply Hframe in H1; [|done].
      apply Hown in H2 as [[H2 _]|H2]; [by eapply Huniq | by destruct (Hfresh o p1)].
    + eapply Huniq; by apply Hframe.
  - intros q o Hq. rewrite Hd, Hc, !elem_of_app.
    destruct (decide (q = p)) as [->|Hne].
    + apply Hown in Hq as [[Hq Hnd']|Hq].
      * destruct (Hlive p o Hq) as [Hin Hout]. split; [by left|].
        intros [?|?]; done.
      * split; [by right|]. intros [Ho|Ho].
        -- apply Hcons, Hknown in Ho. apply Hnew in Hq. lia.
        -- apply Hdp in Ho as [Ho _]. by destruct (Hfresh o p).
    + apply Hframe in Hq; [|done].
      destruct (Hlive q o Hq) as [Hin Hout]. split; [by left|].
      intros [?|Ho]; [done|].
      apply Hdp in Ho as [Ho _]. apply Hne. by eapply Huniq.
  - intros o. rewrite Hc, elem_of_app. intros [Ho%Hknown|Ho].
    + destruct Hnext as [[_ ->]|[_ ->]]; lia.
    + pose proof (Hnew o Ho) as ->.
      destruct Hnext as [[-> _]|[_ ->]]; [by apply elem_of_nil in Ho | lia].
  - intros o. rewrite Hd, Hc, !elem_of_app. intros [Ho|Ho].
    + left. by apply Hcons.
    + left. apply Hdp in Ho as [Ho _]. by apply Hlive in Ho as [? _].
  - rewrite Hd. apply NoDup_app. split_and!; [done| |].
    + intros o Ho Ho'. apply Hdp in Ho' as [Ho' _].
      by apply Hlive in Ho' as [_ ?].
    + destruct d as [|o d]; [apply NoDup_nil_2|].
      destruct (Hdp o) as [_ Heq]; [apply list_elem_of_here|].
      rewrite Heq. apply NoDup_singleton.
Qed.

Lemma owner_insert_ne w p q V' o n l :
  q ≠ p → owner (World (<[p := V']> (heap w)) n l) o q → owner w o q.
Proof.
  intros Hne (V & HV & Ho). cbn [heap] in HV.
  rewrite lookup_insert_ne in HV by done. by exists V.
Qed.

Lemma owner_insert_eq w p V' o n l :
  owner (World (<[p := V']> (heap w)) n l) o p →
  storage_object (m_storage V') = Some o.
Proof.
  intros (V & HV & Ho). cbn [heap] in HV.
  rewrite lookup_insert_eq in HV. by injection HV as <-.
Qed.

Lemma owner_delete w p q o n l :
  owner (World (delete p (heap w)) n l) o q → q ≠ p ∧ owner w o q.
Proof.
  intros (V & HV & Ho). cbn [heap] in HV.
  apply lookup_delete_Some in HV as [Hne HV]. split; [done | by exists V].
Qed.

Lemma transition_lifetimes p w w' :
  transition Ts p w w' → lifetimes_sound w → lifetimes_sound w'.
Proof.
  intros Htr Hs.
  destruct Htr as [w Hp|w V Hp|w V Hp|w V id s' o Hp Hnn Hd|w V id s' o Hp Hnn Hd
                  |w V o v v' Hp Hread|w V T v Hp Hn Hin]; wsimpl.
  - apply (lifetimes_sound_step p w _ [] []); cbn [log next_oid];
      rewrite ?app_nil_r; try done.
    + intros q o Hne. apply owner_insert_ne. done.
    + by left.
    + intros o ?%elem_of_nil. done.
    + intros o Ho%owner_insert_eq. done.
  - apply (lifetimes_sound_step p w _ [] []); cbn [log next_oid];
      rewrite ?app_nil_r; try done.
    + intros q o _ [_ Hq]%owner_delete. done.
    + by left.
    + intros o ?%elem_of_nil. done.
    + intros o [Hne _]%owner_delete. done.
  - apply (lifetimes_sound_step p w _ [] []); cbn [log next_oid];
      rewrite ?app_nil_r, ?destroyed_snoc, ?constructed_snoc, ?app_nil_r; try done.
    + intros q o Hne. apply owner_insert_ne. done.
    + by left.
    + intros o ?%elem_of_nil. done.
    + intros o Ho%owner_insert_eq. left. split; [by exists V|].
      intros ?%elem_of_nil. done.
  - apply storage_destroy_object in Hd as [Hobj Hnone].
    apply (lifetimes_sound_step p w _ [o] []); cbn [log next_oid];
      rewrite ?app_nil_r, ?destroyed_snoc, ?constructed_snoc, ?app_nil_r; try done.
    + intros q o' Hne. rewrite insert_insert_eq. apply owner_insert_ne. done.
    + by left.
    + intros o' ->%list_elem_of_singleton. split; [by exists V | done].
    + intros o'. rewrite insert_insert_eq. intros Ho%owner_insert_eq.
      cbn in Ho. congruence.
  - apply storage_destroy_object in Hd as [Hobj Hnone].
    apply (lifetimes_sound_step p w _ [o] []); cbn [log next_oid];
      rewrite ?app_nil_r, ?destroyed_snoc, ?constructed_snoc, ?app_nil_r; try done.
    + intros q o' _. rewrite delete_insert_eq. intros [_ Hq]%owner_delete. done.
    + by left.
    + intros o' ->%list_elem_of_singleton. split; [by exists V | done].
    + intros o'. rewrite delete_insert_eq. intros [Hne _]%owner_delete. done.
  - apply storage_read_object in Hread.
    apply (lifetimes_sound_step p w _ [] []); cbn [log next_oid];
      rewrite ?app_nil_r; try done.
    + intros q o' Hne. apply owner_insert_ne. done.
    + by left.
    + intros o' ?%elem_of_nil. done.
    + intros o' Ho%owner_insert_eq. cbn in Ho.
      rewrite storage_object_emplace in Ho. injection Ho as <-.
      left. split; [by exists V|]. intros ?%elem_of_nil. done.
  - apply (lifetimes_sound_step p w _ [] [next_oid w]); cbn [log next_oid];
      rewrite ?app_nil_r, ?destroyed_snoc, ?constructed_snoc, ?app_nil_r; try done.
    + intros q o' Hne. rewrite insert_insert_eq. apply owner_insert_ne. done.
    + by right.
    + intros o' ?%elem_of_nil. done.
    + intros o'. rewrite insert_insert_eq. intros Ho%owner_insert_eq.
      cbn in Ho. rewrite storage_object_emplace in Ho. injection Ho as <-.
      right. apply list_elem_of_here.
Qed.

Lemma steps_lifetimes A w w' :
  steps Ts A w w' → lifetimes_sound w → lifetimes_sound w'.
Proof.
  induction 1 as [|w w1 w2 (p & _ & Htr) _ IH]; [done|].
  intros Hs. by eapply IH, transition_lifetimes.
Qed.

(** X20: no destructor runs twice.  Whatever program of constructions,
    assignments and destructions runs to its end on consistent instances,
    it keeps the lifetimes sound: no object lives in two instances, every
    object in memory has been constructed and not destroyed, a destructor
    has run only for constructed objects and for none of them twice. *)
Theorem no_object_is_destroyed_twice os w w' :
  all_consistent Ts (heap w) → lifetimes_sound w →
  exec_all Ts os w = Ok (tt, w') →
  lifetimes_sound w'.
Proof.
  intros Hall Hs Hrun. eapply steps_lifetimes; [|done].
  by eapply exec_all_steps.
Qed.
End lifetimes.

(** ** How the operations compose *)

Section composition.
Context {ty obj : Type} `{AltTypes ty obj}.
Variable Ts : list ty.
Implicit Types (w : world obj) (V O A B : Variant obj) (T U : ty) (v val : obj).
Implicit Types (st so : state ty obj).

Lemma eq_variant_Holding A B T oa va ob vb eq :
  forallb trait.is_equality_comparable_v Ts = true →
  Holding Ts A T oa va → Holding Ts B T ob vb → equal_to T = Some eq →
  eq_variant Ts A B = Ok (eq va vb).
Proof.
  intros Hcmp Ha Hb Heq.
  assert (type_idx A = type_idx B) as Hidx.
  { destruct Ha as (_ & -> & _), Hb as (_ & -> & _). done. }
  unfold eq_variant. rewrite Hcmp.
  rewrite (decide_False (P := type_idx A ≠ type_idx B)) by (intros Hn; by apply Hn).
  rewrite (decide_False (P := type_idx A = null_type)) by (by eapply Holding_not_null).
  destruct (Holding_range Ts _ _ _ _ Ha) as [H0 Hlt].
  unfold compare_func_table. rewrite seq_table_at by done. cbn.
  unfold compare_value_func_constructor.
  rewrite (find_type_by_idx_Holding Ts _ _ _ _ Ha). cbn.
  rewrite Heq, (get_storage_value_Holding Ts _ _ _ _ Ha). cbn.
  rewrite Hidx, (get_storage_value_Holding Ts _ _ _ _ Hb). done.
Qed.

Lemma eq_variant_Empty A B :
  forallb trait.is_equality_comparable_v Ts = true →
  Empty A → Empty B → eq_variant Ts A B = Ok true.
Proof.
  unfold Empty. intros Hcmp Ha Hb. unfold eq_variant. rewrite Hcmp.
  rewrite (decide_False (P := type_idx A ≠ type_idx B)) by (intros Hn; apply Hn; congruence).
  by rewrite decide_True.
Qed.


(** X22: a copy compares equal to its original.  When every alternative is
    equality-comparable, the held alternative's copy constructor reproduces
    the held value and its [operator==] is reflexive on it, copy
    construction leaves the source as it was and the new instance and the
    source compare equal, in both orders. *)
Theorem copy_compares_equal_to_original self other w O so :
  forallb trait.is_equality_comparable_v Ts = true →
  heap w !! self = None → heap w !! other = Some O →
  in_state Ts O so → reproducible so →
  (∀ T o v eq, so = StHolding T o v → equal_to T = Some eq → eq v v = true) →
  ∃ w' V,
    Variant_copy Ts self other w = Ok (tt, w') ∧
    heap w' !! self = Some V ∧
    heap w' !! other = Some O ∧
    eq_variant Ts V O = Ok true ∧
    eq_variant Ts O V = Ok true.
Proof.
  intros Hcmp Hfresh Hother Hso Hrep Hrefl.
  assert (self ≠ other) as Hne by congruence.
  destruct (construct_from_run Ts self other
              (set_heap (<[self := mkVariant null_type Raw]> (heap w)) w)
              (mkVariant null_type Raw) O so) as (w' & Hc & Hheap & _); [| |done..|].
  { cbn. apply lookup_insert_eq. }
  { cbn. by rewrite lookup_insert_ne. }
  pose proof (in_state_reborn_emplace Ts O so (next_oid w) Hso) as Hnew.
  exists w'. eexists. split_and!.
  - unfold Variant_copy.
    erewrite bind_Ok; [exact Hc | unfold alloc; by rewrite Hfresh].
  - rewrite Hheap. apply lookup_insert_eq.
  - rewrite Hheap. cbn. by rewrite !lookup_insert_ne.
  - destruct so as [|T o v]; cbn in Hso, Hrep, Hnew |- *.
    + by apply eq_variant_Empty.
    + destruct Hrep as [-> _].
      destruct (comparable_equal_to Ts T Hcmp) as [eq Heq]; [by destruct Hso|].
      rewrite (eq_variant_Holding _ _ T _ v _ v eq Hcmp Hnew Hso Heq).
      f_equal. by eapply Hrefl.
  - destruct so as [|T o v]; cbn in Hso, Hrep, Hnew |- *.
    + by apply eq_variant_Empty.
    + destruct Hrep as [-> _].
      destruct (comparable_equal_to Ts T Hcmp) as [eq Heq]; [by destruct Hso|].
      rewrite (eq_variant_Holding _ _ T _ v _ v eq Hcmp Hso Hnew Heq).
      f_equal. by eapply Hrefl.
Qed.
End composition.

(** ** The further properties on the scenario of [main.cpp] *)

Module further_scenarios.
Import demo.

Local Ltac in_list :=
  repeat first [apply list_elem_of_here | apply list_elem_of_further].

Local Ltac not_in_list :=
  let Hin := fresh "Hin" in
  intros Hin;
  repeat (apply elem_of_cons in Hin as [Hin|Hin]; [discriminate Hin|]);
  by apply elem_of_nil in Hin.

Lemma Ts3_NoDup : NoDup Ts3.
Proof.
  unfold Ts3. repeat (apply NoDup_cons_2; [not_in_list|]). apply NoDup_nil_2.
Qed.

Lemma pair_logger : heap w_pair !! 3%nat = Some v_logger.
Proof. vm_compute. reflexivity. Qed.

Lemma pair_string : heap w_pair !! 1%nat = Some v_string.
Proof. vm_compute. reflexivity. Qed.

Lemma Holding_logger : Holding Ts3 v_logger Logger 0%nat (logger 3).
Proof. split_and!; [in_list | reflexivity | reflexivity]. Qed.

Lemma Holding_string : Holding Ts3 v_string String 1%nat (str "hi").
Proof. split_and!; [in_list | reflexivity | reflexivity]. Qed.

Lemma equal_to_symmetric (T : ty) eq a b :
  equal_to T = Some eq → eq a b = eq b a.
Proof.
  destruct T; intros [= <-]; destruct a, b; cbn; try done.
  - apply bool_decide_ext. split; congruence.
  - apply String.eqb_sym.
Qed.

Lemma empty_world_lifetimes : lifetimes_sound empty_world.
Proof.
  split_and!.
  - intros p q o (V & HV & _). unfold empty_world in HV. cbn [heap] in HV.
    by rewrite lookup_empty in HV.
  - intros p o (V & HV & _). unfold empty_world in HV. cbn [heap] in HV.
    by rewrite lookup_empty in HV.
  - intros o ?%elem_of_nil. done.
  - intros o ?%elem_of_nil. done.
  - apply NoDup_nil_2.
Qed.

(** [std::string] is the alternative at position 1 of
    [Variant<int, std::string, Logger>]. *)
Lemma resolver_round_trip_witness :
  NoDup Ts3 ∧
  (find_type_by_idx 1 Ts3 = Ok String ↔ find_idx_by_type String Ts3 = Z.of_nat 1).
Proof.
  split; [apply Ts3_NoDup|].
  apply (resolver_round_trip String Ts3 1 Ts3_NoDup).
Defined.

(** A [std::string] rvalue placed in the storage of a
    [Variant<int, std::string, Logger>], then slot 2 read; and the same
    call on the storage of a [Variant<std::string>]. *)
Lemma construct_then_read_witness :
  (String ∈ Ts3 ∧ (2 < length Ts3)%nat ∧
   ∃ s, construct_variant_value String rvalue Ts3 0%nat (outside (str "hi")) = Ok s ∧
        get_storage_value 2 Ts3 s = Err Undefined) ∧
  (String ∈ [String] ∧ (0 < length [String])%nat ∧
   construct_variant_value String rvalue [String] 0%nat (outside (str "hi")) =
     Err IllFormed).
Proof.
  assert (String ∈ Ts3) as Hin by in_list.
  assert (2 < length Ts3)%nat as Hlt by (cbn; lia).
  assert (String ∈ [String]) as Hin1 by in_list.
  assert (0 < length [String])%nat as Hlt1 by (cbn; lia).
  split.
  - split_and!; [exact Hin | exact Hlt |].
    pose proof (construct_then_read String rvalue Ts3 0%nat (str "hi") 2 Hin Hlt)
      as Hread.
    eexists. split; [reflexivity|]. exact (proj2 Hread).
  - split_and!; [exact Hin1 | exact Hlt1 |].
    pose proof (construct_then_read String rvalue [String] 0%nat (str "hi") 0
                  Hin1 Hlt1) as Hread.
    destruct (construct_variant_value String rvalue [String] 0%nat (outside (str "hi")))
      as [s|e]; [by destruct Hread | by destruct Hread as [-> _]].
Defined.

(** The storage of a [Variant<int, std::string, Logger>] after the
    construction of a [std::string], destroyed at slot 1. *)
Lemma construct_then_destroy_witness :
  String ∈ Ts3 ∧ (1 < length Ts3)%nat ∧
  ambiguous_overloads String rvalue Ts3 = false ∧
  ∃ s, construct_variant_value String rvalue Ts3 0%nat (outside (str "hi")) = Ok s ∧
       match destroy_variant_value 1 Ts3 s with
       | Ok (s', o') =>
           1%nat = Z.to_nat (find_idx_by_type String Ts3) ∧ o' = 0%nat ∧
           storage_object s' = None ∧
           ∀ k, get_storage_value k Ts3 s' ≠
                  Ok (0%nat, forward_construct String rvalue (str "hi")) ∧
                storage_read k s' = Err Undefined
       | Err e => 1%nat ≠ Z.to_nat (find_idx_by_type String Ts3) ∧ e = Undefined
       end.
Proof.
  assert (String ∈ Ts3) as Hin by in_list.
  assert (1 < length Ts3)%nat as Hlt by (cbn; lia).
  assert (ambiguous_overloads String rvalue Ts3 = false) as Ha by reflexivity.
  split_and!; [exact Hin | exact Hlt | exact Ha |].
  apply (construct_then_destroy String rvalue Ts3 0%nat (str "hi") 1 Hin Hlt Ha).
Defined.

(** [v3] holding [Logger(3)] goes out of scope. *)
Lemma destructor_destroys_held_value_once_witness :
  let st := StHolding Logger 0%nat (logger 3) in
  heap w_logger !! 3%nat = Some v_logger ∧ in_state Ts3 v_logger st ∧
  ∃ w',
    Variant_dtor Ts3 3%nat w_logger = Ok (tt, w') ∧
    heap w' = delete 3%nat (heap w_logger) ∧
    (log w').*1 = (log w_logger).*1 ++
      (if is_all_trivially_destructible Ts3 then [] else destroy_events 3%nat st) ∧
    (is_all_trivially_destructible Ts3 = true ↔
     ∀ T, T ∈ Ts3 → is_trivially_destructible T = true).
Proof.
  intros st.
  assert (heap w_logger !! 3%nat = Some v_logger) as HV by (vm_compute; reflexivity).
  split_and!; [exact HV | exact Holding_logger |].
  apply (destructor_destroys_held_value_once Ts3 3%nat w_logger v_logger st
           HV Holding_logger).
Defined.

(** [v1 = v3;] for [v1] holding ["hi"] and [v3] holding [Logger(3)] *)
Lemma copy_assignment_replaces_witness :
  let ss := StHolding String 1%nat (str "hi") in
  let so := StHolding Logger 0%nat (logger 3) in
  heap w_pair !! 1%nat = Some v_string ∧ heap w_pair !! 3%nat = Some v_logger ∧
  1%nat ≠ 3%nat ∧ in_state Ts3 v_string ss ∧ in_state Ts3 v_logger so ∧
  reproducible so ∧
  ∃ w' V',
    assign_copy Ts3 1%nat 3%nat w_pair = Ok (tt, w') ∧
    (log w').*1 = (log w_pair).*1 ++ destroy_events 1%nat ss ++
                  construct_from_events Ts3 1%nat (next_oid w_pair) so ∧
    heap w' !! 1%nat = Some V' ∧
    index V' = index v_logger ∧
    in_state Ts3 V' (reborn (next_oid w_pair) so) ∧
    (∀ p, p ≠ 1%nat → heap w' !! p = heap w_pair !! p).
Proof.
  intros ss so.
  assert (1%nat ≠ 3%nat) as Hne by discriminate.
  split_and!; [exact pair_string | exact pair_logger | exact Hne
              | exact Holding_string | exact Holding_logger
              | apply scenarios.reproduces_all |].
  apply (copy_assignment_replaces Ts3 1%nat 3%nat w_pair v_string v_logger ss so
           pair_string pair_logger Hne Holding_string Holding_logger
           (scenarios.reproduces_all _ _)).
Defined.

(** [v1 = std::move(v3);] for the same two instances *)
Lemma move_assignment_transfers_witness :
  let ss := StHolding String 1%nat (str "hi") in
  let so := StHolding Logger 0%nat (logger 3) in
  heap w_pair !! 1%nat = Some v_string ∧ heap w_pair !! 3%nat = Some v_logger ∧
  1%nat ≠ 3%nat ∧ in_state Ts3 v_string ss ∧ in_state Ts3 v_logger so ∧
  reproducible so ∧
  ∃ w' V' O',
    assign_move Ts3 1%nat 3%nat w_pair = Ok (tt, w') ∧
    (log w').*1 = (log w_pair).*1 ++ destroy_events 1%nat ss ++
                  construct_from_events Ts3 1%nat (next_oid w_pair) so ++
                  [EvSetIdx 3%nat null_type] ∧
    heap w' !! 1%nat = Some V' ∧
    index V' = index v_logger ∧
    in_state Ts3 V' (reborn (next_oid w_pair) so) ∧
    heap w' !! 3%nat = Some O' ∧
    index O' = null_type ∧
    (∀ p, p ≠ 1%nat → p ≠ 3%nat → heap w' !! p = heap w_pair !! p).
Proof.
  intros ss so.
  assert (1%nat ≠ 3%nat) as Hne by discriminate.
  split_and!; [exact pair_string | exact pair_logger | exact Hne
              | exact Holding_string | exact Holding_logger
              | apply scenarios.reproduces_all |].
  apply (move_assignment_transfers Ts3 1%nat 3%nat w_pair v_string v_logger ss so
           pair_string pair_logger Hne Holding_string Holding_logger
           (scenarios.reproduces_all _ _)).
Defined.

(** [v1 = 7;] for [v1] holding ["hi"] runs to its end. *)
Lemma operations_are_defined_witness :
  let o := OpAssignValue 1%nat Int rvalue (outside (int 7)) in
  all_consistent Ts3 (heap w_pair) ∧ ready Ts3 o w_pair ∧
  ∃ w', exec Ts3 o w_pair = Ok (tt, w').
Proof.
  intros o.
  assert (ready Ts3 o w_pair) as Hready.
  { split; [exists v_string; exact pair_string|].
    split_and!; [in_list | reflexivity | by exists (int 7)]. }
  split_and!; [apply scenarios.world_after_consistent | exact Hready |].
  apply (operations_are_defined Ts3 o w_pair
           (scenarios.world_after_consistent _ _) Hready).
Defined.


(** [v3.get<0>()] and [v3.get<int>()] on [v3] holding [Logger(3)] *)
Lemma get_reads_only_the_live_slot_witness :
  Holding Ts3 v_logger Logger 0%nat (logger 3) ∧ Int ∈ Ts3 ∧ (0 < length Ts3)%nat ∧
  get Ts3 0 v_logger =
    (if decide (0%nat = Z.to_nat (index v_logger)) then Ok (logger 3) else Err Undefined) ∧
  get_type Ts3 Int v_logger =
    (if holds_alternative Ts3 Int v_logger then Ok (logger 3) else Err Undefined) ∧
  (holds_alternative Ts3 Int v_logger = true ↔ Int = Logger).
Proof.
  assert (Int ∈ Ts3) as Hin by in_list.
  assert (0 < length Ts3)%nat as Hlt by (cbn; lia).
  split_and!; [exact Holding_logger | exact Hin | exact Hlt | | |];
    apply (get_reads_only_the_live_slot Ts3 v_logger Logger 0%nat (logger 3) Int 0
             Holding_logger Hin Hlt).
Defined.

(** [Variant<int, std::string, Logger> v5 = std::move(v3); v3.get<Logger>()] *)
Lemma get_on_moved_from_source_witness :
  heap w_logger !! 5%nat = None ∧ heap w_logger !! 3%nat = Some v_logger ∧
  Holding Ts3 v_logger Logger 0%nat (logger 3) ∧
  ∃ w' S',
    Variant_move Ts3 5%nat 3%nat w_logger = Ok (tt, w') ∧
    heap w' !! 3%nat = Some S' ∧
    index S' = null_type ∧
    holds_alternative Ts3 Logger S' = false ∧
    get_type Ts3 Logger S' = Ok (move_construct Logger (logger 3)).2.
Proof.
  assert (heap w_logger !! 5%nat = None) as Hfresh by (vm_compute; reflexivity).
  assert (heap w_logger !! 3%nat = Some v_logger) as HS by (vm_compute; reflexivity).
  split_and!; [exact Hfresh | exact HS | exact Holding_logger |].
  apply (get_on_moved_from_source_reads_the_moved_from_object Ts3 5%nat 3%nat
           w_logger v_logger Logger 0%nat (logger 3) Hfresh HS Holding_logger).
Defined.

(** [std::string] is no alternative of [Variant<int, Logger>]. *)
Lemma unknown_type_is_rejected_witness :
  let V := mkVariant 0 (Value 0%nat (int 100)) in
  (String ∉ Ts2) ∧
  Variant_value Ts2 1%nat String rvalue (outside (str "hi")) w_int = Err IllFormed ∧
  assign_value Ts2 1%nat String rvalue (outside (str "hi")) w_int = Err IllFormed ∧
  get_type Ts2 String V = Err IllFormed ∧
  eq_value Ts2 V String (str "hi") = Err IllFormed ∧
  holds_alternative Ts2 String V = false.
Proof.
  intros V.
  assert (String ∉ Ts2) as Hout by (unfold Ts2; not_in_list).
  split; [exact Hout|].
  apply (unknown_type_is_rejected Ts2 String 1%nat rvalue (outside (str "hi"))
           (str "hi") w_int V Hout).
Defined.

(** [Variant<int, std::string, Logger> v;] *)
Lemma default_constructed_is_empty_witness :
  heap empty_world !! 0%nat = None ∧
  ∃ w' V,
    Variant_default 0%nat empty_world = Ok (tt, w') ∧
    heap w' !! 0%nat = Some V ∧
    log w' = log empty_world ∧
    index V = null_type ∧
    (∀ T, holds_alternative Ts3 T V = false) ∧
    (∀ id, (0 ≤ id < 2 ^ 63)%Z → holds_alternative_idx id V = Ok false) ∧
    (∀ idx, get Ts3 idx V = Err Undefined ∨ get Ts3 idx V = Err IllFormed) ∧
    (forallb trait.is_equality_comparable_v Ts3 = true → eq_variant Ts3 V V = Ok true).
Proof.
  assert (heap empty_world !! 0%nat = None) as Hfresh by reflexivity.
  split; [exact Hfresh|].
  apply (default_constructed_is_empty Ts3 0%nat empty_world Hfresh).
Defined.

(** [v3.holds_alternative<2>()] and [v3.holds_alternative<Logger>()] *)
Lemma holds_alternative_by_index_and_by_type_agree_witness :
  consistent Ts3 v_logger ∧ Logger ∈ Ts3 ∧ (Z.of_nat (length Ts3) < 2 ^ 63)%Z ∧
  holds_alternative_idx (find_idx_by_type Logger Ts3) v_logger =
    Ok (holds_alternative Ts3 Logger v_logger).
Proof.
  assert (consistent Ts3 v_logger) as Hc
    by (exists (StHolding Logger 0%nat (logger 3)); exact Holding_logger).
  assert (Logger ∈ Ts3) as Hin by in_list.
  assert (Z.of_nat (length Ts3) < 2 ^ 63)%Z as Hlen by reflexivity.
  split_and!; [exact Hc | exact Hin | exact Hlen |].
  apply (holds_alternative_by_index_and_by_type_agree Ts3 v_logger Logger Hc Hin Hlen).
Defined.

(** Two [Variant<int, std::string>], one holding [1], one holding ["hi"] *)
Lemma eq_variant_symmetric_witness :
  let A := mkVariant 0 (Value 0%nat (int 1)) in
  let B := mkVariant 1 (Next (Value 1%nat (str "hi"))) in
  (∀ (T : ty) eq a b, equal_to T = Some eq → eq a b = eq b a) ∧
  eq_variant Ts_comparable A B = eq_variant Ts_comparable B A.
Proof.
  intros A B. split; [exact equal_to_symmetric|].
  apply (eq_variant_symmetric Ts_comparable A B equal_to_symmetric).
Defined.

(** [v == v] for a [Variant<int, std::string>] holding ["hi"] *)
Lemma eq_variant_reflexive_witness :
  let A := mkVariant 1 (Next (Value 0%nat (str "hi"))) in
  let st := StHolding String 0%nat (str "hi") in
  forallb trait.is_equality_comparable_v Ts_comparable = true ∧
  in_state Ts_comparable A st ∧
  (∀ T o v eq, st = StHolding T o v → equal_to T = Some eq → eq v v = true) ∧
  eq_variant Ts_comparable A A = Ok true.
Proof.
  intros A st.
  assert (forallb trait.is_equality_comparable_v Ts_comparable = true) as Hcmp
    by reflexivity.
  assert (in_state Ts_comparable A st) as Hst
    by (split_and!; [in_list | reflexivity | reflexivity]).
  assert (∀ T o v eq, st = StHolding T o v → equal_to T = Some eq → eq v v = true)
    as Hrefl by (intros T o v eq [= <- <- <-] [= <-]; reflexivity).
  split_and!; [exact Hcmp | exact Hst | exact Hrefl |].
  apply (eq_variant_reflexive Ts_comparable A st Hcmp Hst Hrefl).
Defined.

(** [a == b] for [b] holding ["hi"], and [a == (std::string) "hi"] *)
Lemma eq_variant_agrees_with_eq_value_witness :
  let A := mkVariant 1 (Next (Value 0%nat (str "hi"))) in
  let B := mkVariant 1 (Next (Value 1%nat (str "hi"))) in
  forallb trait.is_equality_comparable_v Ts_comparable = true ∧
  Holding Ts_comparable B String 1%nat (str "hi") ∧
  eq_variant Ts_comparable A B = eq_value Ts_comparable A String (str "hi").
Proof.
  intros A B.
  assert (forallb trait.is_equality_comparable_v Ts_comparable = true) as Hcmp
    by reflexivity.
  assert (Holding Ts_comparable B String 1%nat (str "hi")) as Hb
    by (split_and!; [in_list | reflexivity | reflexivity]).
  split_and!; [exact Hcmp | exact Hb |].
  apply (eq_variant_agrees_with_eq_value Ts_comparable A B String 1%nat (str "hi")
           Hcmp Hb).
Defined.

(** The scenario of [main.cpp] around [v3] and [v5], run from the start *)
Lemma no_object_is_destroyed_twice_witness :
  let os := [OpValue 3%nat Logger rvalue (outside (logger 3)); OpMove 5%nat 3%nat] ++ later in
  all_consistent Ts3 (heap empty_world) ∧ lifetimes_sound empty_world ∧
  exec_all Ts3 os empty_world = Ok (tt, w_end) ∧
  lifetimes_sound w_end.
Proof.
  intros os.
  assert (exec_all Ts3 os empty_world = Ok (tt, w_end)) as Hrun
    by (vm_compute; reflexivity).
  split_and!; [apply scenarios.empty_world_consistent | exact empty_world_lifetimes
              | exact Hrun |].
  apply (no_object_is_destroyed_twice Ts3 os empty_world w_end
           (scenarios.empty_world_consistent _) empty_world_lifetimes Hrun).
Defined.


(** [Variant<int, std::string> b = a;] for [a] holding ["hi"], then [b == a] *)
Lemma copy_compares_equal_to_original_witness :
  let w := world_after Ts_comparable [OpValue 0%nat String rvalue (outside (str "hi"))] in
  let O := mkVariant 1 (Next (Value 0%nat (str "hi"))) in
  let so := StHolding String 0%nat (str "hi") in
  forallb trait.is_equality_comparable_v Ts_comparable = true ∧
  heap w !! 1%nat = None ∧ heap w !! 0%nat = Some O ∧
  in_state Ts_comparable O so ∧ reproducible so ∧
  (∀ T o v eq, so = StHolding T o v → equal_to T = Some eq → eq v v = true) ∧
  ∃ w' V,
    Variant_copy Ts_comparable 1%nat 0%nat w = Ok (tt, w') ∧
    heap w' !! 1%nat = Some V ∧
    heap w' !! 0%nat = Some O ∧
    eq_variant Ts_comparable V O = Ok true ∧
    eq_variant Ts_comparable O V = Ok true.
Proof.
  intros w O so.
  assert (forallb trait.is_equality_comparable_v Ts_comparable = true) as Hcmp
    by reflexivity.
  assert (heap w !! 1%nat = None) as Hfresh by (vm_compute; reflexivity).
  assert (heap w !! 0%nat = Some O) as HO by (vm_compute; reflexivity).
  assert (in_state Ts_comparable O so) as Hso
    by (split_and!; [in_list | reflexivity | reflexivity]).
  assert (∀ T o v eq, so = StHolding T o v → equal_to T = Some eq → eq v v = true)
    as Hrefl by (intros T o v eq [= <- <- <-] [= <-]; reflexivity).
  split_and!; [exact Hcmp | exact Hfresh | exact HO | exact Hso
              | apply scenarios.reproduces_all | exact Hrefl |].
  apply (copy_compares_equal_to_original Ts_comparable 1%nat 0%nat w O so
           Hcmp Hfresh HO Hso (scenarios.reproduces_all _ _) Hrefl).
Defined.
End further_scenarios.
